(** * telegram-gallery: a shallow embedding of the gallery client and its server

    The development follows the two source files that carry the logic:

    - [src/components/Gallery.vue]: the in-memory entry list, the pagination
      cursor, the optimistic single and batch deletion with rollback, the
      pending-deletion set and the two localStorage caches;
    - [server/index.js]: the keyset-paginated [/api/gallery] handler, the
      JWT helpers, [/api/login] and [/api/fileurl];
    - [src/components/Login.vue]: the login form.

    JavaScript strings are sequences of UTF-16 code units, so they are
    modelled as [list N]; sets are [gset], plain objects used as maps are
    [gmap].  An [async] function is cut at each [await] into the synchronous
    segments the event loop runs atomically. *)

From Stdlib Require Import ZArith NArith Ascii String.
From stdpp Require Import gmap list sorting.

#[local] Set Warnings "-clear-no-such-hyp".

Open Scope Z_scope.

(** ** JavaScript strings *)

Module JS.

(** A string is its sequence of UTF-16 code units. *)
Abbreviation jsstring := (list N).

(** An ASCII literal as a JavaScript string. *)
Definition js (s : string) : jsstring :=
  (λ a, N_of_ascii a) <$> list_ascii_of_string s.

(** Truthiness of a string-or-null value: [null], [undefined] and the empty
    string are falsy. *)
Definition truthy (v : option jsstring) : bool :=
  match v with
  | Some (_ :: _) => true
  | _ => false
  end.

(** [a || b] on string-or-null values. *)
Definition or_else (a b : option jsstring) : option jsstring :=
  if truthy a then a else b.

(** WhiteSpace and LineTerminator code units, the set stripped by
    [String.prototype.trim] and skipped by [parseInt]. *)
Definition isWhiteSpace (c : N) : bool :=
  bool_decide (c ∈ [0x9; 0xA; 0xB; 0xC; 0xD; 0x20; 0xA0; 0x1680; 0x2028;
                    0x2029; 0x202F; 0x205F; 0x3000; 0xFEFF]%N)
  || ((0x2000 <=? c) && (c <=? 0x200A))%N.

Fixpoint trimStart (s : jsstring) : jsstring :=
  match s with
  | c :: r => if isWhiteSpace c then trimStart r else s
  | [] => []
  end.

Definition trim (s : jsstring) : jsstring :=
  reverse (trimStart (reverse (trimStart s))).

(** The value of a decimal digit code unit. *)
Definition digitValue (c : N) : option Z :=
  if ((48 <=? c) && (c <=? 57))%N then Some (Z.of_N c - 48) else None.

(** The longest prefix of decimal digits, read left to right. *)
Fixpoint parseDigits (acc : Z) (s : jsstring) : Z :=
  match s with
  | c :: r =>
      match digitValue c with
      | Some d => parseDigits (10 * acc + d) r
      | None => acc
      end
  | [] => acc
  end.

(** [parseInt(s, 10)] as a mathematical integer; [None] is [NaN].  Leading
    white space is skipped, one sign is accepted, and parsing stops at the
    first code unit that is not a decimal digit. *)
Definition parseInt10 (s : jsstring) : option Z :=
  let s1 := trimStart s in
  let '(sign, s2) :=
    match s1 with
    | c :: r =>
        if (c =? 45)%N then (-1, r) else if (c =? 43)%N then (1, r) else (1, s1)
    | [] => (1, s1)
    end in
  match s2 with
  | c :: _ =>
      match digitValue c with
      | Some _ => Some (sign * parseDigits 0 s2)
      | None => None
      end
  | [] => None
  end.

(** [parseInt] returns the Number nearest to the mathematical integer.  That
    Number is finite exactly below the rounding threshold of the largest
    double, [2^1024 - 2^970]; above it the result is [Infinity]. *)
Definition numberIsFinite (z : Z) : bool :=
  Z.abs z <? 2 ^ 1024 - 2 ^ 970.

(** Decimal digits of a natural number, most significant first, with fuel
    for the (at most [fuel]) digits. *)
Fixpoint digitsOf (fuel : nat) (n : N) (acc : jsstring) : jsstring :=
  match fuel with
  | O => acc
  | S f =>
      let acc' := (48 + n mod 10)%N :: acc in
      if (n <? 10)%N then acc' else digitsOf f (n / 10)%N acc'
  end.

(** The decimal numeral of a non-negative integer.  It is [String(n)] for
    the integers a Number holds exactly below [10^21]; from there on
    JavaScript prints an exponent. *)
Definition stringOfN (n : N) : jsstring :=
  digitsOf (S (N.to_nat (N.log2 n))) n [].

(** [s.split(sep)] for a separator of one code unit. *)
Fixpoint splitOn (sep : N) (s : jsstring) : list jsstring :=
  match s with
  | [] => [[]]
  | c :: r =>
      if bool_decide (c = sep) then [] :: splitOn sep r
      else
        match splitOn sep r with
        | w :: ws => (c :: w) :: ws
        | [] => [[c]]
        end
  end.

(** Upper-case hexadecimal digit of a nibble. *)
Definition hexUpper (n : N) : N :=
  if (n <? 10)%N then (48 + n)%N else (55 + n)%N.

(** Lower-case hexadecimal digit of a nibble. *)
Definition hexLower (n : N) : N :=
  if (n <? 10)%N then (48 + n)%N else (87 + n)%N.

(** The [n] lowest hexadecimal digits of a number, most significant
    first, in lower case. *)
Fixpoint hexDigits (n : nat) (v : N) : jsstring :=
  match n with
  | O => []
  | S m => hexLower ((v / 16 ^ N.of_nat m) mod 16)%N :: hexDigits m v
  end.

(** The code points of a string; [None] on a lone surrogate. *)
Fixpoint codePoints (s : jsstring) : option (list N) :=
  match s with
  | [] => Some []
  | c :: r =>
      if ((0xD800 <=? c) && (c <=? 0xDBFF))%N then
        match r with
        | d :: r' =>
            if ((0xDC00 <=? d) && (d <=? 0xDFFF))%N then
              cons (0x10000 + (c - 0xD800) * 0x400 + (d - 0xDC00))%N
                <$> codePoints r'
            else None
        | [] => None
        end
      else if ((0xDC00 <=? c) && (c <=? 0xDFFF))%N then None
      else cons c <$> codePoints r
  end.

(** UTF-8 bytes of one code point. *)
Definition utf8OfCodePoint (p : N) : list N :=
  (if p <? 0x80 then [p]
   else if p <? 0x800 then [0xC0 + p / 0x40; 0x80 + p mod 0x40]
   else if p <? 0x10000 then
     [0xE0 + p / 0x1000; 0x80 + (p / 0x40) mod 0x40; 0x80 + p mod 0x40]
   else
     [0xF0 + p / 0x40000; 0x80 + (p / 0x1000) mod 0x40;
      0x80 + (p / 0x40) mod 0x40; 0x80 + p mod 0x40])%N.

(** Characters [encodeURIComponent] leaves as they are:
    letters, digits and [- _ . ! ~ * ' ( )]. *)
Definition uriUnreserved (b : N) : bool :=
  ((65 <=? b) && (b <=? 90) || (97 <=? b) && (b <=? 122)
   || (48 <=? b) && (b <=? 57))%N
  || bool_decide (b ∈ [45; 95; 46; 33; 126; 42; 39; 40; 41]%N).

Definition percentEncode (b : N) : jsstring :=
  if uriUnreserved b then [b]
  else [37; hexUpper (b / 16); hexUpper (b mod 16)]%N.

(** [encodeURIComponent(s)]; [None] is the [URIError] thrown on a lone
    surrogate. *)
Definition encodeURIComponent (s : jsstring) : option jsstring :=
  (λ ps, mjoin ((λ p, mjoin (percentEncode <$> utf8OfCodePoint p)) <$> ps))
    <$> codePoints s.

End JS.

Export JS.


(** ** The gallery client, [src/components/Gallery.vue] *)

Module Entry.

(** A gallery entry as the server sends it ([toGalleryItem]) together with
    the two client-only fields [src] and [loading] that
    [buildEntryWithCache] adds.  An entry coming from the server or from the
    list cache has [src = None] and [loading = false]. *)
Record t := mk {
  id : jsstring;
  prompt : jsstring;
  metadata : jsstring;
  chat_id : option jsstring;
  file_id : option jsstring;
  timestamp : Z;
  src : option jsstring;
  loading : bool;
}.

#[export] Instance eq_dec : EqDecision t.
Proof. solve_decision. Defined.

(** [{ ...e, src, loading }] *)
Definition with_image (e : t) (s : option jsstring) (l : bool) : t :=
  mk (id e) (prompt e) (metadata e) (chat_id e) (file_id e) (timestamp e) s l.

(** The part of an entry that comes from the server. *)
Definition server_part (e : t) : t := with_image e None false.

End Entry.

Module Page.

(** The canonical page shape [fetchGalleryPage] returns. *)
Record t := mk {
  items : list Entry.t;
  hasMore : bool;
  nextCursor : option jsstring;
}.

End Page.

Module Gallery.

Definition PAGE_SIZE : nat := 60.

(** The messages handed to [showToastMsg], by the call that produces them;
    the counts of the batch report are kept as numbers. *)
Inductive Toast :=
  | ToastDeleted                          (* '已删除' *)
  | ToastDeleteFailed (message : jsstring) (* '删除失败: ' + message *)
  | ToastSelectFirst                      (* '请先选择要删除的图片' *)
  | ToastBatchDeleted (successCount : nat)
  | ToastBatchPartial (successCount failCount : nat)
  | ToastCacheCleared.                    (* '图片缓存已清除，正在重新加载' *)

(** What [hideEntryOptimistically] returns when it found the entry. *)
Record Snapshot := mkSnapshot {
  snap_entry : Entry.t;
  snap_index : nat;
}.

(** The refs and module-level variables of the component, and the two
    localStorage keys it owns. *)
Record State := mkState {
  entries : list Entry.t;
  loading : bool;
  error : jsstring;
  selectedIndex : Z;
  loadingMore : bool;
  hasMore : bool;
  paginationCursor : option jsstring;
  pendingImageLoads : gset jsstring;
  showDeleteModal : bool;
  pendingDelete : option Entry.t;
  toast : option Toast;
  batchMode : bool;
  selectedEntryIds : list jsstring;
  pendingDeleteIds : gset jsstring;
  listCache : option (list Entry.t);     (* 'gallery_list_cache' *)
  imageCache : gmap jsstring jsstring;   (* 'gallery_image_cache': fileId -> url *)
}.

Definition initialState (lc : option (list Entry.t))
    (ic : gmap jsstring jsstring) : State :=
  mkState [] false [] (-1) false true None ∅ false None None false [] ∅ lc ic.

Definition set_entries (v : list Entry.t) (s : State) : State :=
  mkState v (loading s) (error s) (selectedIndex s) (loadingMore s) (hasMore s)
    (paginationCursor s) (pendingImageLoads s) (showDeleteModal s)
    (pendingDelete s) (toast s) (batchMode s) (selectedEntryIds s)
    (pendingDeleteIds s) (listCache s) (imageCache s).
Definition set_loading (v : bool) (s : State) : State :=
  mkState (entries s) v (error s) (selectedIndex s) (loadingMore s) (hasMore s)
    (paginationCursor s) (pendingImageLoads s) (showDeleteModal s)
    (pendingDelete s) (toast s) (batchMode s) (selectedEntryIds s)
    (pendingDeleteIds s) (listCache s) (imageCache s).
Definition set_error (v : jsstring) (s : State) : State :=
  mkState (entries s) (loading s) v (selectedIndex s) (loadingMore s) (hasMore s)
    (paginationCursor s) (pendingImageLoads s) (showDeleteModal s)
    (pendingDelete s) (toast s) (batchMode s) (selectedEntryIds s)
    (pendingDeleteIds s) (listCache s) (imageCache s).
Definition set_selectedIndex (v : Z) (s : State) : State :=
  mkState (entries s) (loading s) (error s) v (loadingMore s) (hasMore s)
    (paginationCursor s) (pendingImageLoads s) (showDeleteModal s)
    (pendingDelete s) (toast s) (batchMode s) (selectedEntryIds s)
    (pendingDeleteIds s) (listCache s) (imageCache s).
Definition set_loadingMore (v : bool) (s : State) : State :=
  mkState (entries s) (loading s) (error s) (selectedIndex s) v (hasMore s)
    (paginationCursor s) (pendingImageLoads s) (showDeleteModal s)
    (pendingDelete s) (toast s) (batchMode s) (selectedEntryIds s)
    (pendingDeleteIds s) (listCache s) (imageCache s).
Definition set_hasMore (v : bool) (s : State) : State :=
  mkState (entries s) (loading s) (error s) (selectedIndex s) (loadingMore s) v
    (paginationCursor s) (pendingImageLoads s) (showDeleteModal s)
    (pendingDelete s) (toast s) (batchMode s) (selectedEntryIds s)
    (pendingDeleteIds s) (listCache s) (imageCache s).
Definition set_paginationCursor (v : option jsstring) (s : State) : State :=
  mkState (entries s) (loading s) (error s) (selectedIndex s) (loadingMore s)
    (hasMore s) v (pendingImageLoads s) (showDeleteModal s)
    (pendingDelete s) (toast s) (batchMode s) (selectedEntryIds s)
    (pendingDeleteIds s) (listCache s) (imageCache s).
Definition set_pendingImageLoads (v : gset jsstring) (s : State) : State :=
  mkState (entries s) (loading s) (error s) (selectedIndex s) (loadingMore s)
    (hasMore s) (paginationCursor s) v (showDeleteModal s)
    (pendingDelete s) (toast s) (batchMode s) (selectedEntryIds s)
    (pendingDeleteIds s) (listCache s) (imageCache s).
Definition set_showDeleteModal (v : bool) (s : State) : State :=
  mkState (entries s) (loading s) (error s) (selectedIndex s) (loadingMore s)
    (hasMore s) (paginationCursor s) (pendingImageLoads s) v
    (pendingDelete s) (toast s) (batchMode s) (selectedEntryIds s)
    (pendingDeleteIds s) (listCache s) (imageCache s).
Definition set_pendingDelete (v : option Entry.t) (s : State) : State :=
  mkState (entries s) (loading s) (error s) (selectedIndex s) (loadingMore s)
    (hasMore s) (paginationCursor s) (pendingImageLoads s) (showDeleteModal s)
    v (toast s) (batchMode s) (selectedEntryIds s)
    (pendingDeleteIds s) (listCache s) (imageCache s).
Definition set_toast (v : option Toast) (s : State) : State :=
  mkState (entries s) (loading s) (error s) (selectedIndex s) (loadingMore s)
    (hasMore s) (paginationCursor s) (pendingImageLoads s) (showDeleteModal s)
    (pendingDelete s) v (batchMode s) (selectedEntryIds s)
    (pendingDeleteIds s) (listCache s) (imageCache s).
Definition set_batchMode (v : bool) (s : State) : State :=
  mkState (entries s) (loading s) (error s) (selectedIndex s) (loadingMore s)
    (hasMore s) (paginationCursor s) (pendingImageLoads s) (showDeleteModal s)
    (pendingDelete s) (toast s) v (selectedEntryIds s)
    (pendingDeleteIds s) (listCache s) (imageCache s).
Definition set_selectedEntryIds (v : list jsstring) (s : State) : State :=
  mkState (entries s) (loading s) (error s) (selectedIndex s) (loadingMore s)
    (hasMore s) (paginationCursor s) (pendingImageLoads s) (showDeleteModal s)
    (pendingDelete s) (toast s) (batchMode s) v
    (pendingDeleteIds s) (listCache s) (imageCache s).
Definition set_pendingDeleteIds (v : gset jsstring) (s : State) : State :=
  mkState (entries s) (loading s) (error s) (selectedIndex s) (loadingMore s)
    (hasMore s) (paginationCursor s) (pendingImageLoads s) (showDeleteModal s)
    (pendingDelete s) (toast s) (batchMode s) (selectedEntryIds s)
    v (listCache s) (imageCache s).
Definition set_listCache (v : option (list Entry.t)) (s : State) : State :=
  mkState (entries s) (loading s) (error s) (selectedIndex s) (loadingMore s)
    (hasMore s) (paginationCursor s) (pendingImageLoads s) (showDeleteModal s)
    (pendingDelete s) (toast s) (batchMode s) (selectedEntryIds s)
    (pendingDeleteIds s) v (imageCache s).
Definition set_imageCache (v : gmap jsstring jsstring) (s : State) : State :=
  mkState (entries s) (loading s) (error s) (selectedIndex s) (loadingMore s)
    (hasMore s) (paginationCursor s) (pendingImageLoads s) (showDeleteModal s)
    (pendingDelete s) (toast s) (batchMode s) (selectedEntryIds s)
    (pendingDeleteIds s) (listCache s) v.

(** The ids of a list of entries, in order. *)
Definition ids (l : list Entry.t) : list jsstring := Entry.id <$> l.

(** [showToastMsg]: the message is shown; the timer that hides it again is
    not part of the model. *)
Definition showToastMsg (m : Toast) (s : State) : State := set_toast (Some m) s.

(** [syncSelectionWithEntries] *)
Definition syncSelectionWithEntries (s : State) : State :=
  let visibleIds : gset jsstring := list_to_set (ids (entries s)) in
  set_selectedEntryIds
    (filter (λ i, i ∈ visibleIds) (selectedEntryIds s)) s.

(** [toggleBatchMode] *)
Definition toggleBatchMode (s : State) : State :=
  let s1 := set_selectedIndex (-1) (set_batchMode (negb (batchMode s)) s) in
  if batchMode s1 then s1 else set_selectedEntryIds [] s1.

(** [isEntrySelected] *)
Definition isEntrySelected (entryId : jsstring) (s : State) : bool :=
  bool_decide (entryId ∈ selectedEntryIds s).

(** [toggleEntrySelection] *)
Definition toggleEntrySelection (entryId : jsstring) (s : State) : State :=
  if negb (truthy (Some entryId)) then s
  else if isEntrySelected entryId s then
    set_selectedEntryIds (filter (λ i, i ≠ entryId) (selectedEntryIds s)) s
  else set_selectedEntryIds (selectedEntryIds s ++ [entryId]) s.

(** [clearBatchSelection] *)
Definition clearBatchSelection (s : State) : State := set_selectedEntryIds [] s.

(** [allEntriesSelected] *)
Definition allEntriesSelected (s : State) : bool :=
  bool_decide (0 < length (entries s))%nat
  && bool_decide (length (selectedEntryIds s) = length (entries s)).

(** [toggleSelectAllEntries] *)
Definition toggleSelectAllEntries (s : State) : State :=
  if allEntriesSelected s then clearBatchSelection s
  else set_selectedEntryIds (ids (entries s)) s.

(** [openDeleteModal] and [cancelDelete] *)
Definition openDeleteModal (e : Entry.t) (s : State) : State :=
  set_showDeleteModal true (set_pendingDelete (Some e) s).
Definition cancelDelete (s : State) : State :=
  set_showDeleteModal false (set_pendingDelete None s).

(** *** The two permanent caches *)

(** [setImageCache], when the write reaches localStorage: the code swallows
    a [setItem] that throws, and an assignment under the key [__proto__]
    makes no entry; in both cases the cache stays as it was. *)
Definition setImageCache (fileId url : jsstring) (s : State) : State :=
  set_imageCache (<[fileId := url]> (imageCache s)) s.

(** [setGalleryListCache]: only the first page is kept. *)
Definition setGalleryListCache (l : list Entry.t) (s : State) : State :=
  set_listCache (Some (take PAGE_SIZE l)) s.

(** [removeEntryFromLocalCache] *)
Definition removeEntryFromLocalCache (e : Entry.t) (s : State) : State :=
  let cached := default [] (listCache s) in
  let s1 :=
    setGalleryListCache (filter (λ item, Entry.id item ≠ Entry.id e) cached) s in
  match Entry.file_id e with
  | Some fileId =>
      if truthy (Some fileId) then set_imageCache (delete fileId (imageCache s1)) s1
      else s1
  | None => s1
  end.

(** *** Optimistic hide and rollback *)

(** [array.splice(k, 0, x)] *)
Definition spliceInsert {A} (k : nat) (x : A) (l : list A) : list A :=
  take k l ++ x :: drop k l.

(** [hideEntryOptimistically] *)
Definition hideEntryOptimistically (entryId : jsstring) (s : State)
    : State * option Snapshot :=
  match list_find (λ e, Entry.id e = entryId) (entries s) with
  | None => (s, None)
  | Some (index, entry) =>
      let s1 := set_entries (delete index (entries s)) s in
      let s2 :=
        if bool_decide (selectedIndex s1 = Z.of_nat index)
        then set_selectedIndex (-1) s1
        else if bool_decide (selectedIndex s1 > Z.of_nat index)
        then set_selectedIndex (selectedIndex s1 - 1) s1
        else s1 in
      let s3 := set_pendingDeleteIds ({[entryId]} ∪ pendingDeleteIds s2) s2 in
      (syncSelectionWithEntries s3, Some (mkSnapshot entry index))
  end.

(** [restoreHiddenEntry] *)
Definition restoreHiddenEntry (snapshot : option Snapshot) (s : State) : State :=
  match snapshot with
  | None => s
  | Some snap =>
      let e := snap_entry snap in
      let s1 := set_pendingDeleteIds (pendingDeleteIds s ∖ {[Entry.id e]}) s in
      if bool_decide (Exists (λ x, Entry.id x = Entry.id e) (entries s1)) then s1
      else
        let insertIndex := Nat.min (snap_index snap) (length (entries s1)) in
        let s2 := set_entries (spliceInsert insertIndex e (entries s1)) s1 in
        let s3 :=
          if bool_decide (selectedIndex s2 >= Z.of_nat insertIndex)
          then set_selectedIndex (selectedIndex s2 + 1) s2
          else s2 in
        syncSelectionWithEntries s3
  end.

(** [finalizeDeleteSuccess] *)
Definition finalizeDeleteSuccess (e : Entry.t) (s : State) : State :=
  let s1 := set_pendingDeleteIds (pendingDeleteIds s ∖ {[Entry.id e]}) s in
  syncSelectionWithEntries (removeEntryFromLocalCache e s1).

(** *** Talking to the server *)

(** A thrown [Error]: its name and its message. *)
Record JsError := mkError {
  err_name : jsstring;
  err_message : jsstring;
}.

(** [String(e)] for an error object. *)
Definition errorToString (e : JsError) : jsstring :=
  match err_message e with
  | [] => err_name e
  | m => err_name e ++ js ": " ++ m
  end.

(** What [await fetch(...)] followed by [resp.json()] gives: a status code
    with the decoded body, or a rejection (the network failed). *)
Inductive Fetched (B : Type) :=
  | Responded (status : Z) (body : B)
  | Rejected (e : JsError).
Arguments Responded {B} status body.
Arguments Rejected {B} e.

(** [resp.ok] *)
Definition statusOk (status : Z) : bool := (200 <=? status) && (status <=? 299).

(** '删除失败' *)
Definition deleteFailedMessage : jsstring := [0x5220; 0x9664; 0x5931; 0x8D25]%N.

(** [requestDeleteById], from the reply on.  The body of a DELETE reply is
    represented by its [error] field.  The result is the thrown error or
    the returned body. *)
Definition requestDeleteById (reply : Fetched (option jsstring))
    : JsError + option jsstring :=
  match reply with
  | Rejected e => inl e
  | Responded status body =>
      if negb (statusOk status) then
        inl (mkError (js "Error") (default deleteFailedMessage (or_else body None)))
      else inr body
  end.

(** The body of a GET reply: the legacy flat array, or an object of which
    the fields [error], [items], [hasMore] and [nextCursor] are read (a body
    that is not JSON reads as the object without fields). *)
Inductive GalleryBody :=
  | BodyArray (l : list Entry.t)
  | BodyObject (err : option jsstring) (items : option (list Entry.t))
      (more : bool) (next : option jsstring).

(** The query string [fetchGalleryPage] sends. *)
Record GalleryQuery := mkQuery {
  q_limit : option jsstring;
  q_cursor : option jsstring;
}.

(** The query of [fetchGalleryPage(cursor, limit)], for a page size below
    [10^21], which [String(limit)] prints in full. *)
Definition fetchGalleryPage_query (cursor : option jsstring) (limit : nat)
    : GalleryQuery :=
  mkQuery (Some (stringOfN (N.of_nat limit)))
    (if truthy cursor then cursor else None).

(** [fetchGalleryPage], from the reply on: both response shapes are brought
    to the one [Page.t]. *)
Definition fetchGalleryPage_reply (limit : nat) (reply : Fetched GalleryBody)
    : JsError + Page.t :=
  match reply with
  | Rejected e => inl e
  | Responded status body =>
      if negb (statusOk status) then
        let err := match body with BodyObject err _ _ _ => err | _ => None end in
        inl (mkError (js "Error") (default (js "Failed to load") (or_else err None)))
      else
        match body with
        | BodyArray l =>
            inr (Page.mk l (bool_decide (limit ≤ length l)%nat)
                   (Entry.id <$> last l))
        | BodyObject _ items more next =>
            inr (Page.mk (default [] items) more (or_else next None))
        end
  end.

(** *** Building entries and resolving their image *)

(** [buildEntryWithCache].  The record has every field of a server entry, so
    [{...existingEntry, ...entry}] is [entry]; [src] and [loading] are then
    set explicitly.  The file id is taken not to name a property every
    object inherits ([toString], [__proto__], ...), for which the lookup
    [imageCache[fileId]] finds that property. *)
Definition buildEntryWithCache (entry : Entry.t) (existingEntry : option Entry.t)
    (cache : gmap jsstring jsstring) (forceImageRefresh : bool) : Entry.t :=
  let fileId := Entry.file_id entry in
  let cachedData := if truthy fileId then fileId ≫= (cache !!.) else None in
  let keepExistingSrc :=
    truthy (existingEntry ≫= Entry.src) && negb forceImageRefresh in
  let loadingState :=
    if forceImageRefresh then truthy fileId
    else if keepExistingSrc then false
    else if from_option Entry.loading false existingEntry
            && negb (bool_decide (is_Some cachedData)) then true
    else truthy fileId && negb (bool_decide (is_Some cachedData)) in
  Entry.with_image entry
    (if keepExistingSrc then existingEntry ≫= Entry.src
     else if forceImageRefresh then None else cachedData)
    loadingState.

(** [loadEntryImage].  The function has no [await], so it runs to its end
    when called; it changes the entry it is given, which the callers write
    back to the list the entry sits in. *)
Definition loadEntryImage (entry : Entry.t) (s : State) : Entry.t * State :=
  match Entry.file_id entry with
  | Some fileId =>
      if negb (truthy (Some fileId)) then (entry, s)
      else if truthy (Entry.src entry) && negb (Entry.loading entry) then (entry, s)
      else if bool_decide (fileId ∈ pendingImageLoads s) then (entry, s)
      else
        let s1 := set_pendingImageLoads ({[fileId]} ∪ pendingImageLoads s) s in
        let '(entry', s2) :=
          match encodeURIComponent fileId with
          | Some enc =>
              let imageUrl := js "/api/fileurl?file_id=" ++ enc in
              (Entry.with_image entry (Some imageUrl) false,
               setImageCache fileId imageUrl s1)
          | None => (Entry.with_image entry (Entry.src entry) false, s1)
          end in
        (entry', set_pendingImageLoads (pendingImageLoads s2 ∖ {[fileId]}) s2)
  | None => (entry, s)
  end.

(** [queueImageLoads] *)
Fixpoint queueImageLoads (targetEntries : list Entry.t) (s : State)
    : list Entry.t * State :=
  match targetEntries with
  | [] => ([], s)
  | entry :: rest =>
      let '(entry', s1) :=
        if negb (truthy (Entry.file_id entry)) then (entry, s)
        else if truthy (Entry.src entry) && negb (Entry.loading entry) then (entry, s)
        else loadEntryImage entry s in
      let '(rest', s2) := queueImageLoads rest s1 in
      (entry' :: rest', s2)
  end.

(** [queueImageLoads(entries.value)] *)
Definition queueImageLoads_entries (s : State) : State :=
  let '(l, s1) := queueImageLoads (entries s) s in set_entries l s1.

(** *** Merging pages *)

(** [new Map(entries.value.map((entry) => [entry.id, entry]))]: a later
    entry with the same id replaces an earlier one. *)
Definition existingById (l : list Entry.t) : gmap jsstring Entry.t :=
  foldl (λ m e, <[Entry.id e := e]> m) ∅ l.

(** The entries of a list that are not pending deletion. *)
Definition visibleOnly (pending : gset jsstring) (l : list Entry.t)
    : list Entry.t :=
  filter (λ e, Entry.id e ∉ pending) l.

(** [mergeTopPage] *)
Definition mergeTopPage (serverItems : list Entry.t)
    (forceImageRefresh keepExistingTail : bool) (s : State) : State :=
  let visibleServerList := visibleOnly (pendingDeleteIds s) serverItems in
  let cache := if forceImageRefresh then ∅ else imageCache s in
  let existing := existingById (entries s) in
  let topEntries :=
    (λ entry, buildEntryWithCache entry (existing !! Entry.id entry) cache
                forceImageRefresh) <$> visibleServerList in
  let s1 :=
    if keepExistingTail then
      let topIds : gset jsstring := list_to_set (ids topEntries) in
      let tail := filter (λ entry, Entry.id entry ∉ topIds) (entries s) in
      set_entries (topEntries ++ tail) s
    else set_entries topEntries s in
  syncSelectionWithEntries
    (queueImageLoads_entries (setGalleryListCache visibleServerList s1)).

(** [load], up to its [await]: the paint from the list cache.  The second
    component is the local [hadEntries]. *)
Definition load_begin (forceImageRefresh forceListRefresh : bool) (s : State)
    : State * bool :=
  let s0 := set_error [] s in
  let hadEntries := bool_decide (0 < length (entries s0))%nat in
  let s1 :=
    if negb forceListRefresh then
      match listCache s0 with
      | Some (c :: cs) =>
          let visibleCachedList :=
            visibleOnly (pendingDeleteIds s0) (take PAGE_SIZE (c :: cs)) in
          let cache := if forceImageRefresh then ∅ else imageCache s0 in
          let painted :=
            (λ entry, buildEntryWithCache entry None cache forceImageRefresh)
              <$> visibleCachedList in
          set_loading false (queueImageLoads_entries (set_entries painted s0))
      | _ => set_loading true s0
      end
    else if negb hadEntries then set_loading true s0
    else s0 in
  (s1, hadEntries).

(** [load], after its [await]: [fetched] is what [fetchGalleryPage(null,
    PAGE_SIZE)] threw or returned. *)
Definition load_settle (forceImageRefresh forceListRefresh hadEntries : bool)
    (fetched : JsError + Page.t) (s : State) : State :=
  let s1 :=
    match fetched with
    | inr page =>
        let s2 := mergeTopPage (Page.items page) forceImageRefresh forceListRefresh s in
        if negb forceListRefresh || negb hadEntries then
          set_hasMore (Page.hasMore page)
            (set_paginationCursor (Page.nextCursor page) s2)
        else if negb (truthy (paginationCursor s2)) then
          set_paginationCursor (Page.nextCursor page) s2
        else s2
    | inl e => set_error (errorToString e) s
    end in
  set_loading false s1.

(** [load] when nothing else runs while the request is in flight. *)
Definition load (forceImageRefresh forceListRefresh : bool)
    (reply : Fetched GalleryBody) (s : State) : State :=
  let '(s1, hadEntries) := load_begin forceImageRefresh forceListRefresh s in
  load_settle forceImageRefresh forceListRefresh hadEntries
    (fetchGalleryPage_reply PAGE_SIZE reply) s1.

(** [loadMore], up to its [await]: [None] when the call returns at one of
    the two guards, otherwise the query it sends. *)
Definition loadMore_begin (s : State) : State * option GalleryQuery :=
  if loading s || loadingMore s then (s, None)
  else if negb (hasMore s) || negb (truthy (paginationCursor s)) then (s, None)
  else (set_loadingMore true s,
        Some (fetchGalleryPage_query (paginationCursor s) PAGE_SIZE)).

(** One turn of the [forEach] of [loadMore]. *)
Definition appendNew (cache : gmap jsstring jsstring)
    (acc : list Entry.t * gset jsstring) (entry : Entry.t)
    : list Entry.t * gset jsstring :=
  if bool_decide (Entry.id entry ∈ acc.2) then acc
  else (acc.1 ++ [buildEntryWithCache entry None cache false],
        {[Entry.id entry]} ∪ acc.2).

(** The [appendedEntries] of [loadMore], before their images are queued. *)
Definition appendedEntries (page : Page.t) (s : State) : list Entry.t :=
  let visibleItems := visibleOnly (pendingDeleteIds s) (Page.items page) in
  (foldl (appendNew (imageCache s))
     ([], list_to_set (ids (entries s))) visibleItems).1.

(** [loadMore], after its [await]. *)
Definition loadMore_settle (fetched : JsError + Page.t) (s : State) : State :=
  let s1 :=
    match fetched with
    | inr page =>
        let appended := appendedEntries page s in
        let s2 :=
          match appended with
          | [] => s
          | _ =>
              let '(appended', s3) := queueImageLoads appended s in
              syncSelectionWithEntries (set_entries (entries s ++ appended') s3)
          end in
        set_hasMore (Page.hasMore page)
          (set_paginationCursor (Page.nextCursor page) s2)
    | inl e => set_error (errorToString e) s
    end in
  set_loadingMore false s1.

(** [loadMore] when nothing else runs while the request is in flight;
    [server] answers the query. *)
Definition loadMore (server : GalleryQuery → Fetched GalleryBody) (s : State)
    : State :=
  match loadMore_begin s with
  | (s1, Some q) => loadMore_settle (fetchGalleryPage_reply PAGE_SIZE (server q)) s1
  | (s1, None) => s1
  end.

(** *** Deleting *)

(** [String(e.message || e)] *)
Definition errorMessageOrString (e : JsError) : jsstring :=
  match err_message e with
  | [] => errorToString e
  | m => m
  end.

(** [performDelete], up to its [await]: [None] when it returns at the guard,
    otherwise the entry and the snapshot it keeps for the continuation. *)
Definition performDelete_begin (s : State)
    : State * option (Entry.t * option Snapshot) :=
  match pendingDelete s with
  | None => (s, None)
  | Some entry =>
      if negb (truthy (Some (Entry.id entry))) then (s, None)
      else
        let '(s1, snapshot) :=
          hideEntryOptimistically (Entry.id entry) (set_showDeleteModal false s) in
        (s1, Some (entry, snapshot))
  end.

(** [performDelete], after its [await]. *)
Definition performDelete_settle (entry : Entry.t) (snapshot : option Snapshot)
    (result : JsError + option jsstring) (s : State) : State :=
  set_pendingDelete None
    match result with
    | inr _ => showToastMsg ToastDeleted (finalizeDeleteSuccess entry s)
    | inl e =>
        showToastMsg (ToastDeleteFailed (errorMessageOrString e))
          (restoreHiddenEntry snapshot s)
    end.

(** [performDelete] when nothing else runs while the request is in flight. *)
Definition performDelete (reply : Fetched (option jsstring)) (s : State) : State :=
  match performDelete_begin s with
  | (s1, Some (entry, snapshot)) =>
      performDelete_settle entry snapshot (requestDeleteById reply) s1
  | (s1, None) => s1
  end.

(** The [targets] of [performBatchDelete]: every target is hidden, in list
    order, before the first request is sent. *)
Fixpoint hideTargets (targetEntries : list Entry.t) (s : State)
    : State * list (Entry.t * option Snapshot) :=
  match targetEntries with
  | [] => (s, [])
  | entry :: rest =>
      let '(s1, snapshot) := hideEntryOptimistically (Entry.id entry) s in
      let '(s2, targets) := hideTargets rest s1 in
      (s2, (entry, snapshot) :: targets)
  end.

(** [performBatchDelete], up to the loop; [confirmed] is the answer to
    [window.confirm]. *)
Definition performBatchDelete_begin (confirmed : bool) (s : State)
    : State * option (list (Entry.t * option Snapshot)) :=
  let targetEntries :=
    filter (λ entry, Entry.id entry ∈ selectedEntryIds s) (entries s) in
  match targetEntries with
  | [] => (showToastMsg ToastSelectFirst s, None)
  | _ =>
      if negb confirmed then (s, None)
      else
        let '(s1, targets) := hideTargets targetEntries s in
        (set_batchMode false (set_selectedEntryIds [] s1), Some targets)
  end.

(** The loop state: the component state with [successCount] and
    [failCount]. *)
Record BatchProgress := mkProgress {
  bp_state : State;
  successCount : nat;
  failCount : nat;
}.

(** One turn of the loop, after the [await] of its request. *)
Definition performBatchDelete_turn (target : Entry.t * option Snapshot)
    (result : JsError + option jsstring) (p : BatchProgress) : BatchProgress :=
  match result with
  | inr _ =>
      mkProgress (finalizeDeleteSuccess target.1 (bp_state p))
        (successCount p + 1) (failCount p)
  | inl _ =>
      mkProgress (restoreHiddenEntry target.2 (bp_state p))
        (successCount p) (failCount p + 1)
  end.

(** The report after the loop. *)
Definition performBatchDelete_report (p : BatchProgress) : State :=
  match failCount p with
  | O => showToastMsg (ToastBatchDeleted (successCount p)) (bp_state p)
  | _ => showToastMsg (ToastBatchPartial (successCount p) (failCount p)) (bp_state p)
  end.

(** The loop when nothing else runs while the requests are in flight: the
    requests go out one after the other, [server] answering the DELETE of
    each id. *)
Definition performBatchDelete_loop (server : jsstring → Fetched (option jsstring))
    (targets : list (Entry.t * option Snapshot)) (s : State) : BatchProgress :=
  foldl (λ p target,
           performBatchDelete_turn target
             (requestDeleteById (server (Entry.id target.1))) p)
    (mkProgress s 0 0) targets.

(** [performBatchDelete] *)
Definition performBatchDelete (confirmed : bool)
    (server : jsstring → Fetched (option jsstring)) (s : State) : State :=
  match performBatchDelete_begin confirmed s with
  | (s1, Some targets) =>
      performBatchDelete_report (performBatchDelete_loop server targets s1)
  | (s1, None) => s1
  end.

(** Whether the DELETE of an entry succeeds against [server]. *)
Definition requestSucceeds (server : jsstring → Fetched (option jsstring))
    (e : Entry.t) : bool :=
  match requestDeleteById (server (Entry.id e)) with
  | inr _ => true
  | inl _ => false
  end.

(** *** The remaining handlers that touch the list or the selection *)

(** [clearImageCache], up to the [await] inside the [load(true, false)] it
    calls. *)
Definition clearImageCache_begin (confirmed : bool) (s : State) : State * bool :=
  if negb confirmed then (s, false)
  else
    let s1 := set_imageCache ∅ s in
    let s2 :=
      set_entries
        ((λ entry, Entry.with_image entry None (truthy (Entry.file_id entry)))
           <$> entries s1) s1 in
    load_begin true false (set_toast (Some ToastCacheCleared) s2).

(** [refreshSingleImage(entries[selectedIndex])], as the two buttons of the
    template call it; [now] is [Date.now()].  Without an entry at the
    selected index the call throws and changes nothing. *)
Definition refreshSingleImage (now : N) (s : State) : State :=
  if bool_decide (selectedIndex s < 0) then s
  else
    let index := Z.to_nat (selectedIndex s) in
    match entries s !! index with
    | None => s
    | Some entry =>
        match Entry.file_id entry with
        | Some (c :: r) =>
            let fileId := c :: r in
            match encodeURIComponent fileId with
            | Some enc =>
                let imageUrl :=
                  js "/api/fileurl?file_id=" ++ enc ++ js "&t=" ++ stringOfN now in
                setImageCache fileId imageUrl
                  (set_entries
                     (<[index := Entry.with_image entry (Some imageUrl) false]>
                        (entries s)) s)
            | None =>
                set_entries
                  (<[index := Entry.with_image entry (Entry.src entry) false]>
                     (entries s)) s
            end
        | _ => s
        end
    end.

(** [open], [close], [prevImage] and [nextImage] *)
Definition open (e : Entry.t) (s : State) : State :=
  set_selectedIndex
    (from_option (λ p, Z.of_nat p.1) (-1)
       (list_find (λ x, Entry.id x = Entry.id e) (entries s))) s.
Definition close (s : State) : State := set_selectedIndex (-1) s.
Definition prevImage (s : State) : State :=
  if bool_decide (selectedIndex s > 0)
  then set_selectedIndex (selectedIndex s - 1) s else s.
Definition nextImage (s : State) : State :=
  if bool_decide (selectedIndex s < Z.of_nat (length (entries s)) - 1)
  then set_selectedIndex (selectedIndex s + 1) s else s.

(** *** The event loop

    One step is one synchronous segment of a handler.  The continuation of
    an [await] may run with any reply; the values a handler keeps across
    its [await] (the snapshot, [hadEntries]) are left free, which covers
    every interleaving.  The server keeps ids unique, so a page never
    repeats an id. *)
Inductive step : State → State → Prop :=
  | step_load_begin fir flr s :
      step s (load_begin fir flr s).1
  | step_load_settle fir flr had fetched s :
      (∀ page, fetched = inr page → NoDup (ids (Page.items page))) →
      step s (load_settle fir flr had fetched s)
  | step_loadMore_begin s :
      step s (loadMore_begin s).1
  | step_loadMore_settle fetched s :
      step s (loadMore_settle fetched s)
  | step_clearImageCache confirmed s :
      step s (clearImageCache_begin confirmed s).1
  | step_refreshSingleImage now s :
      step s (refreshSingleImage now s)
  | step_performDelete_begin s :
      step s (performDelete_begin s).1
  | step_performDelete_settle entry snapshot result s :
      step s (performDelete_settle entry snapshot result s)
  | step_performBatchDelete_begin confirmed s :
      step s (performBatchDelete_begin confirmed s).1
  | step_performBatchDelete_turn target result p :
      step (bp_state p) (bp_state (performBatchDelete_turn target result p))
  | step_performBatchDelete_report p :
      step (bp_state p) (performBatchDelete_report p)
  | step_toggleBatchMode s : step s (toggleBatchMode s)
  | step_toggleEntrySelection i s : step s (toggleEntrySelection i s)
  | step_toggleSelectAllEntries s : step s (toggleSelectAllEntries s)
  | step_clearBatchSelection s : step s (clearBatchSelection s)
  | step_openDeleteModal e s : step s (openDeleteModal e s)
  | step_cancelDelete s : step s (cancelDelete s)
  | step_open e s : step s (open e s)
  | step_close s : step s (close s)
  | step_prevImage s : step s (prevImage s)
  | step_nextImage s : step s (nextImage s).

(** The states the component can be in: it starts with an empty list and
    whatever an earlier session left in localStorage. *)
Inductive reachable : State → Prop :=
  | reachable_init lc ic :
      NoDup (ids (default [] lc)) → reachable (initialState lc ic)
  | reachable_step s s' : reachable s → step s s' → reachable s'.

(** No entry of the visible list is pending deletion. *)
Definition pendingExcluded (s : State) : Prop :=
  ∀ i, i ∈ pendingDeleteIds s → i ∉ ids (entries s).

(** Every selected id is the id of an entry of the list. *)
Definition selectionVisible (s : State) : Prop :=
  ∀ i, i ∈ selectedEntryIds s → i ∈ ids (entries s).

(** What every reachable state satisfies: the list and the list cache do
    not repeat an id, and no entry of the list is pending deletion. *)
Definition consistent (s : State) : Prop :=
  NoDup (ids (entries s))
  ∧ NoDup (ids (default [] (listCache s)))
  ∧ pendingExcluded s.

End Gallery.

(** ** The JWT helpers of [server/index.js] *)

Module Jwt.

(** *** Text and bytes: [btoa], [atob], [TextEncoder], [TextDecoder] *)

(** The base64 alphabet. *)
Definition b64char (n : N) : N :=
  (if n <? 26 then 65 + n
   else if n <? 52 then 71 + n
   else if n <? 62 then n - 4
   else if n =? 62 then 43
   else 47)%N.

Definition b64value (c : N) : option N :=
  (if (65 <=? c) && (c <=? 90) then Some (c - 65)
   else if (97 <=? c) && (c <=? 122) then Some (c - 71)
   else if (48 <=? c) && (c <=? 57) then Some (c + 4)
   else if c =? 43 then Some 62
   else if c =? 47 then Some 63
   else None)%N.

(** The characters of the base64 alphabet. *)
Definition isB64 (c : N) : Prop :=
  (65 ≤ c ≤ 90 ∨ 97 ≤ c ≤ 122 ∨ 48 ≤ c ≤ 57 ∨ c = 43 ∨ c = 47)%N.

(** Lists of bytes. *)
Definition bytes (bs : list N) : Prop := Forall (λ b, b < 256)%N bs.

(** The base64 digits of a byte string: six bits each, the last one
    filled with zeros. *)
Fixpoint base64Digits (bs : list N) : list N :=
  match bs with
  | a :: b :: c :: r =>
      (a / 4 :: (a mod 4) * 16 + b / 16 :: (b mod 16) * 4 + c / 64 :: c mod 64
       :: base64Digits r)%N
  | [a; b] => [a / 4; (a mod 4) * 16 + b / 16; (b mod 16) * 4]%N
  | [a] => [a / 4; (a mod 4) * 16]%N
  | [] => []
  end.

(** A string followed by the [=] that bring its length to a multiple of
    four; also [while (str.length % 4) str += '='] of [base64UrlDecode]. *)
Definition padToFour (s : jsstring) : jsstring :=
  s ++ replicate ((4 - length s `mod` 4) `mod` 4) 61%N.

(** Base64 with padding. *)
Definition base64 (bs : list N) : jsstring :=
  padToFour (b64char <$> base64Digits bs).

(** [btoa(s)]; [None] is the [InvalidCharacterError] thrown when a code unit
    of [s] is above 0xFF. *)
Definition btoa (s : jsstring) : option jsstring :=
  if forallb (λ c, c <=? 0xFF)%N s then Some (base64 s) else None.

(** The bytes of groups of four base64 digits; a last group of two or three
    digits gives one or two bytes. *)
Fixpoint unbase64 (vs : list N) : list N :=
  match vs with
  | a :: b :: c :: d :: r =>
      (a * 4 + b / 16 :: (b mod 16) * 16 + c / 4 :: (c mod 4) * 64 + d
       :: unbase64 r)%N
  | [a; b; c] => [a * 4 + b / 16; (b mod 16) * 16 + c / 4]%N
  | [a; b] => [a * 4 + b / 16]%N
  | _ => []
  end.

Definition isAsciiWhitespace (c : N) : bool :=
  bool_decide (c ∈ [0x9; 0xA; 0xC; 0xD; 0x20]%N).

(** The padding removed by [atob]: when the length is a multiple of four,
    one or two [=] at the end. *)
Definition stripPadding (s : jsstring) : jsstring :=
  if bool_decide (length s `mod` 4 = 0)%nat then
    match reverse s with
    | c :: d :: r =>
        if (c =? 61)%N then
          if (d =? 61)%N then reverse r else reverse (d :: r)
        else s
    | [c] => if (c =? 61)%N then [] else s
    | [] => s
    end
  else s.

(** [atob(s)], the forgiving base64 decoding; [None] is the
    [InvalidCharacterError] it throws. *)
Definition atob (s : jsstring) : option jsstring :=
  let s1 := stripPadding (filter (λ c, isAsciiWhitespace c = false) s) in
  if bool_decide (length s1 `mod` 4 = 1)%nat then None
  else unbase64 <$> mapM b64value s1.

(** The [=] at the start of a list are dropped. *)
Fixpoint dropEquals (l : jsstring) : jsstring :=
  match l with
  | c :: r => if (c =? 61)%N then dropEquals r else l
  | [] => []
  end.

(** [+] to [-] and [/] to [_], and back. *)
Definition toUrlChar (c : N) : N :=
  if (c =? 43)%N then 45%N else if (c =? 47)%N then 95%N else c.
Definition fromUrlChar (c : N) : N :=
  if (c =? 45)%N then 43%N else if (c =? 95)%N then 47%N else c.

(** [replace(/\+/g, '-').replace(/\//g, '_').replace(/=+$/, '')] *)
Definition toUrlAlphabet (s : jsstring) : jsstring :=
  reverse (dropEquals (reverse (toUrlChar <$> s))).

(** [base64UrlEncode], for a string and for a [Uint8Array] alike:
    [String.fromCharCode(...data)] is the string of the bytes. *)
Definition base64UrlEncode (data : jsstring) : option jsstring :=
  toUrlAlphabet <$> btoa data.

(** [base64UrlDecode]: the bytes, or [None] when [atob] throws. *)
Definition base64UrlDecode (str : jsstring) : option (list N) :=
  atob (padToFour (fromUrlChar <$> str)).

(** The scalar values of a string: a lone surrogate reads as U+FFFD. *)
Fixpoint scalarValues (s : jsstring) : list N :=
  match s with
  | [] => []
  | c :: r =>
      if ((0xD800 <=? c) && (c <=? 0xDBFF))%N then
        match r with
        | d :: r' =>
            if ((0xDC00 <=? d) && (d <=? 0xDFFF))%N then
              (0x10000 + (c - 0xD800) * 0x400 + (d - 0xDC00))%N :: scalarValues r'
            else 0xFFFD%N :: scalarValues r
        | [] => [0xFFFD%N]
        end
      else if ((0xDC00 <=? c) && (c <=? 0xDFFF))%N then 0xFFFD%N :: scalarValues r
      else c :: scalarValues r
  end.

(** [textEncoder.encode(s)] *)
Definition textEncode (s : jsstring) : list N :=
  mjoin (utf8OfCodePoint <$> scalarValues s).

(** The state of the UTF-8 decoder between bytes: the code point so far,
    the continuation bytes still needed, and the range the next byte must
    lie in. *)
Record Utf8State := mkUtf8 {
  u_codePoint : N;
  u_needed : nat;
  u_lower : N;
  u_upper : N;
}.

Definition utf8Idle : Utf8State := mkUtf8 0 0 0x80 0xBF.

(** A byte read when no sequence is open: the code point it is, or the
    sequence it opens. *)
Definition utf8Start (b : N) : list N * Utf8State :=
  (if b <=? 0x7F then ([b], utf8Idle)
   else if (0xC2 <=? b) && (b <=? 0xDF) then ([], mkUtf8 (b mod 0x20) 1 0x80 0xBF)
   else if (0xE0 <=? b) && (b <=? 0xEF) then
     ([], mkUtf8 (b mod 0x10) 2 (if b =? 0xE0 then 0xA0 else 0x80)
            (if b =? 0xED then 0x9F else 0xBF))
   else if (0xF0 <=? b) && (b <=? 0xF4) then
     ([], mkUtf8 (b mod 0x8) 3 (if b =? 0xF0 then 0x90 else 0x80)
            (if b =? 0xF4 then 0x8F else 0xBF))
   else ([0xFFFD], utf8Idle))%N.

Fixpoint utf8Decode (st : Utf8State) (bs : list N) : list N :=
  match bs with
  | [] => match u_needed st with O => [] | _ => [0xFFFD%N] end
  | b :: r =>
      match u_needed st with
      | O => let '(out, st') := utf8Start b in out ++ utf8Decode st' r
      | S n =>
          if ((u_lower st <=? b) && (b <=? u_upper st))%N then
            let cp := (u_codePoint st * 0x40 + b mod 0x40)%N in
            match n with
            | O => cp :: utf8Decode utf8Idle r
            | _ => utf8Decode (mkUtf8 cp n 0x80 0xBF) r
            end
          else
            let '(out, st') := utf8Start b in
            0xFFFD%N :: out ++ utf8Decode st' r
      end
  end.

(** The UTF-16 code units of a code point. *)
Definition utf16OfCodePoint (p : N) : jsstring :=
  (if p <? 0x10000 then [p]
   else [0xD800 + (p - 0x10000) / 0x400; 0xDC00 + (p - 0x10000) mod 0x400])%N.

(** [textDecoder.decode(bytes)]: UTF-8 with replacement, a byte order mark
    at the start dropped. *)
Definition textDecode (bs : list N) : jsstring :=
  let ps := utf8Decode utf8Idle bs in
  mjoin (utf16OfCodePoint <$>
           match ps with
           | p :: r => if (p =? 0xFEFF)%N then r else ps
           | [] => ps
           end).

(** *** JSON *)

(** The values a payload field holds: strings, integers, booleans and
    [null]. *)
Inductive JValue :=
  | JStr (s : jsstring)
  | JNum (z : Z)
  | JBool (b : bool)
  | JNull.

(** An object as its fields in insertion order; the keys are distinct and
    none is an array index. *)
Abbreviation JObject := (list (jsstring * JValue)).

(** [obj[k] = v] on a fresh copy: an existing key keeps its place. *)
Fixpoint setField (k : jsstring) (v : JValue) (obj : JObject) : JObject :=
  match obj with
  | [] => [(k, v)]
  | (k', v') :: r =>
      if bool_decide (k' = k) then (k, v) :: r else (k', v') :: setField k v r
  end.

Definition getField (k : jsstring) (obj : JObject) : option JValue :=
  snd <$> find (λ kv, bool_decide (kv.1 = k)) obj.

(** [\uXXXX] *)
Definition unicodeEscape (c : N) : jsstring := js "\u" ++ hexDigits 4 c.

Definition escapeUnit (c : N) : jsstring :=
  (if c =? 0x08 then [92; 98]
   else if c =? 0x09 then [92; 116]
   else if c =? 0x0A then [92; 110]
   else if c =? 0x0C then [92; 102]
   else if c =? 0x0D then [92; 114]
   else if c =? 0x22 then [92; 34]
   else if c =? 0x5C then [92; 92]
   else if c <? 0x20 then unicodeEscape c
   else [c])%N.

(** The inside of a quoted JSON string: the short escapes, [\u00XX] for the
    other control characters, [\uDXXX] for a lone surrogate, every other
    code unit as it is. *)
Fixpoint quoteBody (s : jsstring) : jsstring :=
  match s with
  | [] => []
  | c :: r =>
      if ((0xD800 <=? c) && (c <=? 0xDBFF))%N then
        match r with
        | d :: r' =>
            if ((0xDC00 <=? d) && (d <=? 0xDFFF))%N then c :: d :: quoteBody r'
            else unicodeEscape c ++ quoteBody r
        | [] => unicodeEscape c
        end
      else if ((0xDC00 <=? c) && (c <=? 0xDFFF))%N then unicodeEscape c ++ quoteBody r
      else escapeUnit c ++ quoteBody r
  end.

Definition quoteJSONString (s : jsstring) : jsstring :=
  34%N :: quoteBody s ++ [34%N].

(** [String(z)] for an integer. *)
Definition stringOfZ (z : Z) : jsstring :=
  if z <? 0 then 45%N :: stringOfN (Z.to_N (- z)) else stringOfN (Z.to_N z).

Definition stringifyValue (v : JValue) : jsstring :=
  match v with
  | JStr s => quoteJSONString s
  | JNum z => stringOfZ z
  | JBool true => js "true"
  | JBool false => js "false"
  | JNull => js "null"
  end.

Fixpoint stringifyFields (obj : JObject) : jsstring :=
  match obj with
  | [] => []
  | [(k, v)] => quoteJSONString k ++ 58%N :: stringifyValue v
  | (k, v) :: r => quoteJSONString k ++ 58%N :: stringifyValue v ++ 44%N :: stringifyFields r
  end.

(** [JSON.stringify(obj)] *)
Definition JSON_stringify (obj : JObject) : jsstring :=
  123%N :: stringifyFields obj ++ [125%N].

(** A code unit that [btoa] does not accept and [JSON.stringify] does not
    escape: above 0xFF and not a surrogate. *)
Definition wide (c : N) : Prop :=
  (0xFF < c)%N ∧ ¬ (0xD800 ≤ c ≤ 0xDFFF)%N.

(** What [JSON.parse] returns when it does not throw: an object, [null], or
    a value ([true], a number, a string, an array) on which [.exp] reads
    [undefined]. *)
Inductive Parsed :=
  | ParsedObject (obj : JObject)
  | ParsedNull
  | ParsedOther.

(** *** Signing and verifying *)

(** What the two functions throw. *)
Inductive JwtError :=
  | InvalidCharacterError      (* from [btoa] or [atob] *)
  | SyntaxError                (* from [JSON.parse] *)
  | TypeError                  (* [payload.exp] on [null] *)
  | InvalidToken               (* 'Invalid token' *)
  | InvalidSignature           (* 'Invalid signature' *)
  | TokenExpired.              (* 'Token expired' *)

Definition orThrow {A} (e : JwtError) (o : option A) : JwtError + A :=
  match o with
  | Some a => inr a
  | None => inl e
  end.

Section WithPlatform.

(** The platform functions the helpers call: HMAC-SHA-256 of a message
    under a key ([crypto.subtle.sign]; [crypto.subtle.verify] compares the
    signature with it), [JSON.parse] ([None] when it throws), and the
    number a string converts to when compared with a number ([None] is
    [NaN]). *)
Variable hmacSha256 : list N → list N → list N.
Variable JSON_parse : jsstring → option Parsed.
Variable stringToNumber : jsstring → option Z.

(** [{ alg: 'HS256', typ: 'JWT' }] *)
Definition header : JObject :=
  [(js "alg", JStr (js "HS256")); (js "typ", JStr (js "JWT"))].

(** [jwtSign]; [now] is [Math.floor(Date.now() / 1000)].  The secret is
    taken not to be empty ([importKey] refuses an empty key; the handlers
    fall back to ['change-me']), and [now + expiresInSeconds] to be exact,
    as it is for safe integers. *)
Definition jwtSign (payload : JObject) (secret : jsstring)
    (expiresInSeconds now : Z) : JwtError + jsstring :=
  let fullPayload :=
    setField (js "exp") (JNum (now + expiresInSeconds))
      (setField (js "iat") (JNum now) payload) in
  match base64UrlEncode (JSON_stringify header) with
  | None => inl InvalidCharacterError
  | Some headerB64 =>
      match base64UrlEncode (JSON_stringify fullPayload) with
      | None => inl InvalidCharacterError
      | Some payloadB64 =>
          let signingInput := headerB64 ++ 46%N :: payloadB64 in
          let signature :=
            hmacSha256 (textEncode secret) (textEncode signingInput) in
          orThrow InvalidCharacterError
            ((λ sig, signingInput ++ 46%N :: sig) <$> base64UrlEncode signature)
      end
  end.

(** [payload.exp && payload.exp < now] *)
Definition expiredAt (now : Z) (exp : option JValue) : bool :=
  match exp with
  | Some (JNum e) => negb (e =? 0) && (e <? now)
  | Some (JBool true) => 1 <? now
  | Some (JStr (c :: r)) => from_option (λ e, e <? now) false (stringToNumber (c :: r))
  | _ => false
  end.

(** [textDecoder.decode(base64UrlDecode(payloadB64))], the text [jwtVerify]
    hands to [JSON.parse]; [None] when [atob] throws. *)
Definition payloadText (payloadB64 : jsstring) : option jsstring :=
  textDecode <$> base64UrlDecode payloadB64.

(** [jwtVerify]; [now] is [Math.floor(Date.now() / 1000)].  The secret is
    taken not to be empty, as for [jwtSign]. *)
Definition jwtVerify (token secret : jsstring) (now : Z) : JwtError + Parsed :=
  match splitOn 46 token with
  | [headerB64; payloadB64; signatureB64] =>
      let signingInput := headerB64 ++ 46%N :: payloadB64 in
      match base64UrlDecode signatureB64 with
      | None => inl InvalidCharacterError
      | Some signature =>
          if negb (bool_decide
               (hmacSha256 (textEncode secret) (textEncode signingInput) = signature))
          then inl InvalidSignature
          else
            match payloadText payloadB64 with
            | None => inl InvalidCharacterError
            | Some text =>
                match JSON_parse text with
                | None => inl SyntaxError
                | Some ParsedNull => inl TypeError
                | Some (ParsedObject obj) =>
                    if expiredAt now (getField (js "exp") obj) then inl TokenExpired
                    else inr (ParsedObject obj)
                | Some ParsedOther => inr ParsedOther
                end
            end
      end
  | _ => inl InvalidToken
  end.

End WithPlatform.

End Jwt.

(** ** The server, [server/index.js] *)

Module Server.

(** *** ObjectId

    The key of a document is a MongoDB [ObjectId]: twelve bytes, ordered as
    the big-endian number they spell, here that number.  The class comes
    from the driver; its three members the handler uses are modelled by
    what the driver documents for strings: [isValid] accepts the strings of
    24 hexadecimal digits, the constructor reads them, [toString] prints
    them in lower case. *)

Definition hexValue (c : N) : option N :=
  (if (48 <=? c) && (c <=? 57) then Some (c - 48)
   else if (97 <=? c) && (c <=? 102) then Some (c - 87)
   else if (65 <=? c) && (c <=? 70) then Some (c - 55)
   else None)%N.

Definition ObjectId_isValid (s : jsstring) : bool :=
  bool_decide (length s = 24%nat) && forallb (λ c, bool_decide (is_Some (hexValue c))) s.

(** [new ObjectId(s)]; [None] is the error it throws. *)
Definition ObjectId_parse (s : jsstring) : option N :=
  if ObjectId_isValid s then
    Some (foldl (λ acc c, 16 * acc + default 0 (hexValue c))%N 0%N s)
  else None.

Definition ObjectId_toString (v : N) : jsstring := hexDigits 24 v.

(** A document of the [gallery] collection. *)
Record Doc := mkDoc {
  _id : N;
  d_prompt : jsstring;
  d_metadata : option jsstring;
  d_chat_id : option jsstring;
  d_file_id : option jsstring;
  d_timestamp : Z;
}.

(** [toGalleryItem]; the empty object [{}] that stands in for a missing
    [metadata] is written as its JSON text. *)
Definition toGalleryItem (d : Doc) : Entry.t :=
  Entry.mk (ObjectId_toString (_id d)) (d_prompt d)
    (default (js "{}") (d_metadata d))
    (or_else (d_chat_id d) None) (or_else (d_file_id d) None)
    (d_timestamp d) None false.

(** What [jsonResponse] is called with. *)
Inductive Response :=
  | JsonError (status : Z) (message : jsstring)
  | JsonPage (items : list Entry.t) (hasMore : bool)
      (nextCursor : option jsstring) (limit : Z)
  | JsonList (items : list Entry.t)
  | JsonDeleted (deletedId : jsstring).

Definition status (r : Response) : Z :=
  match r with
  | JsonError st _ => st
  | _ => 200
  end.

(** The [limit] of a paginated read. *)
Definition effectiveLimit (limitRaw : option jsstring) : Z :=
  match parseInt10 (default [] limitRaw) with
  | Some parsedLimit =>
      if numberIsFinite parsedLimit then Z.max 1 (Z.min parsedLimit 200) else 60
  | None => 60
  end.

(** [cursorRaw.trim()], or [''] when the parameter is absent. *)
Definition trimmedCursor (cursorRaw : option jsstring) : jsstring :=
  from_option trim [] cursorRaw.

Definition wantsPagination (limitRaw cursorRaw : option jsstring) : bool :=
  bool_decide (is_Some limitRaw) || truthy (Some (trimmedCursor cursorRaw)).

(** The order of [sort({ _id: -1 })] and of [sort({ timestamp: -1 })]. *)
Definition idDesc (a b : Doc) : Prop := (_id b ≤ _id a)%N.
Definition timestampDesc (a b : Doc) : Prop := d_timestamp b ≤ d_timestamp a.

#[export] Instance idDesc_dec : RelDecision idDesc.
Proof. intros a b. unfold idDesc. apply _. Defined.
#[export] Instance timestampDesc_dec : RelDecision timestampDesc.
Proof. intros a b. unfold timestampDesc. apply _. Defined.

(** The order of the keys of documents sorted by [idDesc]. *)
Definition keyDesc (a b : N) : Prop := (b ≤ a)%N.

(** [find(query).sort({ _id: -1 }).limit(n).toArray()], the query being
    [{}] or [{ _id: { $lt: c } }]. *)
Definition findByIdDesc (below : option N) (n : nat) (collection : list Doc)
    : list Doc :=
  take n
    (merge_sort idDesc
       match below with
       | Some c => filter (λ d, (_id d < c)%N) collection
       | None => collection
       end).

(** [find({}).sort({ timestamp: -1 }).limit(200).toArray()] *)
Definition findByTimestampDesc (collection : list Doc) : list Doc :=
  take 200 (merge_sort timestampDesc collection).

(** The paginated read: one document more than the limit is fetched to
    know whether more remain.  [below] is the [ObjectId] of the cursor. *)
Definition pagedRead (collection : list Doc) (limit : Z) (below : option N)
    : Response :=
  let docs := findByIdDesc below (Z.to_nat (limit + 1)) collection in
  let hasMore := bool_decide (Z.of_nat (length docs) > limit) in
  let pageDocs := if hasMore then take (Z.to_nat limit) docs else docs in
  let items := toGalleryItem <$> pageDocs in
  let nextCursor :=
    if hasMore then (λ d, ObjectId_toString (_id d)) <$> last pageDocs
    else None in
  JsonPage items hasMore nextCursor limit.

(** The GET branch of [handleGallery], inside [withMongo]. *)
Definition handleGallery_get (collection : list Doc)
    (limitRaw cursorRaw : option jsstring) : Response :=
  let cursor := trimmedCursor cursorRaw in
  if wantsPagination limitRaw cursorRaw then
    let limit := effectiveLimit limitRaw in
    if truthy (Some cursor) then
      match ObjectId_parse cursor with
      | None => JsonError 400 (js "Invalid cursor")
      | Some c => pagedRead collection limit (Some c)
      end
    else pagedRead collection limit None
  else JsonList (toGalleryItem <$> findByTimestampDesc collection).

(** The DELETE branch of [handleGallery], inside [withMongo]: the reply and
    the collection after it.  [id] is [body?.id].  The message of the 500
    stands for [String(e)] of the error [new ObjectId(id)] throws. *)
Definition handleGallery_delete (collection : list Doc) (id : option jsstring)
    : Response * list Doc :=
  match id with
  | Some (c :: r) =>
      match ObjectId_parse (c :: r) with
      | None => (JsonError 500 (js "BSONError"), collection)
      | Some oid =>
          match list_find (λ d, _id d = oid) collection with
          | Some (i, _) => (JsonDeleted (c :: r), delete i collection)
          | None => (JsonError 404 (js "Not found"), collection)
          end
      end
  | _ => (JsonError 400 (js "Missing id"), collection)
  end.

(** A request to [/api/gallery], as far as [handleGallery] reads it. *)
Inductive Method := GET | DELETE | OtherMethod.

Record Request := mkRequest {
  method : Method;
  authorization : option jsstring;
  limitParam : option jsstring;
  cursorParam : option jsstring;
  bodyId : option jsstring;
}.

(** [(authorization || '').split(' ')[1]] *)
Definition bearerToken (authorization : option jsstring) : option jsstring :=
  splitOn 32 (default [] (or_else authorization None)) !! 1%nat.

(** The bindings [handleGallery] reads from [env]. *)
Record Env := mkEnv {
  JWT_SECRET : option jsstring;
  MONGO_URI : option jsstring;
}.

Section WithPlatform.

Variable hmacSha256 : list N → list N → list N.
Variable JSON_parse : jsstring → option Jwt.Parsed.
Variable stringToNumber : jsstring → option Z.

(** [handleGallery]; [now] is the time at which [jwtVerify] reads the
    clock, [collection] the documents [withMongo] finds. *)
Definition handleGallery (env : Env) (now : Z) (collection : list Doc)
    (request : Request) : Response * list Doc :=
  match method request with
  | OtherMethod => (JsonError 405 (js "Method Not Allowed"), collection)
  | m =>
      let auth := bearerToken (authorization request) in
      let SECRET := default (js "change-me") (or_else (JWT_SECRET env) None) in
      let verified :=
        match auth with
        | Some (c :: r) =>
            match Jwt.jwtVerify hmacSha256 JSON_parse stringToNumber (c :: r) SECRET now with
            | inr _ => true
            | inl _ => false
            end
        | _ => false
        end in
      if negb verified then (JsonError 401 (js "Unauthorized"), collection)
      else if negb (truthy (MONGO_URI env)) then
        (JsonError 500 (js "MONGO_URI not configured"), collection)
      else
        match m with
        | DELETE => handleGallery_delete collection (bodyId request)
        | _ =>
            (handleGallery_get collection (limitParam request) (cursorParam request),
             collection)
        end
  end.

End WithPlatform.

(** The reply as the client's [fetch] reads it. *)
Definition galleryBody (r : Response) : Gallery.Fetched Gallery.GalleryBody :=
  match r with
  | JsonError st m => Gallery.Responded st (Gallery.BodyObject (Some m) None false None)
  | JsonPage items more next _ =>
      Gallery.Responded 200 (Gallery.BodyObject None (Some items) more next)
  | JsonList items => Gallery.Responded 200 (Gallery.BodyArray items)
  | JsonDeleted _ => Gallery.Responded 200 (Gallery.BodyObject None None false None)
  end.

Definition deleteBody (r : Response) : Gallery.Fetched (option jsstring) :=
  match r with
  | JsonError st m => Gallery.Responded st (Some m)
  | _ => Gallery.Responded 200 None
  end.

(** The pagination source as the client sees it: [fetchGalleryPage(cursor,
    limit)] against a server holding [collection], for a request that
    passes the authorization and configuration checks. *)
Definition fetchPage (collection : list Doc) (cursor : option jsstring)
    (limit : nat) : Gallery.JsError + Page.t :=
  let q := Gallery.fetchGalleryPage_query cursor limit in
  Gallery.fetchGalleryPage_reply limit
    (galleryBody
       (handleGallery_get collection (Gallery.q_limit q) (Gallery.q_cursor q))).

(** What a fetched page shows: the ids of its items, [hasMore] and
    [nextCursor]; [None] when the fetch threw. *)
Definition pageSummary (r : Gallery.JsError + Page.t)
    : option (list jsstring * bool * option jsstring) :=
  match r with
  | inr p => Some (Gallery.ids (Page.items p), Page.hasMore p, Page.nextCursor p)
  | inl _ => None
  end.

End Server.

(** ** Tags and the masonry layout, [src/components/Gallery.vue] *)

Module Tags.

(** [prompt.replace(/[()]/g, '')] *)
Definition stripParens (s : jsstring) : jsstring :=
  filter (λ c, c ≠ 40%N ∧ c ≠ 41%N) s.

(** [parseTags]: the prompt without its parentheses is cut at the commas,
    the pieces are trimmed and the empty ones dropped. *)
Definition parseTags (prompt : option jsstring) : list jsstring :=
  if negb (truthy prompt) then []
  else
    filter (λ t, t ≠ [])
      (trim <$> splitOn 44 (stripParens (default [] prompt))).

(** One of the 64 entries of [tagColors]. *)
Record TagColor := mkTagColor {
  bg : jsstring;
  text : jsstring;
  border : jsstring;
}.

Definition color (b t d : string) : TagColor := mkTagColor (js b) (js t) (js d).

Definition tagColors : list TagColor :=
  [
   color "#e0f2fe" "#0c4a6e" "#7dd3fc"; color "#dbeafe" "#1e3a8a" "#93c5fd";
   color "#e0e7ff" "#3730a3" "#a5b4fc"; color "#e7e5e4" "#1c1917" "#a8a29e";
   color "#dfe9f3" "#1e40af" "#60a5fa"; color "#e1e8f0" "#1e3a8a" "#7dd3fc";
   color "#dbeafe" "#1e293b" "#94a3b8"; color "#e0f2fe" "#164e63" "#67e8f9";
   color "#ede9fe" "#5b21b6" "#c4b5fd"; color "#f3e8ff" "#6b21a8" "#d8b4fe";
   color "#f5f3ff" "#4c1d95" "#c4b5fd"; color "#fae8ff" "#86198f" "#f0abfc";
   color "#f3e8ff" "#581c87" "#e9d5ff"; color "#ede9fe" "#6d28d9" "#a78bfa";
   color "#f5f3ff" "#7c3aed" "#c4b5fd"; color "#fae8ff" "#a21caf" "#f0abfc";
   color "#fce7f3" "#9f1239" "#f9a8d4"; color "#fce7f3" "#831843" "#f9a8d4";
   color "#ffe4e6" "#9f1239" "#fda4af"; color "#fef2f2" "#991b1b" "#fca5a5";
   color "#fce7f3" "#be185d" "#f9a8d4"; color "#fff1f2" "#881337" "#fda4af";
   color "#fce7f3" "#9d174d" "#f472b6"; color "#ffe4e6" "#be123c" "#fb7185";
   color "#fed7aa" "#9a3412" "#fdba74"; color "#fee2e2" "#991b1b" "#fca5a5";
   color "#ffedd5" "#9a3412" "#fdba74"; color "#fef2f2" "#7f1d1d" "#fca5a5";
   color "#fff7ed" "#7c2d12" "#fed7aa"; color "#fef3c7" "#92400e" "#fcd34d";
   color "#fed7aa" "#c2410c" "#fb923c"; color "#fee2e2" "#b91c1c" "#f87171";
   color "#d1fae5" "#065f46" "#6ee7b7"; color "#f0fdf4" "#14532d" "#86efac";
   color "#dcfce7" "#166534" "#86efac"; color "#ecfdf5" "#065f46" "#6ee7b7";
   color "#d1fae5" "#047857" "#34d399"; color "#f0fdf4" "#15803d" "#4ade80";
   color "#dcfce7" "#166534" "#22c55e"; color "#ecfdf5" "#14532d" "#10b981";
   color "#cffafe" "#164e63" "#67e8f9"; color "#ecfeff" "#155e75" "#22d3ee";
   color "#e0f2fe" "#0c4a6e" "#38bdf8"; color "#cffafe" "#0e7490" "#06b6d4";
   color "#ecfeff" "#164e63" "#67e8f9"; color "#e0f2fe" "#075985" "#0ea5e9";
   color "#cffafe" "#155e75" "#22d3ee"; color "#f0f9ff" "#0c4a6e" "#38bdf8";
   color "#fef9c3" "#713f12" "#fde047"; color "#fefce8" "#713f12" "#fde047";
   color "#fef3c7" "#78350f" "#fcd34d"; color "#fef9c3" "#854d0e" "#facc15";
   color "#ecfccb" "#3f6212" "#bef264"; color "#fefce8" "#65a30d" "#a3e635";
   color "#f7fee7" "#1a2e05" "#84cc16"; color "#ecfccb" "#365314" "#a3e635";
   color "#f5f5f4" "#1c1917" "#a8a29e"; color "#fafaf9" "#292524" "#a8a29e";
   color "#f5f5f5" "#171717" "#a3a3a3"; color "#fafafa" "#262626" "#a3a3a3";
   color "#f8fafc" "#0f172a" "#94a3b8"; color "#f1f5f9" "#1e293b" "#94a3b8";
   color "#f9fafb" "#111827" "#9ca3af"; color "#f3f4f6" "#1f2937" "#9ca3af"
  ].

(** [getTagColor]: the code units of the tag are added up and the sum picks
    the colour; [None] is the [undefined] an index out of range reads. *)
Definition getTagColor (tag : jsstring) : option TagColor :=
  let hash := foldl (λ acc char, char + acc)%N 0%N tag in
  tagColors !! N.to_nat (hash mod N.of_nat (length tagColors)).

End Tags.

Module Layout.

(** [updateColumnCount]: the number of columns for a window width. *)
Definition updateColumnCount (width : Z) : nat :=
  if width <? 576 then 1%nat
  else if width <? 768 then 2%nat
  else if width <? 992 then 3%nat
  else if width <? 1200 then 4%nat
  else 5%nat.

(** [Math.min(...heights)]; [None] is the [Infinity] of no argument. *)
Definition minOf (heights : list nat) : option nat :=
  foldr (λ h m, Some (from_option (Nat.min h) h m)) None heights.

(** [heights.indexOf(m)]; [None] is [-1]. *)
Definition indexOf (m : option nat) (heights : list nat) : option nat :=
  m ≫= λ v, fst <$> list_find (λ h, h = v) heights.

(** One turn of the [forEach] of [columns]: the entry goes to the first of
    the shortest columns.  [None] is the [TypeError] of [cols[-1].push]. *)
Definition place {A} (st : option (list (list A) * list nat)) (entry : A)
    : option (list (list A) * list nat) :=
  st ≫= λ '(cols, heights),
    match indexOf (minOf heights) heights with
    | Some minIndex =>
        Some (alter (λ col, col ++ [entry]) minIndex cols, alter S minIndex heights)
    | None => None
    end.

(** [columns] *)
Definition columns {A} (columnCount : nat) (entries : list A)
    : option (list (list A)) :=
  fst <$> foldl place (Some (replicate columnCount [], replicate columnCount 0%nat))
            entries.

End Layout.

(** ** The viewer, [src/components/Gallery.vue] *)

Module Viewer.
Import Gallery.

(** [entries[selectedIndex]], the entry the template hands to the viewer
    and to [refreshSingleImage]; [None] is [undefined]. *)
Definition currentEntry (s : State) : option Entry.t :=
  if bool_decide (selectedIndex s < 0) then None
  else entries s !! Z.to_nat (selectedIndex s).

(** The selected index is [-1], the viewer being closed, or the index of an
    entry of the list. *)
Definition indexInRange (s : State) : Prop :=
  -1 ≤ selectedIndex s < Z.of_nat (length (entries s)).

End Viewer.

(** ** Two more invariants of the component *)

Module Tidy.
Import Gallery.

(** The selection holds no id twice, and no image load is under way
    between two handlers. *)
Definition tidy (s : State) : Prop :=
  NoDup (selectedEntryIds s) ∧ pendingImageLoads s = ∅.

(** What most handlers do to these two fields: the selection loses ids at
    most, the set of image loads is as before. *)
Definition quiet (s s' : State) : Prop :=
  selectedEntryIds s' `sublist_of` selectedEntryIds s
  ∧ pendingImageLoads s' = pendingImageLoads s.

End Tidy.

(** ** Image addresses *)

Module Images.
Import Gallery.

(** The address [loadEntryImage] gives the image of a file id; [None] when
    [encodeURIComponent] throws. *)
Definition canonicalUrl (fileId : jsstring) : option jsstring :=
  (λ enc, js "/api/fileurl?file_id=" ++ enc) <$> encodeURIComponent fileId.

(** An entry without an image address, or with the one of its file id. *)
Definition freshEntry (e : Entry.t) : Prop :=
  Entry.src e = None ∨ Entry.src e = Entry.file_id e ≫= canonicalUrl.

(** The image cache holds under a file id only the address of that file id. *)
Definition freshCache (s : State) : Prop :=
  ∀ fileId url, imageCache s !! fileId = Some url → canonicalUrl fileId = Some url.

Definition freshImages (s : State) : Prop :=
  freshCache s ∧ Forall freshEntry (entries s).

End Images.

(** ** A browsing session against the server *)

Module Session.
Import Gallery Server.

(** The server as the [fetch] of the component reaches it with a token
    that is accepted and a configured database: the reply of
    [handleGallery] to a GET with the query. *)
Definition serve (store : list Doc) (q : GalleryQuery) : Fetched GalleryBody :=
  galleryBody (handleGallery_get store (q_limit q) (q_cursor q)).

(** Mounting the component and then reaching the end of the list [k]
    times: [load()] followed by [k] calls of [loadMore()], every request
    being answered before the next handler runs, the store staying as it
    is. *)
Definition browse (store : list Doc) (k : nat) (s : State) : State :=
  Nat.iter k (loadMore (serve store))
    (load false false (serve store (fetchGalleryPage_query None PAGE_SIZE)) s).

End Session.

(** ** The other routes of the worker, [server/index.js] *)

Module Worker.
Import Server.

(** The bindings the worker reads from [env]. *)
Record Env := mkEnv {
  GALLERY_USER : option jsstring;
  GALLERY_PASS : option jsstring;
  JWT_SECRET : option jsstring;
  TURNSTILE_SECRET_KEY : option jsstring;
  MONGO_URI : option jsstring;
  BOT_TOKEN : option jsstring;
}.

(** The two bindings [handleGallery] reads. *)
Definition galleryEnv (env : Env) : Server.Env :=
  Server.mkEnv (JWT_SECRET env) (MONGO_URI env).

(** *** [/api/login] *)

(** A field of the JSON body of a login request, as far as [handleLogin]
    tells values apart: a string, or any other value (a number, a boolean,
    [null], an array, an object, or the [undefined] of a missing field) with
    its truthiness. *)
Inductive Field :=
  | FString (s : jsstring)
  | FOther (isTruthy : bool).

Definition fieldTruthy (f : Field) : bool :=
  match f with
  | FString s => truthy (Some s)
  | FOther b => b
  end.

(** [f === s] for a string [s] *)
Definition fieldIs (f : Field) (s : jsstring) : bool :=
  match f with
  | FString x => bool_decide (x = s)
  | FOther _ => false
  end.

(** [const { username, password, turnstileToken } = body] *)
Record LoginBody := mkLoginBody {
  username : Field;
  password : Field;
  turnstileToken : Field;
}.

(** The [{}] that stands in for a body that is not JSON. *)
Definition emptyBody : LoginBody :=
  mkLoginBody (FOther false) (FOther false) (FOther false).

(** A request to [/api/login], as far as [handleLogin] reads it.  The body
    is what [request.json()] gives: [None] when it rejects, [Some None] for
    the JSON text [null], whose destructuring throws, and the three fields
    otherwise. *)
Record LoginRequest := mkLoginRequest {
  isPost : bool;
  body : option (option LoginBody);
  cf_connecting_ip : option jsstring;
  x_forwarded_for : option jsstring;
}.

(** What [handleLogin] does: a JSON error, the token, or an exception that
    leaves the handler. *)
Inductive LoginResult :=
  | LoginError (status : Z) (message : jsstring)
  | LoginToken (token : jsstring)
  | LoginThrows.

(** '人机验证失败，请重试' and '用户名或密码错误' *)
Definition turnstileFailedMessage : jsstring :=
  [0x4EBA; 0x673A; 0x9A8C; 0x8BC1; 0x5931; 0x8D25; 0xFF0C; 0x8BF7; 0x91CD;
   0x8BD5]%N.
Definition badCredentialsMessage : jsstring :=
  [0x7528; 0x6237; 0x540D; 0x6216; 0x5BC6; 0x7801; 0x9519; 0x8BEF]%N.

(** [cf-connecting-ip || x-forwarded-for?.split(',')[0] || ''] *)
Definition clientIp (request : LoginRequest) : jsstring :=
  default []
    (or_else (cf_connecting_ip request)
       (or_else (x_forwarded_for request ≫= λ x, head (splitOn 44 x))
          (Some []))).

Section WithPlatform.

(** The platform functions as in [Jwt], and the call to the Turnstile
    service: for the secret, the token and the address sent, the
    truthiness of [data.success], or [None] when [fetch], [json()] or the
    field access throws. *)
Variable hmacSha256 : list N → list N → list N.
Variable siteverify : jsstring → Field → jsstring → option bool.

(** [verifyTurnstileToken]; [None] is an exception. *)
Definition verifyTurnstileToken (token : Field) (ip : jsstring)
    (secretKey : option jsstring) : option bool :=
  if negb (truthy secretKey) then Some true
  else siteverify (default [] secretKey) token ip.

(** [handleLogin]; [now] is the time at which [jwtSign] reads the clock. *)
Definition handleLogin (env : Env) (now : Z) (request : LoginRequest)
    : LoginResult :=
  if negb (isPost request) then LoginError 405 (js "Method Not Allowed")
  else
    match body request with
    | Some None => LoginThrows
    | parsed =>
        let fields := default emptyBody (parsed ≫= id) in
        let USER := default (js "admin") (or_else (GALLERY_USER env) None) in
        let PASS := default (js "password") (or_else (GALLERY_PASS env) None) in
        let SECRET := default (js "change-me") (or_else (JWT_SECRET env) None) in
        let checked :=
          if fieldTruthy (turnstileToken fields) then
            verifyTurnstileToken (turnstileToken fields) (clientIp request)
              (TURNSTILE_SECRET_KEY env)
          else Some true in
        match checked with
        | None => LoginThrows
        | Some false => LoginError 403 turnstileFailedMessage
        | Some true =>
            if negb (fieldTruthy (username fields))
               || negb (fieldTruthy (password fields))
               || negb (fieldIs (username fields) USER)
               || negb (fieldIs (password fields) PASS)
            then LoginError 401 badCredentialsMessage
            else
              (* [username] is [USER] here *)
              match Jwt.jwtSign hmacSha256 [(js "user", Jwt.JStr USER)] SECRET
                      (365 * 24 * 3600) now with
              | inr token => LoginToken token
              | inl _ => LoginThrows
              end
        end
    end.

End WithPlatform.

(** *** [/api/fileurl] *)

Definition TELEGRAM_OFFICIAL : jsstring := js "https://api.telegram.org".
Definition TELEGRAM_PROXY : jsstring := js "https://tgapi.kairod.cfd".

(** [buildUrlFromFilePath] *)
Definition buildUrlFromFilePath (botToken : jsstring) (filePath : option jsstring)
    (useProxy : bool) : option jsstring :=
  if negb (truthy filePath) then None
  else if useProxy then
    Some (TELEGRAM_PROXY ++ js "/file/bot" ++ botToken ++ js "/"
          ++ default [] filePath)
  else
    Some (TELEGRAM_OFFICIAL ++ js "/file/bot" ++ botToken ++ js "/"
          ++ default [] filePath).

(** What [handleFileUrl] answers: the image it fetched, with its content
    type, or a JSON error. *)
Inductive FileResponse (B : Type) :=
  | FileImage (contentType : jsstring) (imageBody : B)
  | FileError (status : Z) (message : jsstring).
Arguments FileImage {B} contentType imageBody.
Arguments FileError {B} status message.

Section WithNetwork.

Context {B : Type}.

(** What the handler gets from outside: the [telegram.bot_token] of the
    document [findOne] finds for a file id, when the lookup gets that far;
    the [result.file_path] of the JSON a [getFile] address answers with,
    when the request and every test on the reply pass; and the content type
    and body of the reply to an image address, when the request passes and
    the reply is [ok]. *)
Variable findBotToken : jsstring → option jsstring.
Variable getFile : jsstring → option jsstring.
Variable fetchImage : jsstring → option (option jsstring * B).

(** One of the two [try] blocks of [handleFileUrl]: the image, when the
    block returns one, and the addresses it fetched. *)
Definition tryTelegram (base : jsstring) (useProxy : bool)
    (botToken file_id : jsstring) : option (jsstring * B) * list jsstring :=
  match encodeURIComponent file_id with
  | None => (None, [])
  | Some enc =>
      let getFileUrl :=
        base ++ js "/bot" ++ botToken ++ js "/getFile?file_id=" ++ enc in
      match getFile getFileUrl with
      | Some (c :: r) =>
          match buildUrlFromFilePath botToken (Some (c :: r)) useProxy with
          | Some urlDirect =>
              match fetchImage urlDirect with
              | Some (contentType, imageBody) =>
                  (Some (default (js "image/jpeg") (or_else contentType None),
                         imageBody),
                   [getFileUrl; urlDirect])
              | None => (None, [getFileUrl; urlDirect])
              end
          | None => (None, [getFileUrl])
          end
      | _ => (None, [getFileUrl])
      end
  end.

(** The [botToken] of [handleFileUrl]: the one of the document when the
    database is configured and the lookup gives one, the binding
    otherwise; [None] is [null]. *)
Definition resolveBotToken (env : Env) (fileId : jsstring) : option jsstring :=
  let fromEnv := or_else (BOT_TOKEN env) None in
  if truthy (MONGO_URI env) then
    if truthy (findBotToken fileId) then findBotToken fileId else fromEnv
  else fromEnv.

(** [handleFileUrl]: the answer and the addresses fetched, in order;
    [file_id] is the query parameter. *)
Definition handleFileUrl (env : Env) (file_id : option jsstring)
    : FileResponse B * list jsstring :=
  match file_id with
  | Some (c :: r) =>
      let fileId := c :: r in
      match resolveBotToken env fileId with
      | Some (t :: ts) =>
          let token := t :: ts in
          match tryTelegram TELEGRAM_OFFICIAL false token fileId with
          | (Some (contentType, imageBody), fetched) =>
              (FileImage contentType imageBody, fetched)
          | (None, fetched) =>
              match tryTelegram TELEGRAM_PROXY true token fileId with
              | (Some (contentType, imageBody), fetched') =>
                  (FileImage contentType imageBody, fetched ++ fetched')
              | (None, fetched') =>
                  (FileError 502 (js "Failed to retrieve file URL"),
                   fetched ++ fetched')
              end
          end
      | _ => (FileError 500 (js "No bot token available"), [])
      end
  | _ => (FileError 400 (js "file_id required"), [])
  end.

End WithNetwork.

(** The status of the answer. *)
Definition fileStatus {B} (r : FileResponse B) : Z :=
  match r with
  | FileImage _ _ => 200
  | FileError status _ => status
  end.

End Worker.

(** ** The login form, [src/components/Login.vue] *)

Module LoginForm.

(** The refs of the form, and what it leaves behind: whether the Turnstile
    widget is there to be reset ([window.turnstile] with a widget id), the
    [gallery_token] of localStorage, and whether [login] was emitted. *)
Record State := mkState {
  username : jsstring;
  password : jsstring;
  error : jsstring;
  turnstileToken : jsstring;
  widgetRendered : bool;
  gallery_token : option jsstring;
  loginEmitted : bool;
}.

(** '请完成人机验证' and '登录失败' *)
Definition verifyFirstMessage : jsstring :=
  [0x8BF7; 0x5B8C; 0x6210; 0x4EBA; 0x673A; 0x9A8C; 0x8BC1]%N.
Definition loginFailedMessage : jsstring :=
  [0x767B; 0x5F55; 0x5931; 0x8D25]%N.

Definition set_error (v : jsstring) (s : State) : State :=
  mkState (username s) (password s) v (turnstileToken s) (widgetRendered s)
    (gallery_token s) (loginEmitted s).

(** The reset of the widget after a failed attempt. *)
Definition resetTurnstile (s : State) : State :=
  if widgetRendered s then
    mkState (username s) (password s) (error s) [] (widgetRendered s)
      (gallery_token s) (loginEmitted s)
  else s.

(** The JSON object a reply carries, by its fields [error] and [token]. *)
Record Reply := mkReply {
  r_error : option jsstring;
  r_token : option jsstring;
}.

(** [submit], up to its [await]: [None] when it returns at the test of the
    Turnstile token, otherwise the body it posts to [/api/login]. *)
Definition submit_begin (s : State) : State * option Worker.LoginBody :=
  let s1 := set_error [] s in
  if negb (truthy (Some (turnstileToken s1))) then
    (set_error verifyFirstMessage s1, None)
  else
    (s1, Some (Worker.mkLoginBody (Worker.FString (username s1))
                 (Worker.FString (password s1))
                 (Worker.FString (turnstileToken s1)))).

(** [submit], after its [await]s.  A rejection is what the [catch] gets:
    the error of [fetch] or of [resp.json()], or the [TypeError] of reading
    a field of a reply that is [null].  [localStorage.setItem] stores the
    string of its argument, ['undefined'] for a reply without [token]. *)
Definition submit_settle (reply : Gallery.Fetched Reply) (s : State) : State :=
  match reply with
  | Gallery.Rejected e => resetTurnstile (set_error (Gallery.errorToString e) s)
  | Gallery.Responded status j =>
      if negb (Gallery.statusOk status) then
        resetTurnstile
          (set_error (default loginFailedMessage (or_else (r_error j) None)) s)
      else
        mkState (username s) (password s) (error s) (turnstileToken s)
          (widgetRendered s) (Some (default (js "undefined") (r_token j))) true
  end.


End LoginForm.

(** ** Small scenarios *)

Module Scenario.
Import Gallery.

Open Scope string_scope.

(** An entry that has only an id. *)
Definition entryOf (i : string) : Entry.t :=
  Entry.mk (js i) [] [] None None 0 None false.

(** The component showing the entries with the given ids, the second list
    being the selection. *)
Definition showing (visible selected : list string) : State :=
  set_selectedEntryIds (js <$> selected)
    (set_entries (entryOf <$> visible) (initialState None ∅)).

(** A reply to a DELETE that says the id is gone: the 404 of
    [handleGallery]. *)
Definition notFound : Fetched (option jsstring) :=
  Responded 404 (Some (js "Not found")).

(** A reply to a DELETE that succeeded. *)
Definition deleted : Fetched (option jsstring) := Responded 200 None.

(** A store of documents that have only a key. *)
Definition docOf (n : N) : Server.Doc := Server.mkDoc n [] None None None 0.

End Scenario.

(** * Properties *)

(** ** The gallery client *)

Module GalleryFacts.
Import Gallery.

(** *** What the image queue leaves alone *)

Lemma with_image_id e src l : Entry.id (Entry.with_image e src l) = Entry.id e.
Proof. reflexivity. Qed.

Lemma with_image_server_part e src l :
  Entry.server_part (Entry.with_image e src l) = Entry.server_part e.
Proof. reflexivity. Qed.

Lemma buildEntryWithCache_id e ex c f :
  Entry.id (buildEntryWithCache e ex c f) = Entry.id e.
Proof. reflexivity. Qed.

Lemma buildEntryWithCache_server_part e ex c f :
  Entry.server_part (buildEntryWithCache e ex c f) = Entry.server_part e.
Proof. reflexivity. Qed.

(** The fields of the state that only the list and deletion handlers
    write. *)
Record sameCore (s s' : State) : Prop := {
  core_entries : entries s' = entries s;
  core_selected : selectedEntryIds s' = selectedEntryIds s;
  core_pending : pendingDeleteIds s' = pendingDeleteIds s;
  core_listCache : listCache s' = listCache s;
  core_cursor : paginationCursor s' = paginationCursor s;
  core_hasMore : hasMore s' = hasMore s;
  core_loading : loading s' = loading s;
  core_loadingMore : loadingMore s' = loadingMore s;
}.

Lemma sameCore_refl s : sameCore s s.
Proof. by split. Qed.

Lemma sameCore_trans s1 s2 s3 : sameCore s1 s2 → sameCore s2 s3 → sameCore s1 s3.
Proof. intros [] []. split; congruence. Qed.

Lemma loadEntryImage_spec e s :
  Entry.server_part (loadEntryImage e s).1 = Entry.server_part e
  ∧ sameCore s (loadEntryImage e s).2.
Proof.
  unfold loadEntryImage.
  destruct (Entry.file_id e) as [fileId|]; [|by split; [|apply sameCore_refl]].
  repeat case_match; simplify_eq/=; split; try done; try apply sameCore_refl.
  all: by split.
Qed.

Lemma queueImageLoads_spec l s :
  Entry.server_part <$> (queueImageLoads l s).1 = Entry.server_part <$> l
  ∧ sameCore s (queueImageLoads l s).2.
Proof.
  revert s. induction l as [|e l IH]; intros s; simpl.
  { split; [done | apply sameCore_refl]. }
  set (r := if negb (truthy (Entry.file_id e)) then (e, s)
            else if truthy (Entry.src e) && negb (Entry.loading e) then (e, s)
            else loadEntryImage e s).
  assert (Hr : Entry.server_part r.1 = Entry.server_part e ∧ sameCore s r.2).
  { subst r. repeat case_match; simpl; try (split; [done | apply sameCore_refl]).
    apply loadEntryImage_spec. }
  destruct r as [e' s1]. simpl in Hr. destruct Hr as [He Hs].
  destruct (IH s1) as [IH1 IH2].
  destruct (queueImageLoads l s1) as [rest' s2]. simpl in *.
  split; [exact (f_equal2 cons He IH1) | by eapply sameCore_trans].
Qed.

Lemma server_part_ids l l' :
  Entry.server_part <$> l' = Entry.server_part <$> l → ids l' = ids l.
Proof.
  intros H. unfold ids.
  assert (E : ∀ x : list Entry.t,
             Entry.id <$> x = Entry.id <$> (Entry.server_part <$> x)).
  { intros x. rewrite <- list_fmap_compose. by apply list_fmap_ext. }
  by rewrite (E l'), (E l), H.
Qed.

Lemma queueImageLoads_ids l s : ids (queueImageLoads l s).1 = ids l.
Proof. apply server_part_ids, queueImageLoads_spec. Qed.

Lemma queueImageLoads_entries_server_part s :
  Entry.server_part <$> entries (queueImageLoads_entries s)
  = Entry.server_part <$> entries s.
Proof.
  unfold queueImageLoads_entries.
  pose proof (queueImageLoads_spec (entries s) s) as [H _].
  by destruct (queueImageLoads (entries s) s).
Qed.

Lemma queueImageLoads_entries_ids s :
  ids (entries (queueImageLoads_entries s)) = ids (entries s).
Proof. apply server_part_ids, queueImageLoads_entries_server_part. Qed.

Lemma queueImageLoads_entries_frame s :
  selectedEntryIds (queueImageLoads_entries s) = selectedEntryIds s
  ∧ pendingDeleteIds (queueImageLoads_entries s) = pendingDeleteIds s
  ∧ listCache (queueImageLoads_entries s) = listCache s
  ∧ paginationCursor (queueImageLoads_entries s) = paginationCursor s
  ∧ hasMore (queueImageLoads_entries s) = hasMore s.
Proof.
  unfold queueImageLoads_entries.
  pose proof (queueImageLoads_spec (entries s) s) as [_ []].
  by destruct (queueImageLoads (entries s) s).
Qed.

(** *** Resynchronising the selection *)

Lemma syncSelectionWithEntries_visible s :
  selectionVisible (syncSelectionWithEntries s).
Proof.
  intros i. unfold syncSelectionWithEntries. simpl.
  rewrite list_elem_of_filter, elem_of_list_to_set. tauto.
Qed.

Lemma syncSelectionWithEntries_subset s i :
  i ∈ selectedEntryIds (syncSelectionWithEntries s) → i ∈ selectedEntryIds s.
Proof.
  unfold syncSelectionWithEntries. simpl. rewrite list_elem_of_filter. tauto.
Qed.

(** *** Ids of sublists *)

Lemma elem_of_ids i l : i ∈ ids l ↔ ∃ e, e ∈ l ∧ Entry.id e = i.
Proof. unfold ids. rewrite list_elem_of_fmap. naive_solver. Qed.

#[local] Instance ids_Permutation : Proper ((≡ₚ) ==> (≡ₚ)) ids.
Proof. intros l k H. unfold ids. by rewrite H. Qed.

Lemma ids_app l k : ids (l ++ k) = ids l ++ ids k.
Proof. apply fmap_app. Qed.

Lemma ids_sublist l1 l2 : l1 `sublist_of` l2 → ids l1 `sublist_of` ids l2.
Proof. intros H. unfold ids. by apply fmap_sublist. Qed.

Lemma ids_sublist' (l1 l2 : list Entry.t) :
  (Entry.server_part <$> l1) `sublist_of` (Entry.server_part <$> l2) →
  ids l1 `sublist_of` ids l2.
Proof.
  intros H.
  assert (E : ∀ x : list Entry.t, ids x = Entry.id <$> (Entry.server_part <$> x)).
  { intros x. unfold ids. rewrite <- list_fmap_compose. by apply list_fmap_ext. }
  rewrite (E l1), (E l2). by apply fmap_sublist.
Qed.

Lemma NoDup_ids_sublist l1 l2 :
  l1 `sublist_of` l2 → NoDup (ids l2) → NoDup (ids l1).
Proof. intros H ?. eapply sublist_NoDup; [done | by apply ids_sublist]. Qed.

Lemma ids_filter P `{!∀ e : Entry.t, Decision (P e)} l i :
  i ∈ ids (filter P l) ↔ ∃ e, e ∈ l ∧ P e ∧ Entry.id e = i.
Proof. rewrite elem_of_ids. setoid_rewrite list_elem_of_filter. naive_solver. Qed.

Lemma ids_visibleOnly pending l i :
  i ∈ ids (visibleOnly pending l) ↔ i ∈ ids l ∧ i ∉ pending.
Proof.
  unfold visibleOnly. rewrite ids_filter, elem_of_ids. naive_solver.
Qed.

Lemma visibleOnly_all (pending : gset jsstring) (l : list Entry.t) :
  (∀ e, e ∈ l → Entry.id e ∉ pending) → visibleOnly pending l = l.
Proof.
  unfold visibleOnly. induction l as [|e l IH]; intros H; [done|].
  rewrite filter_cons_True by (apply H; left).
  f_equal. apply IH. intros x Hx. apply H. by right.
Qed.

Lemma ids_fmap_build (f : Entry.t → Entry.t) l :
  (∀ e, Entry.id (f e) = Entry.id e) → ids (f <$> l) = ids l.
Proof.
  intros H. unfold ids. rewrite <- list_fmap_compose.
  apply list_fmap_ext. intros ? e ?. apply H.
Qed.

(** *** Hiding and restoring one entry *)

Lemma hide_found s i idx e :
  list_find (λ x, Entry.id x = i) (entries s) = Some (idx, e) →
  entries (hideEntryOptimistically i s).1 = delete idx (entries s)
  ∧ pendingDeleteIds (hideEntryOptimistically i s).1 = {[i]} ∪ pendingDeleteIds s
  ∧ listCache (hideEntryOptimistically i s).1 = listCache s
  ∧ (hideEntryOptimistically i s).2 = Some (mkSnapshot e idx).
Proof.
  intros H. unfold hideEntryOptimistically. rewrite H. simpl.
  repeat case_bool_decide; done.
Qed.

Lemma hide_not_found s i :
  list_find (λ x, Entry.id x = i) (entries s) = None →
  hideEntryOptimistically i s = (s, None).
Proof. intros H. unfold hideEntryOptimistically. by rewrite H. Qed.

Lemma hide_selection s i j :
  j ∈ selectedEntryIds (hideEntryOptimistically i s).1 → j ∈ selectedEntryIds s.
Proof.
  unfold hideEntryOptimistically.
  destruct (list_find _ _) as [[idx e]|]; simpl; [|done].
  rewrite list_elem_of_filter. intros [_ H]. revert H.
  repeat case_bool_decide; done.
Qed.

Lemma restore_absent s snap :
  ¬ Exists (λ x, Entry.id x = Entry.id (snap_entry snap)) (entries s) →
  entries (restoreHiddenEntry (Some snap) s)
  = spliceInsert (Nat.min (snap_index snap) (length (entries s)))
      (snap_entry snap) (entries s)
  ∧ pendingDeleteIds (restoreHiddenEntry (Some snap) s)
    = pendingDeleteIds s ∖ {[Entry.id (snap_entry snap)]}
  ∧ listCache (restoreHiddenEntry (Some snap) s) = listCache s.
Proof.
  intros H. unfold restoreHiddenEntry. simpl.
  rewrite bool_decide_eq_false_2 by done. simpl.
  repeat case_bool_decide; done.
Qed.

Lemma restore_present s snap :
  Exists (λ x, Entry.id x = Entry.id (snap_entry snap)) (entries s) →
  entries (restoreHiddenEntry (Some snap) s) = entries s
  ∧ pendingDeleteIds (restoreHiddenEntry (Some snap) s)
    = pendingDeleteIds s ∖ {[Entry.id (snap_entry snap)]}
  ∧ listCache (restoreHiddenEntry (Some snap) s) = listCache s.
Proof.
  intros H. unfold restoreHiddenEntry. simpl.
  by rewrite bool_decide_eq_true_2 by done.
Qed.

Lemma spliceInsert_delete {A} (l : list A) i x :
  l !! i = Some x →
  spliceInsert (Nat.min i (length (delete i l))) x (delete i l) = l.
Proof.
  intros H. pose proof (lookup_lt_Some _ _ _ H) as Hlt.
  rewrite length_delete by eauto.
  replace (Nat.min i (length l - 1)) with i by lia.
  unfold spliceInsert. rewrite delete_take_drop.
  rewrite take_app_le, drop_app_ge by (rewrite length_take; lia).
  rewrite take_take, length_take.
  replace (i `min` i)%nat with i by lia.
  replace (i - i `min` length l)%nat with 0%nat by lia.
  simpl. by apply take_drop_middle.
Qed.

Lemma spliceInsert_Permutation {A} k (x : A) l : spliceInsert k x l ≡ₚ x :: l.
Proof.
  unfold spliceInsert. rewrite <- Permutation_middle. by rewrite take_drop.
Qed.

Lemma Exists_id i l : Exists (λ x, Entry.id x = i) l ↔ i ∈ ids l.
Proof. rewrite Exists_exists, elem_of_ids. done. Qed.

Lemma find_by_id l i e :
  NoDup (ids l) → l !! i = Some e →
  list_find (λ x, Entry.id x = Entry.id e) l = Some (i, e).
Proof.
  intros Hnd Hi. apply list_find_Some. split_and!; [done..|].
  intros j y Hj Hlt Heq.
  assert (j = i); [|lia].
  apply (NoDup_lookup (ids l) j i (Entry.id e) Hnd); unfold ids;
    rewrite list_lookup_fmap.
  - rewrite Hj. simpl. by rewrite Heq.
  - by rewrite Hi.
Qed.

Lemma id_not_in_delete l i e :
  NoDup (ids l) → l !! i = Some e → Entry.id e ∉ ids (delete i l).
Proof.
  intros Hnd Hi.
  assert (ids l ≡ₚ Entry.id e :: ids (delete i l)) as Hp.
  { unfold ids. rewrite (delete_Permutation l i e) at 1 by done. by rewrite fmap_cons. }
  rewrite Hp in Hnd. by apply NoDup_cons in Hnd as [? _].
Qed.

(** *** Merging the top page *)

Lemma syncSelectionWithEntries_frame s :
  entries (syncSelectionWithEntries s) = entries s
  ∧ pendingDeleteIds (syncSelectionWithEntries s) = pendingDeleteIds s
  ∧ listCache (syncSelectionWithEntries s) = listCache s
  ∧ paginationCursor (syncSelectionWithEntries s) = paginationCursor s
  ∧ hasMore (syncSelectionWithEntries s) = hasMore s.
Proof. done. Qed.

Lemma server_part_build (f : Entry.t → Entry.t) (l : list Entry.t) :
  (∀ e, Entry.server_part (f e) = Entry.server_part e) →
  Entry.server_part <$> (f <$> l) = Entry.server_part <$> l.
Proof.
  intros H. rewrite <- list_fmap_compose.
  apply list_fmap_ext. intros ? e ?. apply H.
Qed.

(** The list after [mergeTopPage], up to the image fields: the visible
    part of the page, followed, when the tail is kept, by the entries that
    were there and whose id is not in that part. *)
Lemma mergeTopPage_entries items fir keep s :
  let visible := visibleOnly (pendingDeleteIds s) items in
  Entry.server_part <$> entries (mergeTopPage items fir keep s)
  = Entry.server_part <$>
      (visible ++ if keep
                  then filter (λ e, Entry.id e ∉ ids visible) (entries s)
                  else []).
Proof.
  intros visible. unfold mergeTopPage. fold visible.
  destruct (syncSelectionWithEntries_frame
    (queueImageLoads_entries (setGalleryListCache visible
      (if keep
       then set_entries
         (((λ entry, buildEntryWithCache entry
              (existingById (entries s) !! Entry.id entry)
              (if fir then ∅ else imageCache s) fir) <$> visible)
          ++ filter (λ entry, Entry.id entry ∉
               (list_to_set (ids ((λ entry, buildEntryWithCache entry
                  (existingById (entries s) !! Entry.id entry)
                  (if fir then ∅ else imageCache s) fir) <$> visible))
                : gset jsstring)) (entries s)) s
       else set_entries
         ((λ entry, buildEntryWithCache entry
              (existingById (entries s) !! Entry.id entry)
              (if fir then ∅ else imageCache s) fir) <$> visible) s))))
    as (-> & _).
  rewrite queueImageLoads_entries_server_part.
  destruct keep; simpl.
  - rewrite !fmap_app. f_equal; [by apply server_part_build|].
    f_equal. apply list_filter_iff. intros e.
    rewrite elem_of_list_to_set, ids_fmap_build by done. done.
  - rewrite app_nil_r. by apply server_part_build.
Qed.

Lemma mergeTopPage_ids items fir keep s :
  let visible := visibleOnly (pendingDeleteIds s) items in
  ids (entries (mergeTopPage items fir keep s))
  = ids visible ++ if keep
                   then ids (filter (λ e, Entry.id e ∉ ids visible) (entries s))
                   else [].
Proof.
  intros visible.
  rewrite (server_part_ids _ _ (mergeTopPage_entries items fir keep s)).
  fold visible. rewrite ids_app. by destruct keep.
Qed.

Lemma mergeTopPage_frame items fir keep s :
  pendingDeleteIds (mergeTopPage items fir keep s) = pendingDeleteIds s
  ∧ listCache (mergeTopPage items fir keep s)
    = Some (take PAGE_SIZE (visibleOnly (pendingDeleteIds s) items))
  ∧ paginationCursor (mergeTopPage items fir keep s) = paginationCursor s
  ∧ hasMore (mergeTopPage items fir keep s) = hasMore s
  ∧ selectionVisible (mergeTopPage items fir keep s).
Proof.
  unfold mergeTopPage.
  match goal with |- context [syncSelectionWithEntries ?x] => set (q := x) end.
  pose proof (syncSelectionWithEntries_visible q) as Hv.
  destruct (syncSelectionWithEntries_frame q) as (_ & -> & -> & -> & ->).
  subst q.
  match goal with |- context [queueImageLoads_entries ?x] =>
    destruct (queueImageLoads_entries_frame x) as (_ & -> & -> & -> & ->) end.
  by destruct keep.
Qed.

(** *** Appending the next page *)

Lemma appendNew_eq (cache : gmap jsstring jsstring) (acc : list Entry.t)
    (seen : gset jsstring) (e : Entry.t) :
  appendNew cache (acc, seen) e
  = if bool_decide (Entry.id e ∈ seen) then (acc, seen)
    else (acc ++ [buildEntryWithCache e None cache false], {[Entry.id e]} ∪ seen).
Proof. reflexivity. Qed.

Lemma appendNew_fold cache items : ∀ app (seen : gset jsstring),
  ∃ new,
    (foldl (appendNew cache) (app, seen) items).1 = app ++ new
    ∧ (foldl (appendNew cache) (app, seen) items).2 = seen ∪ list_to_set (ids new)
    ∧ NoDup (ids new)
    ∧ (∀ i, i ∈ ids new → i ∉ seen)
    ∧ (Entry.server_part <$> new) `sublist_of` (Entry.server_part <$> items).
Proof.
  induction items as [|e items IH]; intros app seen; simpl.
  { exists []. rewrite app_nil_r. simpl.
    split_and!; [done | set_solver | apply NoDup_nil_2 | set_solver | done]. }
  rewrite appendNew_eq. case_bool_decide as Hin.
  - destruct (IH app seen) as (new & H1 & H2 & H3 & H4 & H5).
    exists new. split_and!; try done. by apply sublist_cons.
  - destruct (IH (app ++ [buildEntryWithCache e None cache false])
                 ({[Entry.id e]} ∪ seen)) as (new & H1 & H2 & H3 & H4 & H5).
    exists (buildEntryWithCache e None cache false :: new).
    split_and!.
    + by rewrite H1, <- app_assoc.
    + rewrite H2. simpl. set_solver.
    + simpl. apply NoDup_cons. split; [|done].
      intros Hx. apply H4 in Hx. set_solver.
    + intros i. simpl. rewrite elem_of_cons. intros [->|Hi]; [done|].
      apply H4 in Hi. set_solver.
    + simpl. by apply sublist_skip.
Qed.

(** The entries [loadMore] appends: their ids are new, distinct and not
    pending, and every new visible id of the page is among them. *)
Lemma appendedEntries_spec page s :
  NoDup (ids (appendedEntries page s))
  ∧ (∀ i, i ∈ ids (appendedEntries page s) →
       (i ∉ ids (entries s)) ∧ (i ∉ pendingDeleteIds s)
       ∧ i ∈ ids (Page.items page))
  ∧ (∀ i, i ∈ ids (Page.items page) → i ∉ pendingDeleteIds s →
       i ∉ ids (entries s) → i ∈ ids (appendedEntries page s)).
Proof.
  unfold appendedEntries.
  destruct (appendNew_fold (imageCache s)
    (visibleOnly (pendingDeleteIds s) (Page.items page)) []
    (list_to_set (ids (entries s)))) as (new & H1 & H2 & H3 & H4 & H5).
  rewrite H1. simpl.
  assert (Hsub : ∀ i, i ∈ ids new →
            i ∈ ids (visibleOnly (pendingDeleteIds s) (Page.items page))).
  { intros i Hi. apply ids_sublist' in H5. eapply elem_of_sublist; [|exact H5].
    done. }
  split_and!; [done | |].
  - intros i Hi. pose proof (Hsub i Hi) as Hv. apply ids_visibleOnly in Hv.
    apply H4 in Hi. rewrite elem_of_list_to_set in Hi. tauto.
  - intros i Hp Hnp Hne.
    assert (Hall : ∀ l app seen e, e ∈ l →
      Entry.id e ∈ (foldl (appendNew (imageCache s)) (app, seen) l).2).
    { clear. induction l as [|x l IH]; intros app seen e; [by rewrite elem_of_nil|].
      rewrite elem_of_cons. simpl. intros [->|Hin];
        [|destruct (appendNew (imageCache s) (app, seen) x); by apply IH].
      rewrite appendNew_eq. case_bool_decide.
      - destruct (appendNew_fold (imageCache s) l app seen) as (? & _ & -> & _).
        set_solver.
      - destruct (appendNew_fold (imageCache s) l
          (app ++ [buildEntryWithCache x None (imageCache s) false])
          ({[Entry.id x]} ∪ seen)) as (? & _ & -> & _).
        set_solver. }
    assert (Hv : i ∈ ids (visibleOnly (pendingDeleteIds s) (Page.items page)))
      by by apply ids_visibleOnly.
    apply elem_of_ids in Hv as (e & He & <-).
    specialize (Hall _ [] (list_to_set (ids (entries s))) e He).
    rewrite H2 in Hall. set_solver.
Qed.

Lemma loadMore_settle_page page s :
  ∃ appended,
    Entry.server_part <$> appended = Entry.server_part <$> appendedEntries page s
    ∧ entries (loadMore_settle (inr page) s) = entries s ++ appended
    ∧ pendingDeleteIds (loadMore_settle (inr page) s) = pendingDeleteIds s
    ∧ listCache (loadMore_settle (inr page) s) = listCache s
    ∧ paginationCursor (loadMore_settle (inr page) s) = Page.nextCursor page
    ∧ hasMore (loadMore_settle (inr page) s) = Page.hasMore page
    ∧ loadingMore (loadMore_settle (inr page) s) = false.
Proof.
  unfold loadMore_settle.
  destruct (appendedEntries page s) as [|a l] eqn:Happ.
  { exists []. simpl. by rewrite app_nil_r. }
  pose proof (queueImageLoads_spec (a :: l) s) as [H1 []].
  destruct (queueImageLoads (a :: l) s) as [appended' s3]. simpl in *.
  exists appended'. split_and!; try done; by rewrite core_entries0.
Qed.

Lemma loadMore_settle_error e s :
  entries (loadMore_settle (inl e) s) = entries s
  ∧ pendingDeleteIds (loadMore_settle (inl e) s) = pendingDeleteIds s
  ∧ listCache (loadMore_settle (inl e) s) = listCache s
  ∧ selectedEntryIds (loadMore_settle (inl e) s) = selectedEntryIds s.
Proof. done. Qed.



(** C4: [loadMore] returns without doing anything when a load is in flight
    or when there is no more to load or no cursor; otherwise it sets the flag
    and asks for one page of [PAGE_SIZE] entries after the current cursor.
    When the page arrives, the entries it appends have distinct ids that are
    neither in the list nor pending deletion, every such id of the page is
    appended, and the cursor and [hasMore] are those of the page.  The page
    is the one of the response: for a reply with an [ok] status the items
    are the [items] of the body, [hasMore] is its [hasMore] and the cursor
    its [nextCursor] (for a legacy array: the array, whether it is as long
    as a page, and the id of its last entry); for any other reply the list,
    the cursor and [hasMore] stay as they are. *)
Theorem loadMore_contract (s : State) :
  loadMore_begin s
  = (if loading s || loadingMore s || negb (hasMore s)
        || negb (truthy (paginationCursor s))
     then (s, None)
     else (set_loadingMore true s,
           Some (mkQuery (Some (js "60")) (paginationCursor s))))
  ∧ (∀ server,
       loadMore server s
       = if loading s || loadingMore s || negb (hasMore s)
            || negb (truthy (paginationCursor s))
         then s
         else loadMore_settle
                (fetchGalleryPage_reply PAGE_SIZE
                   (server (mkQuery (Some (js "60")) (paginationCursor s))))
                (set_loadingMore true s))
  ∧ (∀ page, ∃ appended,
       entries (loadMore_settle (inr page) s) = entries s ++ appended
       ∧ ids appended ## ids (entries s)
       ∧ NoDup (ids appended)
       ∧ (∀ i, i ∈ ids appended ↔
            i ∈ ids (Page.items page) ∧ (i ∉ pendingDeleteIds s)
            ∧ i ∉ ids (entries s))
       ∧ paginationCursor (loadMore_settle (inr page) s) = Page.nextCursor page
       ∧ hasMore (loadMore_settle (inr page) s) = Page.hasMore page
       ∧ loadingMore (loadMore_settle (inr page) s) = false)
  ∧ (∀ server status body,
       loading s = false → loadingMore s = false → hasMore s = true →
       truthy (paginationCursor s) = true →
       server (mkQuery (Some (js "60")) (paginationCursor s))
       = Responded status body →
       200 ≤ status ≤ 299 →
       let items :=
         match body with
         | BodyArray l => l
         | BodyObject _ items _ _ => default [] items
         end in
       ∃ appended,
         entries (loadMore server s) = entries s ++ appended
         ∧ ids appended ## ids (entries s)
         ∧ NoDup (ids appended)
         ∧ (∀ i, i ∈ ids appended ↔
              i ∈ ids items ∧ (i ∉ pendingDeleteIds s) ∧ i ∉ ids (entries s))
         ∧ paginationCursor (loadMore server s)
           = match body with
             | BodyArray l => Entry.id <$> last l
             | BodyObject _ _ _ next => or_else next None
             end
         ∧ hasMore (loadMore server s)
           = match body with
             | BodyArray l => bool_decide (60 ≤ length l)%nat
             | BodyObject _ _ more _ => more
             end
         ∧ loadingMore (loadMore server s) = false)
  ∧ (∀ server,
       loading s = false → loadingMore s = false → hasMore s = true →
       truthy (paginationCursor s) = true →
       (∀ status body,
          server (mkQuery (Some (js "60")) (paginationCursor s))
          = Responded status body → ¬ 200 ≤ status ≤ 299) →
       entries (loadMore server s) = entries s
       ∧ paginationCursor (loadMore server s) = paginationCursor s
       ∧ hasMore (loadMore server s) = hasMore s
       ∧ error (loadMore server s)
         = match server (mkQuery (Some (js "60")) (paginationCursor s)) with
           | Rejected e => errorToString e
           | Responded _ body =>
               js "Error: "
               ++ default (js "Failed to load")
                    (or_else
                       match body with
                       | BodyObject err _ _ _ => err
                       | BodyArray _ => None
                       end None)
           end
       ∧ loadingMore (loadMore server s) = false).
Proof.
  assert (Hbegin : loadMore_begin s
    = (if loading s || loadingMore s || negb (hasMore s)
          || negb (truthy (paginationCursor s))
       then (s, None)
       else (set_loadingMore true s,
             Some (mkQuery (Some (js "60")) (paginationCursor s))))).
  { unfold loadMore_begin, fetchGalleryPage_query.
    destruct (loading s), (loadingMore s), (hasMore s),
      (truthy (paginationCursor s)); reflexivity. }
  assert (Hmore : ∀ server,
    loadMore server s
    = if loading s || loadingMore s || negb (hasMore s)
         || negb (truthy (paginationCursor s))
      then s
      else loadMore_settle
             (fetchGalleryPage_reply PAGE_SIZE
                (server (mkQuery (Some (js "60")) (paginationCursor s))))
             (set_loadingMore true s)).
  { intros server. unfold loadMore. rewrite Hbegin.
    by destruct (loading s || loadingMore s || negb (hasMore s)
                 || negb (truthy (paginationCursor s))). }
  assert (Hpage : ∀ (s0 : State) page, ∃ appended,
       entries (loadMore_settle (inr page) s0) = entries s0 ++ appended
       ∧ ids appended ## ids (entries s0)
       ∧ NoDup (ids appended)
       ∧ (∀ i, i ∈ ids appended ↔
            i ∈ ids (Page.items page) ∧ (i ∉ pendingDeleteIds s0)
            ∧ i ∉ ids (entries s0))
       ∧ paginationCursor (loadMore_settle (inr page) s0) = Page.nextCursor page
       ∧ hasMore (loadMore_settle (inr page) s0) = Page.hasMore page
       ∧ loadingMore (loadMore_settle (inr page) s0) = false).
  { intros s0 page.
    destruct (loadMore_settle_page page s0)
      as (appended & Hsp & He & _ & _ & Hc & Hm & Hl).
    destruct (appendedEntries_spec page s0) as (Hnd & Hnew & Hall).
    apply server_part_ids in Hsp.
    exists appended. rewrite Hsp. split_and!; try done.
    + intros i Hi Hi'. by apply Hnew in Hi as (? & _).
    + intros i. split; [intros Hi; apply Hnew in Hi; tauto|].
      intros (? & ? & ?). by apply Hall. }
  assert (Hok : ∀ status, statusOk status = true ↔ 200 ≤ status ≤ 299).
  { intros status. unfold statusOk. rewrite andb_true_iff, !Z.leb_le. done. }
  split_and!; [done | done | apply Hpage | |].
  - intros server status body Hl Hlm Hh Hc Hreply Hstatus items.
    rewrite Hmore, Hl, Hlm, Hh, Hc, Hreply. cbn [orb negb].
    unfold fetchGalleryPage_reply.
    rewrite (proj2 (Hok status) Hstatus). cbn [negb].
    destruct body as [l | err its more next].
    + destruct (Hpage (set_loadingMore true s)
                  (Page.mk l (bool_decide (PAGE_SIZE ≤ length l)%nat)
                     (Entry.id <$> last l)))
        as (appended & H1 & H2 & H3 & H4 & H5 & H6 & H7).
      by exists appended.
    + destruct (Hpage (set_loadingMore true s)
                  (Page.mk (default [] its) more (or_else next None)))
        as (appended & H1 & H2 & H3 & H4 & H5 & H6 & H7).
      by exists appended.
  - intros server Hl Hlm Hh Hc Hbad.
    rewrite Hmore, Hl, Hlm, Hh, Hc. cbn [orb negb].
    unfold fetchGalleryPage_reply.
    destruct (server _) as [status body | e] eqn:Hreply; [|done].
    destruct (statusOk status) eqn:Hs;
      [apply Hok in Hs; by destruct (Hbad status body eq_refl)|].
    cbn [negb]. split_and!; try done.
    destruct body as [l | [[|c r]|] its more next]; reflexivity.
Qed.

Lemma loadMore_contract_witness :
  let s :=
    set_hasMore true
      (set_paginationCursor (Some (js "4"))
         (set_pendingDeleteIds {[js "2"]}
            (Scenario.showing ["5"; "4"]%string []))) in
  let page := Scenario.entryOf <$> ["4"; "3"; "2"; "3"]%string in
  let server := λ _ : GalleryQuery,
    Responded 200 (BodyObject None (Some page) true (Some (js "3"))) in
  ids (entries (loadMore server s)) = js <$> ["5"; "4"; "3"]%string
  ∧ paginationCursor (loadMore server s) = Some (js "3")
  ∧ hasMore (loadMore server s) = true.
Proof.
  intros s page server.
  destruct (loadMore_contract s) as (_ & _ & _ & Hreply & _).
  destruct (Hreply server 200
              (BodyObject None (Some page) true (Some (js "3")))
              eq_refl eq_refl eq_refl eq_refl eq_refl)
    as (appended & _ & _ & _ & _ & Hcursor & Hmore & _).
  { apply (bool_decide_unpack _). vm_compute. exact I. }
  split_and!; [reflexivity | exact Hcursor | exact Hmore].
Defined.

#[local] Arguments mergeTopPage : simpl never.

Lemma load_begin_forced fir s :
  entries s ≠ [] → load_begin fir true s = (set_error [] s, true).
Proof.
  intros H. unfold load_begin. simpl.
  rewrite bool_decide_eq_true_2; [done|].
  destruct (entries s); [done | simpl; lia].
Qed.

(** The continuation of a forced refresh that began over a populated list,
    in whatever state the reply finds the component. *)
Lemma background_refresh_settle (s : State) (fir : bool) (page : Page.t) :
  let s' := load_settle fir true true (inr page) s in
  let top := visibleOnly (pendingDeleteIds s) (Page.items page) in
  let tail := filter (λ e, Entry.id e ∉ ids top) (entries s) in
  Entry.server_part <$> entries s' = Entry.server_part <$> (top ++ tail)
  ∧ paginationCursor s'
    = (if truthy (paginationCursor s) then paginationCursor s
       else Page.nextCursor page)
  ∧ hasMore s' = hasMore s.
Proof.
  intros s' top tail.
  pose proof (mergeTopPage_entries (Page.items page) fir true s) as Hentries.
  destruct (mergeTopPage_frame (Page.items page) fir true s)
    as (_ & _ & Hcur & Hmore & _).
  set (m := mergeTopPage (Page.items page) fir true s) in *.
  cbv zeta in Hentries. fold top in Hentries. fold tail in Hentries.
  assert (Hs' : s' = set_loading false
        (if negb (truthy (paginationCursor m))
         then set_paginationCursor (Page.nextCursor page) m else m)) by done.
  rewrite Hcur in Hs'. rewrite Hs'.
  split_and!; by destruct (truthy (paginationCursor s)).
Qed.

(** C3: a forced list refresh over a populated list puts the entries of the
    fetched page that are not pending deletion at the front, keeps after
    them every entry that was loaded and whose id is not among those (so
    every loaded entry whose id is not in the page stays, and an entry the
    page brings again is replaced), takes the cursor of the page only when
    no cursor was set, and leaves [hasMore] as it was.  The equality of the
    lists is up to the two image fields, which the image queue fills. *)
Theorem background_refresh_merge (s : State) (fir : bool)
    (reply : Fetched GalleryBody) (page : Page.t)
    (Hpopulated : entries s ≠ [])
    (Hpage : fetchGalleryPage_reply PAGE_SIZE reply = inr page) :
  let s' := load fir true reply s in
  let top := visibleOnly (pendingDeleteIds s) (Page.items page) in
  let tail := filter (λ e, Entry.id e ∉ ids top) (entries s) in
  Entry.server_part <$> entries s' = Entry.server_part <$> (top ++ tail)
  ∧ ((∀ e, e ∈ Page.items page → Entry.id e ∉ pendingDeleteIds s) →
       top = Page.items page)
  ∧ (∀ e, e ∈ entries s → Entry.id e ∉ ids (Page.items page) → e ∈ tail)
  ∧ (∀ e, e ∈ tail → Entry.id e ∉ ids top)
  ∧ paginationCursor s'
    = (if truthy (paginationCursor s) then paginationCursor s
       else Page.nextCursor page)
  ∧ hasMore s' = hasMore s.
Proof.
  intros s' top tail.
  assert (Hs' : s' = load_settle fir true true (inr page) (set_error [] s)).
  { subst s'. unfold load. by rewrite load_begin_forced, Hpage. }
  destruct (background_refresh_settle (set_error [] s) fir page)
    as (Hentries & Hcur & Hmore).
  rewrite <- Hs' in Hentries, Hcur, Hmore.
  split_and!; [exact Hentries | | | | exact Hcur | exact Hmore].
  - apply visibleOnly_all.
  - intros e He Hno. subst tail. apply list_elem_of_filter. split; [|done].
    intros Hin. apply Hno. subst top. by apply ids_visibleOnly in Hin as [? _].
  - intros e He. subst tail. by apply list_elem_of_filter in He as [? _].
Qed.

Lemma background_refresh_merge_witness :
  let s := set_paginationCursor (Some (js "3"))
             (Scenario.showing ["5"; "4"; "3"]%string []) in
  let page := Page.mk [Scenario.entryOf "6"; Scenario.entryOf "5"] true
                (Some (js "5")) in
  let reply := Responded 200
                 (BodyObject None (Some (Page.items page)) true (Some (js "5"))) in
  entries s ≠ [] ∧ fetchGalleryPage_reply PAGE_SIZE reply = inr page
  ∧ ids (entries (load false true reply s)) = js <$> ["6"; "5"; "4"; "3"]%string
  ∧ paginationCursor (load false true reply s) = Some (js "3").
Proof.
  intros s page reply.
  assert (Hpopulated : entries s ≠ []) by done.
  assert (Hpage : fetchGalleryPage_reply PAGE_SIZE reply = inr page) by reflexivity.
  split_and!; [done | done | reflexivity |].
  pose proof (background_refresh_merge s false reply page Hpopulated Hpage)
    as (_ & _ & _ & _ & Hcursor & _).
  exact Hcursor.
Defined.

(** *** The invariant of the event loop *)

Lemma consistent_same s s' :
  entries s' = entries s → pendingDeleteIds s' = pendingDeleteIds s →
  listCache s' = listCache s → consistent s → consistent s'.
Proof.
  unfold consistent, pendingExcluded. intros -> -> ->. done.
Qed.

Lemma consistent_ids s s' :
  ids (entries s') = ids (entries s) → pendingDeleteIds s' = pendingDeleteIds s →
  listCache s' = listCache s → consistent s → consistent s'.
Proof.
  unfold consistent, pendingExcluded. intros -> -> ->. done.
Qed.

Lemma ids_insert_same (l : list Entry.t) (i : nat) (e e' : Entry.t) :
  l !! i = Some e → Entry.id e' = Entry.id e → ids (<[i := e']> l) = ids l.
Proof.
  intros Hi He. unfold ids. rewrite list_fmap_insert, He.
  apply list_insert_id. by rewrite list_lookup_fmap, Hi.
Qed.

Lemma consistent_initial lc ic :
  NoDup (ids (default [] lc)) → consistent (initialState lc ic).
Proof.
  intros H. split_and!; [apply NoDup_nil_2 | done |].
  intros i Hi. simpl in Hi. set_solver.
Qed.

(** The paint of [load]: when the list cache holds entries, the list becomes
    the first page of the cache without the pending ids. *)
Lemma load_begin_paint fir s c cs :
  listCache s = Some (c :: cs) →
  Entry.server_part <$> entries (load_begin fir false s).1
  = Entry.server_part <$>
      visibleOnly (pendingDeleteIds s) (take PAGE_SIZE (c :: cs))
  ∧ pendingDeleteIds (load_begin fir false s).1 = pendingDeleteIds s
  ∧ listCache (load_begin fir false s).1 = listCache s
  ∧ selectedEntryIds (load_begin fir false s).1 = selectedEntryIds s.
Proof.
  intros Hc. unfold load_begin.
  change (listCache (set_error [] s)) with (listCache s). rewrite Hc.
  cbn [negb fst].
  match goal with |- context [queueImageLoads_entries ?x] =>
    pose proof (queueImageLoads_entries_server_part x) as He;
    destruct (queueImageLoads_entries_frame x) as (H1 & H2 & H3 & _);
    set (q := queueImageLoads_entries x) in * end.
  change (entries (set_loading false q)) with (entries q).
  change (pendingDeleteIds (set_loading false q)) with (pendingDeleteIds q).
  change (listCache (set_loading false q)) with (listCache q).
  change (selectedEntryIds (set_loading false q)) with (selectedEntryIds q).
  rewrite He, H1, H2, H3. split_and!; try done.
  by apply server_part_build.
Qed.

Lemma load_begin_no_paint fir flr s :
  flr = true ∨ listCache s = None ∨ listCache s = Some [] →
  entries (load_begin fir flr s).1 = entries s
  ∧ pendingDeleteIds (load_begin fir flr s).1 = pendingDeleteIds s
  ∧ listCache (load_begin fir flr s).1 = listCache s
  ∧ selectedEntryIds (load_begin fir flr s).1 = selectedEntryIds s.
Proof.
  unfold load_begin. intros [-> | [H | H]].
  - simpl. by case_bool_decide.
  - destruct flr; simpl; [by case_bool_decide|]. by rewrite H.
  - destruct flr; simpl; [by case_bool_decide|]. by rewrite H.
Qed.

Lemma consistent_load_begin fir flr s :
  consistent s → consistent (load_begin fir flr s).1.
Proof.
  intros Hc.
  destruct flr; [by destruct (load_begin_no_paint fir true s) as (?&?&?&_);
                   [left | eapply consistent_same]|].
  destruct (listCache s) as [[|c cs]|] eqn:Hl.
  - destruct (load_begin_no_paint fir false s) as (?&?&?&_); [by do 2 right|].
    by eapply consistent_same.
  - destruct (load_begin_paint fir s c cs Hl) as (He & Hp & Hlc & _).
    apply server_part_ids in He.
    destruct Hc as (_ & Hcache & _). rewrite Hl in Hcache.
    change (default [] (Some (c :: cs))) with (c :: cs) in Hcache.
    unfold consistent, pendingExcluded. rewrite He, Hp, Hlc, Hl.
    split_and!; [|done|].
    + eapply NoDup_ids_sublist; [|exact Hcache].
      etrans; [apply sublist_filter | apply sublist_take].
    + intros i Hi Hin. by apply ids_visibleOnly in Hin as [_ ?].
  - destruct (load_begin_no_paint fir false s) as (?&?&?&_); [by right; left|].
    by eapply consistent_same.
Qed.

Lemma consistent_mergeTopPage items fir keep s :
  NoDup (ids items) → consistent s → consistent (mergeTopPage items fir keep s).
Proof.
  intros Hnd (He & _ & Hp).
  pose proof (mergeTopPage_ids items fir keep s) as Hids.
  destruct (mergeTopPage_frame items fir keep s) as (Hpend & Hlc & _).
  cbv zeta in Hids.
  assert (Hvis : NoDup (ids (visibleOnly (pendingDeleteIds s) items))).
  { eapply NoDup_ids_sublist; [apply sublist_filter | done]. }
  unfold consistent, pendingExcluded. rewrite Hids, Hpend, Hlc.
  split_and!.
  - destruct keep; [|by rewrite app_nil_r].
    apply NoDup_app. split_and!; [done | |].
    + intros i Hi Hi'. apply ids_filter in Hi' as (e & _ & Hne & <-). done.
    + eapply NoDup_ids_sublist; [apply sublist_filter | done].
  - simpl. eapply NoDup_ids_sublist; [apply sublist_take | done].
  - intros i Hi. rewrite elem_of_app. intros [Hin | Hin].
    + by apply ids_visibleOnly in Hin as [_ ?].
    + destruct keep; [|by apply elem_of_nil in Hin].
      apply ids_filter in Hin as (e & Hin & _ & <-).
      apply (Hp _ Hi). apply elem_of_ids. eauto.
Qed.

Lemma consistent_load_settle fir flr had fetched s :
  (∀ page, fetched = inr page → NoDup (ids (Page.items page))) →
  consistent s → consistent (load_settle fir flr had fetched s).
Proof.
  intros Hnd Hc. unfold load_settle. destruct fetched as [e | page].
  { by eapply consistent_same. }
  pose proof (consistent_mergeTopPage (Page.items page) fir flr s
                (Hnd page eq_refl) Hc) as Hm.
  set (m := mergeTopPage (Page.items page) fir flr s) in *.
  eapply consistent_same; [| | |exact Hm];
    by destruct (negb flr || negb had), (negb (truthy (paginationCursor m))).
Qed.

Lemma consistent_loadMore_begin s : consistent s → consistent (loadMore_begin s).1.
Proof.
  intros Hc. unfold loadMore_begin.
  destruct (loading s || loadingMore s); [done|].
  by destruct (negb (hasMore s) || negb (truthy (paginationCursor s))).
Qed.

Lemma consistent_loadMore_settle fetched s :
  consistent s → consistent (loadMore_settle fetched s).
Proof.
  intros Hc. destruct fetched as [e | page].
  { by eapply consistent_same. }
  destruct (loadMore_settle_page page s) as (appended & Hsp & He & Hp & Hl & _).
  destruct (appendedEntries_spec page s) as (Hnd & Hnew & _).
  apply server_part_ids in Hsp. rewrite <- Hsp in Hnd, Hnew.
  destruct Hc as (Hc1 & Hc2 & Hc3).
  unfold consistent, pendingExcluded. rewrite He, Hp, Hl, ids_app.
  split_and!; [|done|].
  - apply NoDup_app. split_and!; [done | | done].
    intros i Hi Hi'. by apply Hnew in Hi' as (? & _).
  - intros i Hi. rewrite elem_of_app. intros [Hin | Hin]; [by apply (Hc3 i)|].
    by apply Hnew in Hin as (_ & ? & _).
Qed.

Lemma consistent_hide i s :
  consistent s → consistent (hideEntryOptimistically i s).1.
Proof.
  intros (He & Hl & Hp).
  destruct (list_find (λ x, Entry.id x = i) (entries s)) as [[idx e]|] eqn:Hf.
  2: { by rewrite hide_not_found. }
  destruct (hide_found s i idx e Hf) as (H1 & H2 & H3 & _).
  apply list_find_Some in Hf as (Hidx & <- & _).
  unfold consistent, pendingExcluded. rewrite H1, H2, H3.
  split_and!; [|done|].
  - eapply NoDup_ids_sublist; [apply sublist_delete | done].
  - intros j Hj Hin.
    apply elem_of_union in Hj as [Hj | Hj].
    + apply elem_of_singleton in Hj as ->.
      by apply (id_not_in_delete (entries s) idx e).
    + apply (Hp j Hj). eapply elem_of_sublist; [exact Hin|].
      apply ids_sublist, sublist_delete.
Qed.

Lemma consistent_restore snapshot s :
  consistent s → consistent (restoreHiddenEntry snapshot s).
Proof.
  intros (He & Hl & Hp). destruct snapshot as [snap|]; [|done].
  destruct (decide (Exists (λ x, Entry.id x = Entry.id (snap_entry snap))
                      (entries s))) as [Hex | Hex].
  - destruct (restore_present s snap Hex) as (H1 & H2 & H3).
    unfold consistent, pendingExcluded. rewrite H1, H2, H3.
    split_and!; [done..|]. intros j Hj. apply Hp. set_solver.
  - destruct (restore_absent s snap Hex) as (H1 & H2 & H3).
    assert (Hperm : ids (entries (restoreHiddenEntry (Some snap) s))
                    ≡ₚ Entry.id (snap_entry snap) :: ids (entries s)).
    { rewrite H1. unfold ids. by rewrite spliceInsert_Permutation. }
    rewrite Exists_id in Hex.
    unfold consistent, pendingExcluded. rewrite H2, H3.
    split_and!; [|done|].
    + rewrite Hperm. by apply NoDup_cons.
    + intros j Hj Hin. apply elem_of_difference in Hj as [Hj Hne].
      rewrite Hperm in Hin. apply elem_of_cons in Hin as [-> | Hin];
        [set_solver | by apply (Hp j)].
Qed.

Lemma removeEntryFromLocalCache_frame e s :
  entries (removeEntryFromLocalCache e s) = entries s
  ∧ pendingDeleteIds (removeEntryFromLocalCache e s) = pendingDeleteIds s
  ∧ selectedEntryIds (removeEntryFromLocalCache e s) = selectedEntryIds s
  ∧ listCache (removeEntryFromLocalCache e s)
    = Some (take PAGE_SIZE
              (filter (λ item, Entry.id item ≠ Entry.id e) (default [] (listCache s)))).
Proof.
  unfold removeEntryFromLocalCache.
  destruct (Entry.file_id e) as [f|]; [|done].
  by destruct (truthy (Some f)).
Qed.

Lemma consistent_finalize e s :
  consistent s → consistent (finalizeDeleteSuccess e s).
Proof.
  intros (He & Hl & Hp). unfold finalizeDeleteSuccess.
  match goal with |- context [removeEntryFromLocalCache e ?x] =>
    destruct (removeEntryFromLocalCache_frame e x) as (H1 & H2 & _ & H4);
    set (r := removeEntryFromLocalCache e x) in * end.
  unfold consistent, pendingExcluded.
  change (entries (syncSelectionWithEntries r)) with (entries r).
  change (pendingDeleteIds (syncSelectionWithEntries r)) with (pendingDeleteIds r).
  change (listCache (syncSelectionWithEntries r)) with (listCache r).
  rewrite H1, H2, H4. simpl.
  split_and!; [done | |].
  - eapply NoDup_ids_sublist; [|exact Hl].
    etrans; [apply sublist_take | apply sublist_filter].
  - intros j Hj. apply Hp. set_solver.
Qed.

Lemma consistent_hideTargets targets s :
  consistent s → consistent (hideTargets targets s).1.
Proof.
  revert s. induction targets as [|e l IH]; intros s Hc; [done|]. simpl.
  pose proof (consistent_hide (Entry.id e) s Hc) as H1.
  destruct (hideEntryOptimistically (Entry.id e) s) as [s1 snapshot].
  specialize (IH s1 H1). by destruct (hideTargets l s1).
Qed.

Lemma consistent_step s s' : step s s' → consistent s → consistent s'.
Proof.
  intros Hstep Hc. destruct Hstep.
  - by apply consistent_load_begin.
  - by apply consistent_load_settle.
  - by apply consistent_loadMore_begin.
  - by apply consistent_loadMore_settle.
  - unfold clearImageCache_begin. destruct confirmed; [|done]. cbn [negb].
    apply consistent_load_begin.
    destruct Hc as (He & Hl & Hp). split_and!; [|done|].
    + simpl. by rewrite ids_fmap_build.
    + unfold pendingExcluded. simpl. by rewrite ids_fmap_build.
  - unfold refreshSingleImage. case_bool_decide; [done|].
    destruct (entries s !! Z.to_nat (selectedIndex s)) as [entry|] eqn:He; [|done].
    destruct (Entry.file_id entry) as [[|c r]|]; [done| |done].
    destruct (encodeURIComponent (c :: r));
      (eapply consistent_ids; [| | |exact Hc]; [|done..]);
      simpl; by apply (ids_insert_same _ _ entry).
  - unfold performDelete_begin. destruct (pendingDelete s) as [entry|]; [|done].
    destruct (truthy (Some (Entry.id entry))); [|done]. simpl.
    pose proof (consistent_hide (Entry.id entry) (set_showDeleteModal false s) Hc).
    by destruct (hideEntryOptimistically _ _).
  - unfold performDelete_settle. destruct result.
    + eapply consistent_same; [..|by apply (consistent_restore snapshot)]; done.
    + eapply consistent_same; [..|by apply (consistent_finalize entry)]; done.
  - unfold performBatchDelete_begin.
    destruct (filter _ (entries s)) as [|t ts] eqn:Ht; [done|].
    destruct confirmed; [|done]. cbn [negb].
    pose proof (consistent_hideTargets (t :: ts) s Hc) as H1.
    destruct (hideTargets (t :: ts) s) as [s1 targets].
    eapply consistent_same; [..|exact H1]; done.
  - unfold performBatchDelete_turn. destruct result; simpl.
    + by apply consistent_restore.
    + by apply consistent_finalize.
  - unfold performBatchDelete_report. by destruct (failCount p).
  - unfold toggleBatchMode. by destruct (batchMode _).
  - unfold toggleEntrySelection.
    destruct (negb _); [done|]. by destruct (isEntrySelected _ _).
  - unfold toggleSelectAllEntries. by destruct (allEntriesSelected s).
  - done.
  - done.
  - done.
  - done.
  - done.
  - unfold prevImage. by case_bool_decide.
  - unfold nextImage. by case_bool_decide.
Qed.

(** In every state the component can reach, the list and the list cache do
    not repeat an id and no entry of the list is pending deletion. *)
Lemma reachable_consistent s : reachable s → consistent s.
Proof.
  induction 1 as [lc ic H | s s' _ IH Hstep].
  - by apply consistent_initial.
  - by eapply consistent_step.
Qed.

(** *** Pending deletions stay out of the list *)

Lemma excluded_load_begin fir flr s :
  pendingDeleteIds (load_begin fir flr s).1 = pendingDeleteIds s
  ∧ (pendingExcluded s → pendingExcluded (load_begin fir flr s).1).
Proof.
  destruct flr.
  { destruct (load_begin_no_paint fir true s) as (He & Hp & _); [by left|].
    unfold pendingExcluded. by rewrite He, Hp. }
  destruct (listCache s) as [[|c cs]|] eqn:Hl.
  - destruct (load_begin_no_paint fir false s) as (He & Hp & _); [by do 2 right|].
    unfold pendingExcluded. by rewrite He, Hp.
  - destruct (load_begin_paint fir s c cs Hl) as (He & Hp & _).
    apply server_part_ids in He.
    unfold pendingExcluded. rewrite He, Hp. split; [done|].
    intros _ i Hi Hin. by apply ids_visibleOnly in Hin as [_ ?].
  - destruct (load_begin_no_paint fir false s) as (He & Hp & _); [by right; left|].
    unfold pendingExcluded. by rewrite He, Hp.
Qed.

Lemma excluded_mergeTopPage items fir keep s :
  pendingDeleteIds (mergeTopPage items fir keep s) = pendingDeleteIds s
  ∧ (pendingExcluded s → pendingExcluded (mergeTopPage items fir keep s))
  ∧ (keep = false → pendingExcluded (mergeTopPage items fir keep s)).
Proof.
  pose proof (mergeTopPage_ids items fir keep s) as Hids.
  destruct (mergeTopPage_frame items fir keep s) as (Hpend & _).
  cbv zeta in Hids. unfold pendingExcluded. rewrite Hids, Hpend.
  split_and!; [done | |].
  - intros Hp i Hi. rewrite elem_of_app. intros [Hin | Hin].
    + by apply ids_visibleOnly in Hin as [_ ?].
    + destruct keep; [|by apply elem_of_nil in Hin].
      apply ids_filter in Hin as (e & Hin & _ & <-).
      apply (Hp _ Hi). apply elem_of_ids. eauto.
  - intros -> i Hi. rewrite app_nil_r. intros Hin.
    by apply ids_visibleOnly in Hin as [_ ?].
Qed.

Lemma excluded_load_settle fir flr had fetched s :
  pendingDeleteIds (load_settle fir flr had fetched s) = pendingDeleteIds s
  ∧ (pendingExcluded s → pendingExcluded (load_settle fir flr had fetched s)).
Proof.
  unfold load_settle.
  destruct fetched as [e | page]; [split; [reflexivity | intros H; exact H]|].
  destruct (excluded_mergeTopPage (Page.items page) fir flr s) as (Hp & Hx & _).
  set (m := mergeTopPage (Page.items page) fir flr s) in *.
  assert (entries (set_loading false
            (if negb flr || negb had
             then set_hasMore (Page.hasMore page)
                    (set_paginationCursor (Page.nextCursor page) m)
             else if negb (truthy (paginationCursor m))
                  then set_paginationCursor (Page.nextCursor page) m else m))
          = entries m
          ∧ pendingDeleteIds (set_loading false
            (if negb flr || negb had
             then set_hasMore (Page.hasMore page)
                    (set_paginationCursor (Page.nextCursor page) m)
             else if negb (truthy (paginationCursor m))
                  then set_paginationCursor (Page.nextCursor page) m else m))
          = pendingDeleteIds m) as [He Hp'].
  { by destruct (negb flr || negb had), (negb (truthy (paginationCursor m))). }
  unfold pendingExcluded in *. rewrite Hp in Hx. rewrite He, Hp', Hp. done.
Qed.

Lemma excluded_loadMore_settle fetched s :
  pendingDeleteIds (loadMore_settle fetched s) = pendingDeleteIds s
  ∧ (pendingExcluded s → pendingExcluded (loadMore_settle fetched s)).
Proof.
  destruct fetched as [e | page]; [split; [reflexivity | intros H; exact H]|].
  destruct (loadMore_settle_page page s) as (appended & Hsp & He & Hp & _).
  destruct (appendedEntries_spec page s) as (_ & Hnew & _).
  apply server_part_ids in Hsp. rewrite <- Hsp in Hnew.
  unfold pendingExcluded. rewrite He, Hp, ids_app. split; [done|].
  intros Hx i Hi. rewrite elem_of_app. intros [Hin | Hin]; [by apply (Hx i)|].
  by apply Hnew in Hin as (_ & ? & _).
Qed.

(** C1: in every state the component can reach, an id that is pending
    deletion is still pending and is not in the list after the paint of
    [load] from the list cache, after the merge of a fetched first page,
    forced or not, and after [loadMore] has appended a page, whatever the
    cache and the fetched pages hold. *)
Theorem pending_deletion_exclusion (s : State) (i : jsstring)
    (Hreach : reachable s) (Hpending : i ∈ pendingDeleteIds s) :
  (∀ fir flr,
     i ∈ pendingDeleteIds (load_begin fir flr s).1
     ∧ i ∉ ids (entries (load_begin fir flr s).1))
  ∧ (∀ items fir keep,
       i ∈ pendingDeleteIds (mergeTopPage items fir keep s)
       ∧ i ∉ ids (entries (mergeTopPage items fir keep s)))
  ∧ (∀ fir flr had fetched,
       i ∈ pendingDeleteIds (load_settle fir flr had fetched s)
       ∧ i ∉ ids (entries (load_settle fir flr had fetched s)))
  ∧ (∀ fetched,
       i ∈ pendingDeleteIds (loadMore_settle fetched s)
       ∧ i ∉ ids (entries (loadMore_settle fetched s))).
Proof.
  destruct (reachable_consistent s Hreach) as (_ & _ & Hx).
  split_and!.
  - intros fir flr. destruct (excluded_load_begin fir flr s) as [Hp Hk].
    rewrite Hp. split; [done|]. apply (Hk Hx). by rewrite Hp.
  - intros items fir keep.
    destruct (excluded_mergeTopPage items fir keep s) as (Hp & Hk & _).
    rewrite Hp. split; [done|]. apply (Hk Hx). by rewrite Hp.
  - intros fir flr had fetched.
    destruct (excluded_load_settle fir flr had fetched s) as [Hp Hk].
    rewrite Hp. split; [done|]. apply (Hk Hx). by rewrite Hp.
  - intros fetched. destruct (excluded_loadMore_settle fetched s) as [Hp Hk].
    rewrite Hp. split; [done|]. apply (Hk Hx). by rewrite Hp.
Qed.

Lemma pending_deletion_exclusion_witness :
  let page := Scenario.entryOf <$> ["5"; "4"; "3"]%string in
  let s1 := load_settle false false false (inr (Page.mk page false None))
              (initialState None ∅) in
  let s2 := (performDelete_begin (openDeleteModal (Scenario.entryOf "4") s1)).1 in
  reachable s2 ∧ js "4" ∈ pendingDeleteIds s2
  ∧ ids (entries (mergeTopPage page false true s2)) = js <$> ["5"; "3"]%string
  ∧ js "4" ∉ ids (entries (mergeTopPage page false true s2)).
Proof.
  intros page s1 s2.
  assert (Hreach : reachable s2).
  { eapply reachable_step; [|apply step_performDelete_begin].
    eapply reachable_step; [|apply step_openDeleteModal].
    eapply reachable_step; [apply (reachable_init None ∅), NoDup_nil_2|].
    apply step_load_settle. intros p [= <-].
    apply (bool_decide_unpack _). vm_compute. exact I. }
  assert (Hpending : js "4" ∈ pendingDeleteIds s2).
  { apply (bool_decide_unpack _). vm_compute. exact I. }
  split_and!; [done | done | reflexivity |].
  destruct (pending_deletion_exclusion s2 (js "4") Hreach Hpending)
    as (_ & Hmerge & _).
  apply (Hmerge page false true).
Defined.

(** *** A delete the server answers with NotFound *)

Lemma requestDeleteById_notFound :
  requestDeleteById Scenario.notFound
  = inl (mkError (js "Error") (js "Not found")).
Proof. reflexivity. Qed.

Lemma performDelete_begin_found s E index :
  pendingDelete s = Some E → Entry.id E ≠ [] →
  NoDup (ids (entries s)) → entries s !! index = Some E →
  ∃ s1,
    performDelete_begin s = (s1, Some (E, Some (mkSnapshot E index)))
    ∧ entries s1 = delete index (entries s)
    ∧ pendingDeleteIds s1 = {[Entry.id E]} ∪ pendingDeleteIds s.
Proof.
  intros Hmodal Hid Hnd Hat. unfold performDelete_begin. rewrite Hmodal.
  assert (truthy (Some (Entry.id E)) = true) as -> by by destruct (Entry.id E).
  cbn [negb].
  destruct (hide_found (set_showDeleteModal false s) (Entry.id E) index E)
    as (H1 & H2 & _ & H4); [by apply find_by_id|].
  destruct (hideEntryOptimistically (Entry.id E) (set_showDeleteModal false s))
    as [s1 snapshot]. simpl in *. subst snapshot. by exists s1.
Qed.

(** C7, as the code has it: a delete the server answers with NotFound is
    handled as any failed delete.  The entry is put back where it was, so
    the list is the one before the attempt and still shows the entry; its
    id is no longer pending; the failure is reported with the message of
    the server; and in a batch the turn counts as a failure.  A delete that
    succeeds leaves the list without the entry. *)
Theorem notFound_is_rolled_back (s : State) (E : Entry.t) (index : nat)
    (Hmodal : pendingDelete s = Some E) (Hid : Entry.id E ≠ [])
    (Hunique : NoDup (ids (entries s))) (Hat : entries s !! index = Some E) :
  entries (performDelete Scenario.notFound s) = entries s
  ∧ Entry.id E ∈ ids (entries (performDelete Scenario.notFound s))
  ∧ (Entry.id E ∉ pendingDeleteIds (performDelete Scenario.notFound s))
  ∧ toast (performDelete Scenario.notFound s)
    = Some (ToastDeleteFailed (js "Not found"))
  ∧ (∀ target p,
       failCount (performBatchDelete_turn target
                    (requestDeleteById Scenario.notFound) p) = (failCount p + 1)%nat
       ∧ successCount (performBatchDelete_turn target
                         (requestDeleteById Scenario.notFound) p) = successCount p)
  ∧ entries (performDelete Scenario.deleted s) = delete index (entries s)
  ∧ (Entry.id E ∉ ids (entries (performDelete Scenario.deleted s)))
  ∧ toast (performDelete Scenario.deleted s) = Some ToastDeleted.
Proof.
  destruct (performDelete_begin_found s E index Hmodal Hid Hunique Hat)
    as (s1 & Hbegin & He & Hp).
  assert (Hgone : Entry.id E ∉ ids (entries s1)).
  { rewrite He. by apply id_not_in_delete. }
  destruct (restore_absent s1 (mkSnapshot E index)) as (Hr1 & Hr2 & _);
    [by rewrite Exists_id|].
  change (snap_entry (mkSnapshot E index)) with E in Hr1, Hr2.
  change (snap_index (mkSnapshot E index)) with index in Hr1.
  assert (Hback : entries (restoreHiddenEntry (Some (mkSnapshot E index)) s1)
                  = entries s).
  { rewrite Hr1, He. by apply spliceInsert_delete. }
  unfold performDelete. rewrite Hbegin, requestDeleteById_notFound.
  split_and!.
  - exact Hback.
  - change (Entry.id E ∈ ids (entries
      (restoreHiddenEntry (Some (mkSnapshot E index)) s1))).
    rewrite Hback. apply elem_of_ids. exists E. split; [|done].
    by eapply list_elem_of_lookup_2.
  - change (Entry.id E ∉ pendingDeleteIds
      (restoreHiddenEntry (Some (mkSnapshot E index)) s1)).
    rewrite Hr2. set_solver.
  - reflexivity.
  - done.
  - change (entries (finalizeDeleteSuccess E s1) = delete index (entries s)).
    unfold finalizeDeleteSuccess.
    match goal with |- context [removeEntryFromLocalCache E ?x] =>
      destruct (removeEntryFromLocalCache_frame E x) as (H1 & _) end.
    exact (eq_trans H1 He).
  - change (Entry.id E ∉ ids (entries (finalizeDeleteSuccess E s1))).
    unfold finalizeDeleteSuccess.
    match goal with |- context [removeEntryFromLocalCache E ?x] =>
      destruct (removeEntryFromLocalCache_frame E x) as (H1 & _) end.
    change (Entry.id E ∉ ids (entries (removeEntryFromLocalCache E
      (set_pendingDeleteIds (pendingDeleteIds s1 ∖ {[Entry.id E]}) s1)))).
    by rewrite H1.
  - reflexivity.
Qed.

Lemma notFound_is_rolled_back_witness :
  let s := openDeleteModal (Scenario.entryOf "4")
             (Scenario.showing ["5"; "4"; "3"]%string []) in
  let E := Scenario.entryOf "4" in
  pendingDelete s = Some E ∧ Entry.id E ≠ [] ∧ NoDup (ids (entries s))
  ∧ entries s !! 1%nat = Some E
  ∧ entries (performDelete Scenario.notFound s) = entries s.
Proof.
  intros s E.
  assert (Hmodal : pendingDelete s = Some E) by reflexivity.
  assert (Hid : Entry.id E ≠ []) by discriminate.
  assert (Hunique : NoDup (ids (entries s))).
  { apply (bool_decide_unpack _). vm_compute. exact I. }
  assert (Hat : entries s !! 1%nat = Some E) by reflexivity.
  split_and!; [done..|].
  apply (notFound_is_rolled_back s E 1 Hmodal Hid Hunique Hat).
Defined.

(** The claim of C7 as it is written fails on the list [5, 4, 3]: after a
    NotFound the list still shows entry 4, after a success it does not, so
    the two visible end states differ. *)
Lemma notFound_end_state_counterexample :
  let s := openDeleteModal (Scenario.entryOf "4")
             (Scenario.showing ["5"; "4"; "3"]%string []) in
  ids (entries (performDelete Scenario.notFound s)) = js <$> ["5"; "4"; "3"]%string
  ∧ ids (entries (performDelete Scenario.deleted s)) = js <$> ["5"; "3"]%string
  ∧ ¬ (entries (performDelete Scenario.notFound s)
       = entries (performDelete Scenario.deleted s)
       ∧ js "4" ∉ ids (entries (performDelete Scenario.notFound s))).
Proof.
  intros s. split_and!; [reflexivity | reflexivity |].
  intros [Heq _]. apply (f_equal length) in Heq. vm_compute in Heq. discriminate.
Qed.

(** *** The selection after a list mutation *)

(** The handlers that end with [syncSelectionWithEntries] leave only
    visible ids selected; [loadMore], [hideEntryOptimistically] and
    [restoreHiddenEntry] skip the call only when they leave the list as it
    is. *)
Lemma selection_resynchronized (s : State) :
  (∀ items fir keep, selectionVisible (mergeTopPage items fir keep s))
  ∧ (∀ e, selectionVisible (finalizeDeleteSuccess e s))
  ∧ (selectionVisible s →
       (∀ fetched, selectionVisible (loadMore_settle fetched s))
       ∧ (∀ i, selectionVisible (hideEntryOptimistically i s).1)
       ∧ (∀ snapshot, selectionVisible (restoreHiddenEntry snapshot s))).
Proof.
  split_and!.
  - intros items fir keep. apply mergeTopPage_frame.
  - intros e. apply syncSelectionWithEntries_visible.
  - intros Hv. split_and!.
    + intros [e | page]; [exact Hv|].
      unfold loadMore_settle. destruct (appendedEntries page s) as [|a l]; [exact Hv|].
      destruct (queueImageLoads (a :: l) s) as [appended' s3].
      apply syncSelectionWithEntries_visible.
    + intros i. unfold hideEntryOptimistically.
      destruct (list_find _ _) as [[idx e]|]; [|exact Hv].
      apply syncSelectionWithEntries_visible.
    + intros [snap|]; [|exact Hv]. unfold restoreHiddenEntry.
      case_bool_decide; [exact Hv|]. apply syncSelectionWithEntries_visible.
Qed.

(** C9 at its failing input.  The list shows [a] and, kept as the tail of a
    background refresh, [x]; the list cache holds the last first page, [a];
    [x] is selected in batch mode.  Clearing the image cache calls
    [load(true, false)], whose paint replaces the list by the cached page
    and, unlike every other list mutation, does not resynchronise the
    selection: [x] stays selected although it is not in the list. *)
Theorem paint_keeps_stale_selection :
  let first := Page.mk [Scenario.entryOf "x"] false None in
  let refreshed := Page.mk [Scenario.entryOf "a"] false None in
  let s0 := load_settle false false false (inr first) (initialState None ∅) in
  let s1 := load_settle false true true (inr refreshed) s0 in
  let s2 := toggleEntrySelection (js "x") (toggleBatchMode s1) in
  let s3 := (clearImageCache_begin true s2).1 in
  reachable s2
  ∧ batchMode s2 = true
  ∧ ids (entries s2) = js <$> ["a"; "x"]%string
  ∧ ids (default [] (listCache s2)) = js <$> ["a"]%string
  ∧ selectedEntryIds s2 = js <$> ["x"]%string
  ∧ selectionVisible s2
  ∧ ids (entries s3) = js <$> ["a"]%string
  ∧ selectedEntryIds s3 = js <$> ["x"]%string
  ∧ ¬ selectionVisible s3.
Proof.
  intros first refreshed s0 s1 s2 s3.
  assert (Hnd : ∀ i p, NoDup (ids (Page.items (Page.mk [Scenario.entryOf i] false p)))).
  { intros i p. simpl. apply NoDup_singleton. }
  split_and!; try reflexivity.
  - eapply reachable_step; [|apply step_toggleEntrySelection].
    eapply reachable_step; [|apply step_toggleBatchMode].
    eapply reachable_step; [|apply step_load_settle; intros p [= <-]; apply Hnd].
    eapply reachable_step; [|apply step_load_settle; intros p [= <-]; apply Hnd].
    apply (reachable_init None ∅), NoDup_nil_2.
  - intros i Hi. vm_compute in Hi. apply list_elem_of_singleton in Hi as ->.
    apply (bool_decide_unpack _). vm_compute. exact I.
  - intros Hv. specialize (Hv (js "x")).
    assert (Hx : js "x" ∈ ids (entries s3)).
    { apply Hv. apply (bool_decide_unpack _). vm_compute. exact I. }
    vm_compute in Hx. apply list_elem_of_singleton in Hx. discriminate.
Qed.

(** *** Batch deletion *)

Lemma hideTargets_spec targets : ∀ s,
  NoDup (ids (entries s)) → NoDup (ids targets) →
  (∀ e, e ∈ targets → e ∈ entries s) →
  (hideTargets targets s).2.*1 = targets
  ∧ Forall (λ t, ∃ k, t.2 = Some (mkSnapshot t.1 k)) (hideTargets targets s).2
  ∧ targets ++ entries (hideTargets targets s).1 ≡ₚ entries s.
Proof.
  induction targets as [|e l IH]; intros s Hnd Hl Hin; [done|].
  simpl in Hl. apply NoDup_cons in Hl as [Hel Hl].
  assert (He : e ∈ entries s) by (apply Hin; left).
  apply list_elem_of_lookup in He as [idx Hidx].
  destruct (hide_found s (Entry.id e) idx e (find_by_id _ _ _ Hnd Hidx))
    as (H1 & _ & _ & H4).
  simpl. destruct (hideEntryOptimistically (Entry.id e) s) as [s1 snapshot].
  simpl in H1, H4. subst snapshot.
  destruct (IH s1) as (IH1 & IH2 & IH3); [| done | |].
  { rewrite H1. eapply NoDup_ids_sublist; [apply sublist_delete | done]. }
  { intros x Hx. rewrite H1.
    assert (Hxs : x ∈ entries s) by (apply Hin; by right).
    rewrite (delete_Permutation _ _ _ Hidx) in Hxs.
    apply elem_of_cons in Hxs as [-> | ?]; [|done].
    destruct Hel. apply elem_of_ids. eauto. }
  destruct (hideTargets l s1) as [s2 ts]. simpl in *.
  split_and!; [by f_equal | by constructor; [exists idx|] |].
  rewrite IH3, H1. by rewrite <- (delete_Permutation _ _ _ Hidx).
Qed.

Lemma batch_loop_spec server targets : ∀ cur sc fc,
  Forall (λ t, ∃ k, t.2 = Some (mkSnapshot t.1 k)) targets →
  NoDup (ids (targets.*1 ++ entries cur)) →
  entries (bp_state (foldl (λ p target,
             performBatchDelete_turn target
               (requestDeleteById (server (Entry.id target.1))) p)
             (mkProgress cur sc fc) targets))
  ≡ₚ filter (λ e, requestSucceeds server e = false) targets.*1 ++ entries cur
  ∧ successCount (foldl (λ p target,
             performBatchDelete_turn target
               (requestDeleteById (server (Entry.id target.1))) p)
             (mkProgress cur sc fc) targets)
    = (sc + length (filter (λ e, requestSucceeds server e = true) targets.*1))%nat
  ∧ failCount (foldl (λ p target,
             performBatchDelete_turn target
               (requestDeleteById (server (Entry.id target.1))) p)
             (mkProgress cur sc fc) targets)
    = (fc + length (filter (λ e, requestSucceeds server e = false) targets.*1))%nat.
Proof.
  induction targets as [|[e snapshot] l IH]; intros cur sc fc Hsnap Hnd.
  { simpl. split_and!; [done | lia | lia]. }
  apply Forall_cons in Hsnap as [[k Hk] Hsnap]. simpl in Hk. subst snapshot.
  rewrite fmap_cons in Hnd. cbn [fst app] in Hnd. unfold ids in Hnd.
  rewrite fmap_cons in Hnd. fold (ids (l.*1 ++ entries cur)) in Hnd.
  apply NoDup_cons in Hnd as [Hfresh Hnd].
  rewrite fmap_cons. cbn [foldl fst].
  unfold performBatchDelete_turn at 2 4 6.
  cbn [fst snd bp_state successCount failCount].
  destruct (requestDeleteById (server (Entry.id e))) as [err | body] eqn:Hreq.
  - assert (Hs : requestSucceeds server e = false)
      by (unfold requestSucceeds; by rewrite Hreq).
    assert (Hno : Entry.id e ∉ ids (entries cur)).
    { intros Hin. apply Hfresh. rewrite ids_app. apply elem_of_app. by right. }
    destruct (restore_absent cur (mkSnapshot e k)) as (Hr & _);
      [by rewrite Exists_id|].
    change (snap_entry (mkSnapshot e k)) with e in Hr.
    assert (Hperm : entries (restoreHiddenEntry (Some (mkSnapshot e k)) cur)
                    ≡ₚ e :: entries cur).
    { rewrite Hr. apply spliceInsert_Permutation. }
    destruct (IH (restoreHiddenEntry (Some (mkSnapshot e k)) cur) sc (fc + 1)%nat)
      as (IH1 & IH2 & IH3); [done | |].
    { rewrite Hperm. rewrite ids_app. simpl.
      rewrite <- Permutation_middle. apply NoDup_cons.
      rewrite <- ids_app. split; [exact Hfresh | exact Hnd]. }
    rewrite IH1, IH2, IH3, Hperm.
    rewrite filter_cons_True by done.
    rewrite filter_cons_False by (by rewrite Hs).
    split_and!; [by rewrite <- Permutation_middle | done | simpl; lia].
  - assert (Hs : requestSucceeds server e = true)
      by (unfold requestSucceeds; by rewrite Hreq).
    assert (Hsame : entries (finalizeDeleteSuccess e cur) = entries cur).
    { unfold finalizeDeleteSuccess.
      match goal with |- context [removeEntryFromLocalCache e ?x] =>
        destruct (removeEntryFromLocalCache_frame e x) as (H1 & _) end.
      exact H1. }
    destruct (IH (finalizeDeleteSuccess e cur) (sc + 1)%nat fc)
      as (IH1 & IH2 & IH3); [done | by rewrite Hsame |].
    rewrite IH1, IH2, IH3, Hsame.
    rewrite filter_cons_False by (by rewrite Hs).
    rewrite filter_cons_True by done.
    split_and!; [done | simpl; lia | done].
Qed.

Lemma performBatchDelete_begin_targets s :
  filter (λ e, Entry.id e ∈ selectedEntryIds s) (entries s) ≠ [] →
  performBatchDelete_begin true s
  = (set_batchMode false (set_selectedEntryIds []
       (hideTargets
          (filter (λ e, Entry.id e ∈ selectedEntryIds s) (entries s)) s).1),
     Some (hideTargets
             (filter (λ e, Entry.id e ∈ selectedEntryIds s) (entries s)) s).2).
Proof.
  intros Hne. unfold performBatchDelete_begin.
  destruct (filter _ (entries s)) as [|t ts]; [done|]. cbn [negb].
  by destruct (hideTargets (t :: ts) s).
Qed.

Lemma filter_selected_failed {A} (P Q : A → Prop)
    `{!∀ x, Decision (P x)} `{!∀ x, Decision (Q x)} (l : list A) :
  filter Q (filter P l) ++ filter (λ x, ¬ P x) l
  ≡ₚ filter (λ x, ¬ (P x ∧ ¬ Q x)) l.
Proof.
  induction l as [|x l IH]; [done|].
  destruct (decide (P x)) as [HP | HP], (decide (Q x)) as [HQ | HQ].
  - rewrite (filter_cons_True P), (filter_cons_True Q) by done.
    rewrite (filter_cons_False (λ x, ¬ P x)) by tauto.
    rewrite (filter_cons_True (λ x, ¬ (P x ∧ ¬ Q x))) by tauto.
    simpl. by rewrite IH.
  - rewrite (filter_cons_True P), (filter_cons_False Q) by done.
    rewrite (filter_cons_False (λ x, ¬ P x)) by tauto.
    rewrite (filter_cons_False (λ x, ¬ (P x ∧ ¬ Q x))) by tauto.
    done.
  - rewrite (filter_cons_False P) by done.
    rewrite (filter_cons_True (λ x, ¬ P x)) by tauto.
    rewrite (filter_cons_True (λ x, ¬ (P x ∧ ¬ Q x))) by tauto.
    by rewrite <- Permutation_middle, IH.
  - rewrite (filter_cons_False P) by done.
    rewrite (filter_cons_True (λ x, ¬ P x)) by tauto.
    rewrite (filter_cons_True (λ x, ¬ (P x ∧ ¬ Q x))) by tauto.
    by rewrite <- Permutation_middle, IH.
Qed.

(** What does hold of a batch deletion, for a list without repeated ids and
    a selection that is not empty: with [N] targets of which [M] are
    deleted, the report states [M] successes and [N - M] failures, and the
    final list holds, in some order, the entries of the initial list except
    the selected ones whose request succeeded. *)
Lemma batch_accounting (s : State) (server : jsstring → Fetched (option jsstring)) :
  let targets := filter (λ e, Entry.id e ∈ selectedEntryIds s) (entries s) in
  let M := length (filter (λ e, requestSucceeds server e = true) targets) in
  let N := length targets in
  NoDup (ids (entries s)) → targets ≠ [] →
  (M ≤ N)%nat
  ∧ toast (performBatchDelete true server s)
    = Some (if bool_decide (N - M = 0)%nat then ToastBatchDeleted M
            else ToastBatchPartial M (N - M))
  ∧ entries (performBatchDelete true server s)
    ≡ₚ filter (λ e, ¬ (Entry.id e ∈ selectedEntryIds s
                       ∧ requestSucceeds server e = true)) (entries s).
Proof.
  intros targets M N Hnd Hne.
  assert (HMN : (N = M + length (filter (λ e, requestSucceeds server e = false)
                                   targets))%nat).
  { subst N M. clear. induction targets as [|x l IH]; [done|].
    destruct (requestSucceeds server x) eqn:Hx.
    - rewrite filter_cons_True, filter_cons_False by (done || congruence).
      simpl. lia.
    - rewrite filter_cons_False, filter_cons_True by (done || congruence).
      simpl. lia. }
  unfold performBatchDelete. rewrite performBatchDelete_begin_targets by done.
  fold targets.
  destruct (hideTargets_spec targets s Hnd) as (H1 & H2 & H3).
  { eapply NoDup_ids_sublist; [apply sublist_filter | done]. }
  { intros e He. by apply list_elem_of_filter in He as [_ ?]. }
  destruct (hideTargets targets s) as [s1 tg]. simpl in H1, H2, H3.
  cbn [fst snd]. unfold performBatchDelete_loop.
  destruct (batch_loop_spec server tg
              (set_batchMode false (set_selectedEntryIds [] s1)) 0 0 H2)
    as (L1 & L2 & L3).
  { rewrite H1. change (entries (set_batchMode false _)) with (entries s1).
    unfold ids in *. by rewrite H3. }
  rewrite H1 in L1, L2, L3.
  change (entries (set_batchMode false _)) with (entries s1) in L1.
  fold M in L2. simpl in L2, L3. rewrite <- L3 in HMN.
  split_and!; [lia | |].
  - unfold performBatchDelete_report. rewrite L2.
    replace (N - M)%nat with (failCount
      (foldl (λ p target, performBatchDelete_turn target
         (requestDeleteById (server (Entry.id target.1))) p)
         (mkProgress (set_batchMode false (set_selectedEntryIds [] s1)) 0 0) tg))
      by lia.
    destruct (failCount _).
    + by rewrite bool_decide_eq_true_2.
    + by rewrite bool_decide_eq_false_2.
  - assert (Hrest : entries s1
      ≡ₚ filter (λ e, ¬ Entry.id e ∈ selectedEntryIds s) (entries s)).
    { apply (Permutation_app_inv_l targets). rewrite H3.
      subst targets. by rewrite filter_app_complement. }
    unfold performBatchDelete_report.
    assert (Hent : ∀ p, entries (match failCount p with
        | O => showToastMsg (ToastBatchDeleted (successCount p)) (bp_state p)
        | S _ => showToastMsg (ToastBatchPartial (successCount p) (failCount p))
                   (bp_state p) end) = entries (bp_state p)).
    { intros p. by destruct (failCount p). }
    rewrite Hent, L1, Hrest. subst targets.
    rewrite (filter_selected_failed (λ e, Entry.id e ∈ selectedEntryIds s)
               (λ e, requestSucceeds server e = false)).
    erewrite list_filter_iff; [done|].
    intros e. simpl. destruct (requestSucceeds server e); naive_solver.
Qed.

(** C5 at its failing input.  The list is [a, b, c, d], [b] and [c] are
    selected in batch mode, and both requests fail.  The report is right, no
    success and two failures, and so are the entries of the list, but [b]
    and [c] come back in the other order: each snapshot holds the index its
    entry had after the targets before it were hidden, and the rollbacks
    run in the same order as the hiding. *)
Theorem batch_rollback_swaps_entries :
  let page := Page.mk (Scenario.entryOf <$> ["a"; "b"; "c"; "d"]%string) false None in
  let s0 := load_settle false false false (inr page) (initialState None ∅) in
  let s := toggleEntrySelection (js "c")
             (toggleEntrySelection (js "b") (toggleBatchMode s0)) in
  let s' := performBatchDelete true (λ _, Scenario.notFound) s in
  reachable s
  ∧ ids (entries s) = js <$> ["a"; "b"; "c"; "d"]%string
  ∧ selectedEntryIds s = js <$> ["b"; "c"]%string
  ∧ toast s' = Some (ToastBatchPartial 0 2)
  ∧ ids (entries s') = js <$> ["a"; "c"; "b"; "d"]%string
  ∧ entries s' ≠ entries s.
Proof.
  intros page s0 s s'. split_and!; try reflexivity.
  - do 3 (eapply reachable_step;
          [|first [apply step_toggleEntrySelection | apply step_toggleBatchMode]]).
    eapply reachable_step; [apply (reachable_init None ∅), NoDup_nil_2|].
    apply step_load_settle. intros p [= <-].
    apply (bool_decide_unpack _). vm_compute. exact I.
  - intros Heq. apply (f_equal ids) in Heq. vm_compute in Heq. discriminate.
Qed.

End GalleryFacts.

(** ** The server *)

Module ServerFacts.
Import Server.

(** *** Keyset pagination *)

#[local] Instance idDesc_total : Total idDesc.
Proof. intros a b. unfold idDesc. lia. Qed.

#[local] Instance keyDesc_trans : Transitive keyDesc.
Proof. intros a b c. unfold keyDesc. lia. Qed.

#[local] Instance keyDesc_antisymm : AntiSymm (=) keyDesc.
Proof. intros a b. unfold keyDesc. lia. Qed.

#[local] Instance keyDesc_dec : RelDecision keyDesc.
Proof. intros a b. unfold keyDesc. apply _. Defined.

Lemma keys_filter_below (c : N) (l : list Doc) :
  _id <$> filter (λ d, (_id d < c)%N) l = filter (λ k, (k < c)%N) (_id <$> l).
Proof.
  induction l as [|d l IH]; [done|]. rewrite fmap_cons.
  destruct (decide (_id d < c)%N).
  - rewrite !filter_cons_True by done. by rewrite fmap_cons, IH.
  - by rewrite !filter_cons_False.
Qed.

(** The keys of the documents a query finds are the keys it selects, sorted
    downwards; when the keys of the collection are those of [keys], they are
    the sorted selection of [keys]. *)
Lemma findByIdDesc_keys (below : option N) (n : nat) (collection : list Doc)
    (keys : list N) :
  _id <$> collection ≡ₚ keys →
  Sorted keyDesc
    (match below with Some c => filter (λ k, (k < c)%N) keys | None => keys end) →
  _id <$> findByIdDesc below n collection
  = take n (match below with
            | Some c => filter (λ k, (k < c)%N) keys
            | None => keys
            end).
Proof.
  intros Hperm Hsorted. unfold findByIdDesc. rewrite fmap_take. f_equal.
  apply (Sorted_unique keyDesc); [|done|].
  - apply (Sorted_fmap _id idDesc keyDesc); [done|]. apply (Sorted_merge_sort idDesc).
  - rewrite merge_sort_Permutation. destruct below as [c|]; [|done].
    by rewrite keys_filter_below, Hperm.
Qed.

(** The page of a paginated read, read off the keys of the documents
    found. *)
Lemma pagedRead_keys (collection : list Doc) (limit : Z) (below : option N) :
  let found := _id <$> findByIdDesc below (Z.to_nat (limit + 1)) collection in
  let more := bool_decide (Z.of_nat (length found) > limit) in
  let page := if more then take (Z.to_nat limit) found else found in
  ∃ items,
    pagedRead collection limit below
    = JsonPage items more
        (if more then ObjectId_toString <$> last page else None) limit
    ∧ Gallery.ids items = ObjectId_toString <$> page.
Proof.
  intros found more page. unfold pagedRead.
  set (docs := findByIdDesc below (Z.to_nat (limit + 1)) collection) in *.
  assert (Hmore : bool_decide (Z.of_nat (length docs) > limit) = more).
  { subst more found. by rewrite length_fmap. }
  rewrite Hmore.
  assert (Hpage : _id <$> (if more then take (Z.to_nat limit) docs else docs) = page).
  { subst page found. destruct more; [by rewrite fmap_take | done]. }
  eexists. split.
  - f_equal. destruct more; [|done]. rewrite <- Hpage, fmap_last.
    by destruct (last (take (Z.to_nat limit) docs)).
  - unfold Gallery.ids. rewrite <- Hpage, <- !list_fmap_compose. done.
Qed.

Lemma handleGallery_get_first (collection : list Doc) (limitRaw : jsstring) :
  handleGallery_get collection (Some limitRaw) None
  = pagedRead collection (effectiveLimit (Some limitRaw)) None.
Proof. reflexivity. Qed.

Lemma handleGallery_get_after (collection : list Doc)
    (limitRaw : option jsstring) (cursorRaw : jsstring) (c : N) :
  ObjectId_parse (trim cursorRaw) = Some c →
  handleGallery_get collection limitRaw (Some cursorRaw)
  = pagedRead collection (effectiveLimit limitRaw) (Some c).
Proof.
  intros Hparse. unfold handleGallery_get, wantsPagination.
  change (trimmedCursor (Some cursorRaw)) with (trim cursorRaw). rewrite Hparse.
  assert (truthy (Some (trim cursorRaw)) = true) as ->.
  { unfold ObjectId_parse, ObjectId_isValid in Hparse.
    destruct (trim cursorRaw); [|done].
    by rewrite bool_decide_eq_false_2 in Hparse. }
  by rewrite orb_true_r.
Qed.

(** The summary of the page the client builds from a paginated reply. *)
Lemma pageSummary_paged limit collection z below :
  let found := _id <$> findByIdDesc below (Z.to_nat (z + 1)) collection in
  let more := bool_decide (Z.of_nat (length found) > z) in
  let page := if more then take (Z.to_nat z) found else found in
  pageSummary
    (Gallery.fetchGalleryPage_reply limit (galleryBody (pagedRead collection z below)))
  = Some (ObjectId_toString <$> page, more,
          or_else (if more then ObjectId_toString <$> last page else None) None).
Proof.
  intros found more page.
  destruct (pagedRead_keys collection z below) as (items & -> & Hids).
  simpl. by rewrite Hids.
Qed.

(** C6: with a store whose documents have exactly the keys 5, 4, 3, 2 and 1,
    in whatever order it holds them, and pages of two: the first page shows 5
    and 4, says that more remain and gives 4 as the next cursor; the page
    after cursor 4 shows 3 and 2, says that more remain and gives 2; the page
    after cursor 2 shows 1, says that no more remain and gives no cursor.
    Ids and cursors are the hexadecimal strings of the keys. *)
Theorem keyset_pagination_scenario (store : list Doc)
    (Hkeys : _id <$> store ≡ₚ [5; 4; 3; 2; 1]%N) :
  let oid := ObjectId_toString in
  pageSummary (fetchPage store None 2)
  = Some (oid <$> [5; 4]%N, true, Some (oid 4%N))
  ∧ pageSummary (fetchPage store (Some (oid 4%N)) 2)
    = Some (oid <$> [3; 2]%N, true, Some (oid 2%N))
  ∧ pageSummary (fetchPage store (Some (oid 2%N)) 2)
    = Some (oid <$> [1]%N, false, None).
Proof.
  intros oid.
  assert (Hfound : ∀ below,
    Sorted keyDesc (match below with
                    | Some c => filter (λ k, (k < c)%N) [5; 4; 3; 2; 1]%N
                    | None => [5; 4; 3; 2; 1]%N
                    end) →
    _id <$> findByIdDesc below 3 store
    = take 3 (match below with
              | Some c => filter (λ k, (k < c)%N) [5; 4; 3; 2; 1]%N
              | None => [5; 4; 3; 2; 1]%N
              end)).
  { intros below. by apply findByIdDesc_keys. }
  assert (Hsorted : ∀ l : list N, bool_decide (Sorted keyDesc l) = true →
                                  Sorted keyDesc l).
  { intros l H. by apply bool_decide_eq_true in H. }
  split_and!.
  - unfold fetchPage.
    change (Gallery.fetchGalleryPage_query None 2)
      with (Gallery.mkQuery (Some (js "2")) None).
    cbn [Gallery.q_limit Gallery.q_cursor].
    rewrite handleGallery_get_first.
    change (effectiveLimit (Some (js "2"))) with 2.
    rewrite pageSummary_paged. change (Z.to_nat (2 + 1)) with 3%nat.
    rewrite (Hfound None) by (apply Hsorted; vm_compute; reflexivity).
    reflexivity.
  - unfold fetchPage.
    change (Gallery.fetchGalleryPage_query (Some (oid 4%N)) 2)
      with (Gallery.mkQuery (Some (js "2")) (Some (oid 4%N))).
    cbn [Gallery.q_limit Gallery.q_cursor].
    rewrite (handleGallery_get_after _ _ _ 4%N) by (vm_compute; reflexivity).
    change (effectiveLimit (Some (js "2"))) with 2.
    rewrite pageSummary_paged. change (Z.to_nat (2 + 1)) with 3%nat.
    rewrite (Hfound (Some 4%N)) by (apply Hsorted; vm_compute; reflexivity).
    reflexivity.
  - unfold fetchPage.
    change (Gallery.fetchGalleryPage_query (Some (oid 2%N)) 2)
      with (Gallery.mkQuery (Some (js "2")) (Some (oid 2%N))).
    cbn [Gallery.q_limit Gallery.q_cursor].
    rewrite (handleGallery_get_after _ _ _ 2%N) by (vm_compute; reflexivity).
    change (effectiveLimit (Some (js "2"))) with 2.
    rewrite pageSummary_paged. change (Z.to_nat (2 + 1)) with 3%nat.
    rewrite (Hfound (Some 2%N)) by (apply Hsorted; vm_compute; reflexivity).
    reflexivity.
Qed.

Lemma keyset_pagination_scenario_witness :
  let store := Scenario.docOf <$> [3; 5; 1; 4; 2]%N in
  _id <$> store ≡ₚ [5; 4; 3; 2; 1]%N
  ∧ pageSummary (fetchPage store (Some (ObjectId_toString 4)) 2)
    = Some (ObjectId_toString <$> [3; 2]%N, true, Some (ObjectId_toString 2)).
Proof.
  intros store.
  assert (Hkeys : _id <$> store ≡ₚ [5; 4; 3; 2; 1]%N).
  { apply (bool_decide_unpack _). vm_compute. exact I. }
  split; [exact Hkeys|].
  apply (keyset_pagination_scenario store Hkeys).
Defined.

(** *** ObjectId strings *)

Lemma hexValue_hexLower (d : N) : (d < 16)%N → hexValue (hexLower d) = Some d.
Proof.
  intros H.
  assert (d = 0 ∨ d = 1 ∨ d = 2 ∨ d = 3 ∨ d = 4 ∨ d = 5 ∨ d = 6 ∨ d = 7
          ∨ d = 8 ∨ d = 9 ∨ d = 10 ∨ d = 11 ∨ d = 12 ∨ d = 13 ∨ d = 14
          ∨ d = 15)%N as Hcases by lia.
  repeat (destruct Hcases as [-> | Hcases]; [reflexivity|]). by subst.
Qed.

Lemma hexDigits_length (n : nat) (v : N) : length (hexDigits n v) = n.
Proof. induction n as [|n IH]; [done|]. simpl. by rewrite IH. Qed.

Lemma hexDigits_hex (n : nat) (v : N) :
  forallb (λ c, bool_decide (is_Some (hexValue c))) (hexDigits n v) = true.
Proof.
  induction n as [|n IH]; [done|]. simpl. rewrite IH, andb_true_r.
  apply bool_decide_eq_true. rewrite hexValue_hexLower; [done|].
  apply N.mod_lt. lia.
Qed.

(** Reading the digits [hexDigits] writes gives the number back, below
    [16 ^ n]. *)
Lemma hexDigits_value (n : nat) (v : N) : ∀ acc : N,
  foldl (λ a c, 16 * a + default 0 (hexValue c))%N acc (hexDigits n v)
  = (acc * 16 ^ N.of_nat n + v mod 16 ^ N.of_nat n)%N.
Proof.
  induction n as [|n IH]; intros acc.
  { simpl. rewrite N.mod_1_r. lia. }
  cbn [hexDigits foldl]. rewrite IH.
  rewrite hexValue_hexLower by (apply N.mod_lt; lia). simpl default.
  rewrite Nat2N.inj_succ, N.pow_succ_r'.
  rewrite (N.mul_comm 16 (16 ^ N.of_nat n)).
  rewrite (N.Div0.mod_mul_r v (16 ^ N.of_nat n) 16). lia.
Qed.

(** An [ObjectId] is read back from its string. *)
Lemma ObjectId_parse_toString (v : N) :
  (v < 2 ^ 96)%N → ObjectId_parse (ObjectId_toString v) = Some v.
Proof.
  intros Hv. unfold ObjectId_parse, ObjectId_isValid, ObjectId_toString.
  rewrite hexDigits_length, hexDigits_hex.
  rewrite bool_decide_eq_true_2 by done. cbn [andb].
  rewrite hexDigits_value. f_equal.
  change (16 ^ N.of_nat 24)%N with (2 ^ 96)%N.
  rewrite N.mod_small by done. lia.
Qed.

(** The DELETE of an id the collection does not hold is answered with the
    404 the client reads as [Scenario.notFound]; the collection is left as
    it is. *)
Lemma delete_unknown_id (collection : list Doc) (oid : N) :
  (oid < 2 ^ 96)%N → Forall (λ d, _id d ≠ oid) collection →
  handleGallery_delete collection (Some (ObjectId_toString oid))
  = (JsonError 404 (js "Not found"), collection)
  ∧ deleteBody
      (handleGallery_delete collection (Some (ObjectId_toString oid))).1
    = Scenario.notFound.
Proof.
  intros Hoid Hno.
  assert (handleGallery_delete collection (Some (ObjectId_toString oid))
          = (JsonError 404 (js "Not found"), collection)) as ->; [|done].
  unfold handleGallery_delete.
  pose proof (ObjectId_parse_toString oid Hoid) as Hparse.
  destruct (ObjectId_toString oid) as [|c r]; [done|]. rewrite Hparse.
  by rewrite (proj2 (list_find_None (λ d, _id d = oid) collection) Hno).
Qed.

(** The DELETE of an id the collection holds removes one document with that
    id and is answered with the id. *)
Lemma delete_known_id (collection : list Doc) (oid : N) :
  (oid < 2 ^ 96)%N → Exists (λ d, _id d = oid) collection →
  ∃ i d,
    collection !! i = Some d ∧ _id d = oid
    ∧ handleGallery_delete collection (Some (ObjectId_toString oid))
      = (JsonDeleted (ObjectId_toString oid), delete i collection).
Proof.
  intros Hoid Hex.
  pose proof (ObjectId_parse_toString oid Hoid) as Hparse.
  apply Exists_exists in Hex as (d & Hd & Hid).
  destruct (list_find_elem_of (λ d, _id d = oid) collection d Hd Hid)
    as [[i d'] Hfind].
  apply list_find_Some in Hfind as Hspec. destruct Hspec as (Hi & Hid' & _).
  exists i, d'. split_and!; [done..|].
  unfold handleGallery_delete.
  destruct (ObjectId_toString oid) as [|c r]; [done|].
  by rewrite Hparse, Hfind.
Qed.

(** *** The parameters of a paginated read *)

Lemma digitValue_digit (d : N) :
  (d < 10)%N → digitValue (48 + d) = Some (Z.of_N d).
Proof.
  intros H. unfold digitValue.
  replace ((48 <=? 48 + d)%N && (48 + d <=? 57)%N) with true; [f_equal; lia|].
  symmetry. apply andb_true_iff. split; apply N.leb_le; lia.
Qed.

(** Reading the digits [digitsOf] writes gives the number back. *)
Lemma parseDigits_digitsOf (fuel : nat) : ∀ (n : N) (rest : jsstring),
  (n < 10 ^ N.of_nat (S fuel))%N →
  ∃ k : Z, 0 ≤ k ∧ ∀ acc,
    parseDigits acc (digitsOf (S fuel) n rest)
    = parseDigits (acc * 10 ^ k + Z.of_N n) rest.
Proof.
  induction fuel as [|fuel IH]; intros n rest Hn.
  - exists 1. split; [lia|]. intros acc. simpl.
    assert (n < 10)%N as Hlt by (simpl in Hn; lia).
    apply N.ltb_lt in Hlt as Hb. rewrite Hb.
    rewrite N.mod_small by lia. cbn [parseDigits].
    rewrite digitValue_digit by lia. f_equal. lia.
  - change (digitsOf (S (S fuel)) n rest)
      with (if (n <? 10)%N then (48 + n mod 10)%N :: rest
            else digitsOf (S fuel) (n / 10)%N ((48 + n mod 10)%N :: rest)).
    destruct (n <? 10)%N eqn:Hb.
    + apply N.ltb_lt in Hb. exists 1. split; [lia|]. intros acc.
      rewrite N.mod_small by lia. cbn [parseDigits].
      rewrite digitValue_digit by lia. f_equal. lia.
    + apply N.ltb_ge in Hb.
      destruct (IH (n / 10)%N ((48 + n mod 10)%N :: rest)) as (k & Hk & IHk).
      { apply N.Div0.div_lt_upper_bound.
        rewrite Nat2N.inj_succ, N.pow_succ_r' in Hn. lia. }
      exists (k + 1). split; [lia|]. intros acc. rewrite IHk.
      cbn [parseDigits]. rewrite digitValue_digit by (apply N.mod_lt; lia).
      f_equal. rewrite Z.pow_add_r by lia.
      pose proof (N.Div0.div_mod n 10) as Hdm.
      assert (Z.of_N n = 10 * Z.of_N (n / 10) + Z.of_N (n mod 10)) by lia.
      lia.
Qed.

Lemma digitsOf_head (fuel : nat) : ∀ (n : N) (rest : jsstring),
  ∃ d r, (d < 10)%N ∧ digitsOf (S fuel) n rest = (48 + d)%N :: r.
Proof.
  induction fuel as [|fuel IH]; intros n rest.
  - simpl. exists (n mod 10)%N. destruct (n <? 10)%N; eexists;
      (split; [apply N.mod_lt; lia | done]).
  - change (digitsOf (S (S fuel)) n rest)
      with (if (n <? 10)%N then (48 + n mod 10)%N :: rest
            else digitsOf (S fuel) (n / 10)%N ((48 + n mod 10)%N :: rest)).
    destruct (n <? 10)%N; [|apply IH].
    exists (n mod 10)%N, rest. split; [apply N.mod_lt; lia | done].
Qed.

Lemma digit_not_whiteSpace (d : N) : (d < 10)%N → isWhiteSpace (48 + d) = false.
Proof.
  intros H.
  assert (d = 0 ∨ d = 1 ∨ d = 2 ∨ d = 3 ∨ d = 4 ∨ d = 5 ∨ d = 6 ∨ d = 7
          ∨ d = 8 ∨ d = 9)%N as Hcases by lia.
  repeat (destruct Hcases as [-> | Hcases]; [reflexivity|]). by subst.
Qed.

(** [parseInt(String(n), 10)] is [n]. *)
Lemma parseInt10_stringOfN (n : N) : parseInt10 (stringOfN n) = Some (Z.of_N n).
Proof.
  unfold stringOfN.
  destruct (digitsOf_head (N.to_nat (N.log2 n)) n []) as (d & r & Hd & Hhead).
  destruct (parseDigits_digitsOf (N.to_nat (N.log2 n)) n []) as (k & Hk & Hparse).
  { rewrite Nat2N.inj_succ, N2Nat.id.
    destruct (decide (n = 0)%N) as [-> | Hn0]; [done|].
    pose proof (N.log2_spec n) as [_ Hlog]; [lia|].
    eapply N.lt_le_trans; [exact Hlog|].
    apply N.pow_le_mono_l. lia. }
  specialize (Hparse 0). rewrite Hhead in Hparse.
  unfold parseInt10. rewrite Hhead.
  cbn [trimStart]. rewrite digit_not_whiteSpace by done.
  assert ((48 + d =? 45)%N = false) as -> by (apply N.eqb_neq; lia).
  assert ((48 + d =? 43)%N = false) as -> by (apply N.eqb_neq; lia).
  rewrite digitValue_digit by done. rewrite Hparse. simpl. f_equal. lia.
Qed.


(** The limit written as a decimal numeral is read back and clamped. *)
Lemma effectiveLimit_numeral (n : N) :
  Z.of_N n < 2 ^ 1024 - 2 ^ 970 →
  effectiveLimit (Some (stringOfN n)) = Z.max 1 (Z.min (Z.of_N n) 200).
Proof.
  intros Hn. unfold effectiveLimit.
  change (default [] (Some (stringOfN n))) with (stringOfN n).
  rewrite parseInt10_stringOfN.
  assert (numberIsFinite (Z.of_N n) = true) as ->; [|done].
  unfold numberIsFinite. apply Z.ltb_lt. lia.
Qed.




End ServerFacts.

(** ** The JWT helpers *)

Module JwtFacts.
Import Jwt.

Lemma btoa_wide (s : jsstring) (c : N) : c ∈ s → (0xFF < c)%N → btoa s = None.
Proof.
  intros Hin Hc. unfold btoa.
  destruct (forallb _ s) eqn:Hall; [|done].
  rewrite forallb_forall in Hall. apply list_elem_of_In in Hin.
  apply Hall, N.leb_le in Hin. lia.
Qed.

Lemma escapeUnit_wide (c : N) : (0xFF < c)%N → escapeUnit c = [c].
Proof.
  intros Hc. unfold escapeUnit.
  repeat (match goal with
          | |- context [(c =? ?k)%N] =>
              replace (c =? k)%N with false by (symmetry; apply N.eqb_neq; lia)
          end).
  replace (c <? 32)%N with false by (symmetry; apply N.ltb_ge; lia). done.
Qed.

(** A wide code unit of a string is in its quoted JSON form. *)
Lemma quoteBody_wide (c : N) (n : nat) : ∀ s : jsstring,
  (length s ≤ n)%nat → wide c → c ∈ s → c ∈ quoteBody s.
Proof.
  induction n as [|n IH]; intros s Hlen [Hc Hns] Hin.
  { destruct s; [by apply elem_of_nil in Hin | simpl in Hlen; lia]. }
  destruct s as [|x r]; [by apply elem_of_nil in Hin|].
  simpl in Hlen. cbn [quoteBody].
  destruct ((55296 <=? x)%N && (x <=? 56319)%N) eqn:Hhigh.
  - apply andb_true_iff in Hhigh as [H1 H2].
    apply N.leb_le in H1, H2.
    apply elem_of_cons in Hin as [-> | Hin]; [lia|].
    destruct r as [|d r']; [by apply elem_of_nil in Hin|].
    destruct ((56320 <=? d)%N && (d <=? 57343)%N) eqn:Hlow.
    + apply andb_true_iff in Hlow as [H3 H4]. apply N.leb_le in H3, H4.
      apply elem_of_cons in Hin as [-> | Hin]; [lia|].
      do 2 right. apply IH; [simpl in Hlen; lia | done | done].
    + apply elem_of_app. right. apply IH; [lia | done | done].
  - destruct ((56320 <=? x)%N && (x <=? 57343)%N) eqn:Hlow.
    + apply andb_true_iff in Hlow as [H3 H4]. apply N.leb_le in H3, H4.
      apply elem_of_cons in Hin as [-> | Hin]; [lia|].
      apply elem_of_app. right. apply IH; [lia | done | done].
    + apply elem_of_cons in Hin as [-> | Hin].
      * rewrite escapeUnit_wide by done. by left.
      * apply elem_of_app. right. apply IH; [lia | done | done].
Qed.

Lemma stringifyFields_wide (c : N) (k v : jsstring) (obj : JObject) :
  wide c → c ∈ v → (k, JStr v) ∈ obj → c ∈ stringifyFields obj.
Proof.
  intros Hw Hc. induction obj as [|[k' v'] r IH]; intros Hin.
  { by apply elem_of_nil in Hin. }
  assert (Hhere : (k', v') = (k, JStr v) →
                  c ∈ quoteJSONString k' ++ 58%N :: stringifyValue v').
  { intros [= -> ->]. apply elem_of_app. right. right.
    cbn [stringifyValue]. unfold quoteJSONString. right.
    apply elem_of_app. left. by apply (quoteBody_wide c (length v)). }
  apply elem_of_cons in Hin as [Heq | Hin].
  - symmetry in Heq. specialize (Hhere Heq).
    destruct r as [|f r]; [exact Hhere|].
    change (stringifyFields ((k', v') :: f :: r))
      with (quoteJSONString k' ++ 58%N :: stringifyValue v'
            ++ 44%N :: stringifyFields (f :: r)).
    apply elem_of_app in Hhere as [H | H]; [apply elem_of_app; by left|].
    apply elem_of_app. right.
    apply elem_of_cons in H as [-> | H]; [by left|]. right.
    apply elem_of_app. by left.
  - specialize (IH Hin). destruct r as [|f r]; [by apply elem_of_nil in Hin|].
    change (stringifyFields ((k', v') :: f :: r))
      with (quoteJSONString k' ++ 58%N :: stringifyValue v'
            ++ 44%N :: stringifyFields (f :: r)).
    apply elem_of_app. right. right. apply elem_of_app. right. by right.
Qed.

Lemma setField_keeps (k k' : jsstring) (v v' : JValue) (obj : JObject) :
  k ≠ k' → (k, v) ∈ obj → (k, v) ∈ setField k' v' obj.
Proof.
  intros Hne. induction obj as [|[a b] r IH]; intros Hin.
  { by apply elem_of_nil in Hin. }
  cbn [setField]. case_bool_decide as Ha.
  - apply elem_of_cons in Hin as [[= <- <-] | Hin]; [done | by right].
  - apply elem_of_cons in Hin as [<- | Hin]; [by left | right; by apply IH].
Qed.

(** *** Base64 *)

(** Arithmetic on bytes and six-bit digits: [lia] after the divisions and
    remainders are turned into equations. *)
#[local] Ltac byte_arith :=
  cbv beta in *; zify; Z.to_euclidean_division_equations; lia.

(** Induction three bytes at a time. *)
Lemma triples_ind (P : list N → Prop) :
  P [] → (∀ a, P [a]) → (∀ a b, P [a; b]) →
  (∀ a b c r, P r → P (a :: b :: c :: r)) → ∀ l, P l.
Proof.
  intros H0 H1 H2 H3 l.
  assert (P l ∧ (∀ a, P (a :: l)) ∧ (∀ a b, P (a :: b :: l))) as [? _]; [|done].
  induction l as [|x l (IH0 & IH1 & IH2)]; [by auto|].
  split_and!; [apply IH1 | intros a; apply IH2 | intros a b; by apply H3].
Qed.

Lemma base64Digits_small (bs : list N) :
  bytes bs → Forall (λ d, d < 64)%N (base64Digits bs).
Proof.
  unfold bytes. induction bs as [|a|a b|a b c r IH] using triples_ind; intros H.
  - constructor.
  - apply Forall_cons in H as [Ha _]. cbn [base64Digits].
    repeat (apply Forall_cons; split); [byte_arith.. | by apply Forall_nil].
  - apply Forall_cons in H as [Ha H]. apply Forall_cons in H as [Hb _].
    cbn [base64Digits].
    repeat (apply Forall_cons; split); [byte_arith.. | by apply Forall_nil].
  - apply Forall_cons in H as [Ha H]. apply Forall_cons in H as [Hb H].
    apply Forall_cons in H as [Hc H]. cbn [base64Digits].
    repeat (apply Forall_cons; split); [byte_arith.. | by apply IH].
Qed.

Lemma unbase64_base64Digits (bs : list N) :
  bytes bs → unbase64 (base64Digits bs) = bs.
Proof.
  unfold bytes. induction bs as [|a|a b|a b c r IH] using triples_ind; intros H.
  - done.
  - apply Forall_cons in H as [Ha _]. simpl. f_equal. byte_arith.
  - apply Forall_cons in H as [Ha H]. apply Forall_cons in H as [Hb _]. simpl.
    f_equal; [byte_arith|]. f_equal. byte_arith.
  - apply Forall_cons in H as [Ha H]. apply Forall_cons in H as [Hb H].
    apply Forall_cons in H as [Hc H]. cbn [base64Digits unbase64].
    rewrite IH by done.
    f_equal; [byte_arith|]. f_equal; [byte_arith|]. f_equal. byte_arith.
Qed.

Lemma base64Digits_length (bs : list N) :
  (length (base64Digits bs) `mod` 4 = 0 ∨ length (base64Digits bs) `mod` 4 = 2
   ∨ length (base64Digits bs) `mod` 4 = 3)%nat.
Proof.
  induction bs as [|a|a b|a b c r IH] using triples_ind; simpl length.
  - by left.
  - right. by left.
  - by do 2 right.
  - replace (S (S (S (S (length (base64Digits r))))))
      with (length (base64Digits r) + 1 * 4)%nat by lia.
    by rewrite Nat.Div0.mod_add.
Qed.

(** Case analysis on the comparisons of a character function. *)
#[local] Ltac char_cases :=
  repeat match goal with
         | |- context [if ?b then _ else _] => destruct b eqn:?
         end;
  repeat match goal with
         | H : (_ && _) = true |- _ => apply andb_true_iff in H as [? ?]
         | H : (_ && _) = false |- _ => apply andb_false_iff in H as [? | ?]
         | H : (_ <=? _)%N = true |- _ => apply N.leb_le in H
         | H : (_ <=? _)%N = false |- _ => apply N.leb_gt in H
         | H : (_ <? _)%N = true |- _ => apply N.ltb_lt in H
         | H : (_ <? _)%N = false |- _ => apply N.ltb_ge in H
         | H : (_ =? _)%N = true |- _ => apply N.eqb_eq in H
         | H : (_ =? _)%N = false |- _ => apply N.eqb_neq in H
         end.

Lemma b64char_isB64 (n : N) : (n < 64)%N → isB64 (b64char n).
Proof. intros H. unfold isB64, b64char. char_cases; lia. Qed.

Lemma b64value_b64char (n : N) : (n < 64)%N → b64value (b64char n) = Some n.
Proof.
  intros H. unfold b64char. char_cases;
    unfold b64value; char_cases; try (f_equal; lia); lia.
Qed.

Lemma isB64_not_whitespace (c : N) : isB64 c → isAsciiWhitespace c = false.
Proof.
  intros H. unfold isAsciiWhitespace. apply bool_decide_eq_false.
  unfold isB64 in H. rewrite !elem_of_cons, elem_of_nil. lia.
Qed.

Lemma isB64_url (c : N) :
  isB64 c →
  fromUrlChar (toUrlChar c) = c ∧ toUrlChar c ≠ 61%N ∧ toUrlChar c ≠ 46%N
  ∧ c ≠ 61%N.
Proof.
  intros H. unfold isB64 in H. unfold toUrlChar. char_cases;
    unfold fromUrlChar; char_cases; lia.
Qed.

Lemma mapM_b64value (ds : list N) :
  Forall (λ d, d < 64)%N ds → mapM b64value (b64char <$> ds) = Some ds.
Proof.
  induction 1 as [|d ds Hd _ IH]; [done|].
  rewrite fmap_cons. cbn [mapM]. rewrite b64value_b64char by done.
  simpl. by rewrite IH.
Qed.

Lemma filter_all {A} (P : A → Prop) `{!∀ x, Decision (P x)} (l : list A) :
  Forall P l → filter P l = l.
Proof.
  induction 1 as [|x l Hx _ IH]; [done|].
  by rewrite filter_cons_True, IH.
Qed.

Lemma dropEquals_replicate (k : nat) (l : jsstring) :
  dropEquals (replicate k 61%N ++ l) = dropEquals l.
Proof. induction k as [|k IH]; [done|]. simpl. exact IH. Qed.

Lemma dropEquals_none (l : jsstring) :
  Forall (λ c, c ≠ 61%N) l → dropEquals l = l.
Proof.
  destruct 1 as [|c l Hc _]; [done|]. simpl.
  by apply N.eqb_neq in Hc as ->.
Qed.

(** The padding of a string of base64 digits is one or two [=], or
    nothing. *)
Lemma padToFour_cases (s : jsstring) :
  (length s `mod` 4 = 0 ∨ length s `mod` 4 = 2 ∨ length s `mod` 4 = 3)%nat →
  (length (padToFour s) `mod` 4 = 0)%nat
  ∧ (padToFour s = s ∨ (padToFour s = s ++ [61%N] ∧ s ≠ [])
     ∨ padToFour s = s ++ [61%N; 61%N]).
Proof.
  intros H. unfold padToFour. rewrite length_app, length_replicate.
  destruct H as [H | [H | H]]; rewrite H; simpl replicate;
    (split; [by rewrite Nat.Div0.add_mod, H|]).
  - left. by rewrite app_nil_r.
  - by do 2 right.
  - right. left. split; [done | by destruct s].
Qed.

Lemma stripPadding_padToFour (s : jsstring) :
  Forall (λ c, c ≠ 61%N) s →
  (length s `mod` 4 = 0 ∨ length s `mod` 4 = 2 ∨ length s `mod` 4 = 3)%nat →
  stripPadding (padToFour s) = s.
Proof.
  intros Hne Hlen. destruct (padToFour_cases s Hlen) as [Hmod Hcases].
  assert (Hlast : ∀ d r, reverse s = d :: r → (d =? 61)%N = false).
  { intros d r Hr. apply N.eqb_neq.
    assert (d ∈ s) as Hd by (apply elem_of_reverse; rewrite Hr; by left).
    by apply (proj1 (Forall_forall _ _) Hne). }
  unfold stripPadding. rewrite bool_decide_eq_true_2 by done.
  destruct Hcases as [-> | [[-> Hs] | ->]].
  - destruct (reverse s) as [|c [|d r]] eqn:Hr; [done | |].
    + by rewrite (Hlast c []).
    + by rewrite (Hlast c (d :: r)).
  - rewrite reverse_app. simpl.
    destruct (reverse s) as [|d r] eqn:Hr.
    { apply (f_equal reverse) in Hr. rewrite reverse_involutive in Hr. done. }
    rewrite (Hlast d r) by done. by rewrite <- Hr, reverse_involutive.
  - rewrite reverse_app. simpl. by rewrite reverse_involutive.
Qed.

(** [atob] reads back the padded digits of a byte string. *)
Lemma atob_base64 (bs : list N) : bytes bs → atob (base64 bs) = Some bs.
Proof.
  intros Hb. unfold atob, base64.
  set (core := b64char <$> base64Digits bs).
  pose proof (base64Digits_small bs Hb) as Hsmall.
  assert (Hcore : Forall isB64 core).
  { subst core. apply Forall_fmap. eapply Forall_impl; [exact Hsmall|].
    intros d Hd. by apply b64char_isB64. }
  assert (Hne : Forall (λ c, c ≠ 61%N) core).
  { eapply Forall_impl; [exact Hcore|]. intros c Hc. by apply isB64_url. }
  assert (Hlen : (length core `mod` 4 = 0 ∨ length core `mod` 4 = 2
                  ∨ length core `mod` 4 = 3)%nat).
  { subst core. rewrite length_fmap. apply base64Digits_length. }
  rewrite filter_all.
  2: { unfold padToFour. apply Forall_app. split.
       - eapply Forall_impl; [exact Hcore|]. intros c. apply isB64_not_whitespace.
       - by apply Forall_replicate. }
  rewrite stripPadding_padToFour by done.
  rewrite bool_decide_eq_false_2 by lia.
  subst core. rewrite mapM_b64value by done. simpl.
  by rewrite unbase64_base64Digits.
Qed.

Lemma toUrlAlphabet_base64 (bs : list N) :
  bytes bs →
  toUrlAlphabet (base64 bs) = toUrlChar <$> (b64char <$> base64Digits bs).
Proof.
  intros Hb. unfold toUrlAlphabet, base64, padToFour.
  set (core := b64char <$> base64Digits bs).
  rewrite fmap_app, fmap_replicate, reverse_app, reverse_replicate.
  change (toUrlChar 61) with 61%N.
  rewrite dropEquals_replicate, dropEquals_none; [by rewrite reverse_involutive|].
  apply Forall_reverse, Forall_fmap. subst core. apply Forall_fmap.
  eapply Forall_impl; [exact (base64Digits_small bs Hb)|].
  intros d Hd. simpl.
  by destruct (isB64_url (b64char d) (b64char_isB64 d Hd)) as (_ & ? & _).
Qed.

(** [base64UrlDecode] reads back what [base64UrlEncode] writes, and what it
    writes holds no dot. *)
Lemma base64Url_round_trip (bs : list N) :
  bytes bs →
  ∃ enc,
    base64UrlEncode bs = Some enc
    ∧ base64UrlDecode enc = Some bs
    ∧ 46%N ∉ enc.
Proof.
  intros Hb. exists (toUrlChar <$> (b64char <$> base64Digits bs)).
  assert (Hcore : Forall isB64 (b64char <$> base64Digits bs)).
  { apply Forall_fmap. eapply Forall_impl; [exact (base64Digits_small bs Hb)|].
    intros d Hd. by apply b64char_isB64. }
  split_and!.
  - unfold base64UrlEncode, btoa.
    assert (forallb (λ c, c <=? 255)%N bs = true) as ->.
    { apply forallb_forall. intros c Hc. apply list_elem_of_In in Hc.
      apply N.leb_le. pose proof (proj1 (Forall_forall _ _) Hb c Hc). simpl in *.
      lia. }
    simpl. by rewrite toUrlAlphabet_base64.
  - unfold base64UrlDecode.
    assert (fromUrlChar <$> (toUrlChar <$> (b64char <$> base64Digits bs))
            = b64char <$> base64Digits bs) as ->.
    { rewrite <- (list_fmap_compose toUrlChar fromUrlChar).
      rewrite <- (list_fmap_id (b64char <$> base64Digits bs)) at 2.
      apply Forall_fmap_ext. eapply Forall_impl; [exact Hcore|].
      intros c Hc. simpl. by apply isB64_url. }
    by apply atob_base64.
  - intros Hin. apply list_elem_of_fmap in Hin as (c & Heq & Hc).
    pose proof (proj1 (Forall_forall _ _) Hcore c Hc) as HB.
    apply isB64_url in HB as (_ & _ & Hdot & _). by rewrite <- Heq in Hdot.
Qed.

(** *** Splitting a token and decoding ASCII *)

Lemma splitOn_none (sep : N) (s : jsstring) : sep ∉ s → splitOn sep s = [s].
Proof.
  induction s as [|c r IH]; intros Hno; [done|]. cbn [splitOn].
  rewrite bool_decide_eq_false_2 by (intros ->; apply Hno; by left).
  rewrite IH; [done|]. intros Hin. apply Hno. by right.
Qed.

Lemma splitOn_app (sep : N) (a b : jsstring) :
  sep ∉ a → splitOn sep (a ++ sep :: b) = a :: splitOn sep b.
Proof.
  induction a as [|c r IH]; intros Hno.
  { simpl. by rewrite bool_decide_eq_true_2. }
  cbn [app splitOn].
  rewrite bool_decide_eq_false_2 by (intros ->; apply Hno; by left).
  rewrite IH; [done|]. intros Hin. apply Hno. by right.
Qed.

Lemma utf8Decode_ascii (bs : list N) :
  Forall (λ b, b < 128)%N bs → utf8Decode utf8Idle bs = bs.
Proof.
  induction 1 as [|b bs Hb _ IH]; [done|]. cbn [utf8Decode utf8Idle u_needed].
  unfold utf8Start. replace (b <=? 127)%N with true by (symmetry; apply N.leb_le; lia).
  simpl. by rewrite IH.
Qed.

(** [TextDecoder] reads ASCII bytes as the same code units. *)
Lemma textDecode_ascii (bs : list N) :
  Forall (λ b, b < 128)%N bs → textDecode bs = bs.
Proof.
  intros H. unfold textDecode. rewrite utf8Decode_ascii by done.
  assert (match bs with
          | p :: r => if (p =? 65279)%N then r else bs
          | [] => bs
          end = bs) as ->.
  { destruct H as [|b bs Hb _]; [done|].
    by replace (b =? 65279)%N with false by (symmetry; apply N.eqb_neq; lia). }
  induction H as [|b bs Hb _ IH]; [done|]. rewrite fmap_cons. cbn [mjoin].
  unfold utf16OfCodePoint at 1.
  replace (b <? 65536)%N with true by (symmetry; apply N.ltb_lt; lia).
  simpl. by rewrite IH.
Qed.

Lemma ascii_bytes (s : jsstring) : Forall (λ b, b < 128)%N s → bytes s.
Proof. intros H. eapply Forall_impl; [exact H|]. intros b Hb. simpl in *. lia. Qed.

Lemma getField_setField (k : jsstring) (v : JValue) (obj : JObject) :
  getField k (setField k v obj) = Some v.
Proof.
  unfold getField. induction obj as [|[k' v'] r IH]; simpl.
  { by rewrite bool_decide_eq_true_2. }
  case_bool_decide as Hk; simpl.
  - by rewrite bool_decide_eq_true_2.
  - by rewrite bool_decide_eq_false_2.
Qed.

Lemma getField_setField_ne (k k' : jsstring) (v : JValue) (obj : JObject) :
  k ≠ k' → getField k (setField k' v obj) = getField k obj.
Proof.
  intros Hne. unfold getField. induction obj as [|[a b] r IH]; simpl.
  { by rewrite bool_decide_eq_false_2. }
  case_bool_decide as Ha; simpl.
  - subst a. by rewrite !bool_decide_eq_false_2.
  - case_bool_decide; [done | exact IH].
Qed.

(** *** Signing then verifying, for a payload whose JSON text is ASCII *)

Section RoundTrip.

Variable hmacSha256 : list N → list N → list N.
Variable JSON_parse : jsstring → option Parsed.
Variable stringToNumber : jsstring → option Z.

(** The platform's HMAC returns bytes. *)
Hypothesis hmac_bytes : ∀ key message, bytes (hmacSha256 key message).

(** The shape of a token made from a payload whose JSON text is ASCII:
    three parts without a dot, the second and third of which decode to the
    JSON text and to the HMAC of the first two. *)
Lemma jwtSign_ascii (payload : JObject) (secret : jsstring)
    (expiresInSeconds now : Z) :
  let fullPayload :=
    setField (js "exp") (JNum (now + expiresInSeconds))
      (setField (js "iat") (JNum now) payload) in
  Forall (λ c, c < 128)%N (JSON_stringify fullPayload) →
  ∃ h p sg,
    jwtSign hmacSha256 payload secret expiresInSeconds now
    = inr (h ++ 46%N :: p ++ 46%N :: sg)
    ∧ (46%N ∉ h) ∧ (46%N ∉ p) ∧ (46%N ∉ sg)
    ∧ base64UrlDecode p = Some (JSON_stringify fullPayload)
    ∧ base64UrlDecode sg
      = Some (hmacSha256 (textEncode secret) (textEncode (h ++ 46%N :: p))).
Proof.
  intros fullPayload Hascii. unfold jwtSign. fold fullPayload.
  destruct (base64Url_round_trip (JSON_stringify header)) as (h & Hh & _ & Hhd).
  { apply ascii_bytes. apply (bool_decide_unpack _). vm_compute. exact I. }
  destruct (base64Url_round_trip (JSON_stringify fullPayload))
    as (p & Hp & Hpdec & Hpd); [by apply ascii_bytes|].
  destruct (base64Url_round_trip
              (hmacSha256 (textEncode secret) (textEncode (h ++ 46%N :: p))))
    as (sg & Hsg & Hsgdec & Hsgd); [apply hmac_bytes|].
  exists h, p, sg. rewrite Hh, Hp, Hsg. simpl.
  split_and!; try done. by rewrite <- app_assoc.
Qed.

(** What [jwtVerify] does with such a token, up to the parsing of the
    payload. *)
Lemma jwtVerify_parts (h p sg secret text : jsstring) (now : Z) :
  46%N ∉ h → 46%N ∉ p → 46%N ∉ sg →
  payloadText p = Some text →
  base64UrlDecode sg
  = Some (hmacSha256 (textEncode secret) (textEncode (h ++ 46%N :: p))) →
  jwtVerify hmacSha256 JSON_parse stringToNumber
    (h ++ 46%N :: p ++ 46%N :: sg) secret now
  = match JSON_parse text with
    | None => inl SyntaxError
    | Some ParsedNull => inl TypeError
    | Some (ParsedObject obj) =>
        if expiredAt stringToNumber now (getField (js "exp") obj)
        then inl TokenExpired else inr (ParsedObject obj)
    | Some ParsedOther => inr ParsedOther
    end.
Proof.
  intros Hh Hp Hsg Htext Hdec. unfold jwtVerify.
  rewrite splitOn_app, splitOn_app, splitOn_none by done.
  rewrite Hdec, bool_decide_eq_true_2 by done. cbn [negb].
  by rewrite Htext.
Qed.

(** For a payload whose JSON text is ASCII and which [JSON.parse] reads
    back: the token [jwtSign] makes is accepted by [jwtVerify] with the same
    secret until the expiry time, and the payload returned has the fields of
    the original payload and [iat] and [exp]; after the expiry time
    [jwtVerify] throws 'Token expired'; and with a secret under which the
    HMAC of the signed text differs it throws 'Invalid signature'. *)
Lemma jwt_round_trip_ascii (payload : JObject) (secret : jsstring)
    (expiresInSeconds now : Z) :
  let fullPayload :=
    setField (js "exp") (JNum (now + expiresInSeconds))
      (setField (js "iat") (JNum now) payload) in
  Forall (λ c, c < 128)%N (JSON_stringify fullPayload) →
  JSON_parse (JSON_stringify fullPayload) = Some (ParsedObject fullPayload) →
  ∃ token,
    jwtSign hmacSha256 payload secret expiresInSeconds now = inr token
    ∧ (∀ later, later ≤ now + expiresInSeconds →
         jwtVerify hmacSha256 JSON_parse stringToNumber token secret later
         = inr (ParsedObject fullPayload))
    ∧ (∀ later, now + expiresInSeconds < later → now + expiresInSeconds ≠ 0 →
         jwtVerify hmacSha256 JSON_parse stringToNumber token secret later
         = inl TokenExpired)
    ∧ (∀ other later,
         (∀ message, hmacSha256 (textEncode other) message
                     ≠ hmacSha256 (textEncode secret) message) →
         jwtVerify hmacSha256 JSON_parse stringToNumber token other later
         = inl InvalidSignature)
    ∧ getField (js "iat") fullPayload = Some (JNum now)
    ∧ getField (js "exp") fullPayload = Some (JNum (now + expiresInSeconds))
    ∧ (∀ k v, (k, v) ∈ payload → k ≠ js "iat" → k ≠ js "exp" →
         (k, v) ∈ fullPayload).
Proof.
  intros fullPayload Hascii Hparse.
  destruct (jwtSign_ascii payload secret expiresInSeconds now Hascii)
    as (h & p & sg & Hsign & Hh & Hp & Hsg & Hpdec & Hsgdec).
  fold fullPayload in Hpdec.
  assert (Htext : payloadText p = Some (JSON_stringify fullPayload)).
  { unfold payloadText. rewrite Hpdec. simpl. by rewrite textDecode_ascii. }
  assert (Hexp : getField (js "exp") fullPayload
                 = Some (JNum (now + expiresInSeconds))).
  { apply getField_setField. }
  exists (h ++ 46%N :: p ++ 46%N :: sg). split_and!.
  - exact Hsign.
  - intros later Hlater.
    rewrite (jwtVerify_parts h p sg secret _ later Hh Hp Hsg Htext Hsgdec).
    rewrite Hparse, Hexp. unfold expiredAt.
    replace (now + expiresInSeconds <? later) with false
      by (symmetry; apply Z.ltb_ge; lia).
    by rewrite andb_false_r.
  - intros later Hlater Hnz.
    rewrite (jwtVerify_parts h p sg secret _ later Hh Hp Hsg Htext Hsgdec).
    rewrite Hparse, Hexp. unfold expiredAt.
    replace (now + expiresInSeconds <? later) with true
      by (symmetry; apply Z.ltb_lt; lia).
    replace (now + expiresInSeconds =? 0) with false
      by (symmetry; apply Z.eqb_neq; lia).
    done.
  - intros other later Hother. unfold jwtVerify.
    rewrite splitOn_app, splitOn_app, splitOn_none by done.
    rewrite Hsgdec. rewrite bool_decide_eq_false_2; [done|]. apply Hother.
  - unfold fullPayload. rewrite getField_setField_ne by discriminate.
    apply getField_setField.
  - exact Hexp.
  - intros k v Hin Hiat Hexp'. unfold fullPayload.
    by do 2 (apply setField_keeps; [done|]).
Qed.

End RoundTrip.

(** [jwtSign] throws for every payload with a string field that holds a
    wide code unit: [btoa] refuses the JSON text. *)
Lemma jwtSign_wide (hmacSha256 : list N → list N → list N) (payload : JObject)
    (k v : jsstring) (c : N) (secret : jsstring) (expiresInSeconds now : Z) :
  wide c → c ∈ v → (k, JStr v) ∈ payload → k ≠ js "iat" → k ≠ js "exp" →
  jwtSign hmacSha256 payload secret expiresInSeconds now
  = inl InvalidCharacterError.
Proof.
  intros Hw Hc Hin Hiat Hexp. unfold jwtSign.
  destruct (base64UrlEncode (JSON_stringify header)); [|done].
  assert (base64UrlEncode (JSON_stringify
            (setField (js "exp") (JNum (now + expiresInSeconds))
               (setField (js "iat") (JNum now) payload))) = None) as ->; [|done].
  unfold base64UrlEncode. rewrite (btoa_wide _ c); [done | | by destruct Hw].
  unfold JSON_stringify. right. apply elem_of_app. left.
  apply (stringifyFields_wide c k v); [done | done |].
  by do 2 (apply setField_keeps; [done|]).
Qed.

(** C10 at its failing inputs.  For the payload [{ user: '管理员' }],
    whatever the secret, the expiry and the time, [jwtSign] throws: the JSON
    text holds code units above 0xFF, which [btoa] refuses.  For the payload
    [{ user: 'é' }] a token is made, but its payload part is the Latin-1
    byte 0xE9, which is not UTF-8: the text [jwtVerify] decodes and parses
    holds U+FFFD in place of [é] and is not the JSON text that was signed. *)
Theorem jwt_round_trip_fails_beyond_ascii :
  (∀ hmacSha256 secret expiresInSeconds now,
     jwtSign hmacSha256 [(js "user", JStr [0x7BA1; 0x7406; 0x5458]%N)]
       secret expiresInSeconds now
     = inl InvalidCharacterError)
  ∧ (let fullPayload :=
       setField (js "exp") (JNum 1700003600)
         (setField (js "iat") (JNum 1700000000) [(js "user", JStr [0xE9%N])]) in
     ∃ payloadB64 text,
       base64UrlEncode (JSON_stringify fullPayload) = Some payloadB64
       ∧ payloadText payloadB64 = Some text
       ∧ text ≠ JSON_stringify fullPayload
       ∧ 0xFFFD%N ∈ text ∧ 0xE9%N ∉ text).
Proof.
  split.
  - intros hmacSha256 secret expiresInSeconds now.
    apply (jwtSign_wide _ _ (js "user") [0x7BA1; 0x7406; 0x5458]%N 0x7BA1%N).
    + split; lia.
    + by left.
    + by left.
    + discriminate.
    + discriminate.
  - intros fullPayload.
    destruct (base64UrlEncode (JSON_stringify fullPayload)) as [b64|] eqn:Hb;
      [|by vm_compute in Hb].
    destruct (payloadText b64) as [text|] eqn:Ht.
    2: { vm_compute in Hb. injection Hb as <-. by vm_compute in Ht. }
    exists b64, text. split_and!; [done | done | | |].
    all: vm_compute in Hb; injection Hb as <-; vm_compute in Ht;
      injection Ht as <-.
    + by vm_compute.
    + apply (bool_decide_unpack _). vm_compute. exact I.
    + apply (bool_decide_unpack _). vm_compute. exact I.
Qed.

End JwtFacts.

(** ** Tags and the masonry layout *)

(** ** Tags *)

Module TagsFacts.
Import Tags.

(** *** Trimming *)

Lemma trimStart_head (s : jsstring) (c : N) (r : jsstring) :
  trimStart s = c :: r → isWhiteSpace c = false.
Proof.
  induction s as [|a s IH]; [done|]. cbn [trimStart].
  destruct (isWhiteSpace a) eqn:Ha; [done|]. by intros [= <- _].
Qed.

Lemma trimStart_suffix (s : jsstring) : trimStart s `suffix_of` s.
Proof.
  induction s as [|a s IH]; [done|]. cbn [trimStart].
  destruct (isWhiteSpace a); [by apply suffix_cons_r | done].
Qed.

Lemma trimStart_id (s : jsstring) :
  (∀ c, head s = Some c → isWhiteSpace c = false) → trimStart s = s.
Proof.
  destruct s as [|a s]; [done|]. intros H. cbn [trimStart].
  by rewrite (H a).
Qed.

Lemma trimStart_blank (w s : jsstring) :
  Forall (λ c, isWhiteSpace c = true) w → trimStart (w ++ s) = trimStart s.
Proof.
  induction 1 as [|a w Ha _ IH]; [done|]. cbn [app trimStart]. by rewrite Ha.
Qed.

Lemma suffix_last {A} (l k : list A) :
  l `suffix_of` k → l ≠ [] → last l = last k.
Proof.
  intros [p ->] Hne. rewrite last_app. by destruct (last l) eqn:E;
    [|apply last_None in E].
Qed.

Lemma trim_elem_of (s : jsstring) (c : N) : c ∈ trim s → c ∈ s.
Proof.
  unfold trim. rewrite elem_of_reverse. intros H.
  pose proof (trimStart_suffix (reverse (trimStart s))) as [p1 Hp1].
  pose proof (trimStart_suffix s) as [p2 Hp2].
  assert (c ∈ reverse (trimStart s)) as Hc.
  { rewrite Hp1. apply elem_of_app. by right. }
  rewrite elem_of_reverse in Hc. rewrite Hp2. apply elem_of_app. by right.
Qed.

(** A trimmed string neither starts nor ends with white space. *)
Lemma trim_ends (s : jsstring) :
  (∀ c, head (trim s) = Some c → isWhiteSpace c = false)
  ∧ (∀ c, last (trim s) = Some c → isWhiteSpace c = false).
Proof.
  unfold trim. set (u := trimStart s). set (v := trimStart (reverse u)).
  split; intros c Hc.
  - rewrite head_reverse in Hc.
    assert (Hv : v ≠ []) by (intros E; by rewrite E in Hc).
    rewrite (suffix_last v (reverse u) (trimStart_suffix _) Hv) in Hc.
    rewrite last_reverse in Hc.
    destruct u as [|a u'] eqn:Hu; [done|]. injection Hc as <-.
    by apply (trimStart_head s a u').
  - rewrite last_reverse in Hc.
    destruct v as [|a v'] eqn:Hv; [done|]. injection Hc as <-.
    by apply (trimStart_head (reverse u) a v').
Qed.

(** A string that neither starts nor ends with white space is what is left
    of it when white space is put around it and trimmed. *)
Lemma trim_padded (w1 t w2 : jsstring) :
  Forall (λ c, isWhiteSpace c = true) w1 →
  Forall (λ c, isWhiteSpace c = true) w2 →
  (∀ c, head t = Some c → isWhiteSpace c = false) →
  (∀ c, last t = Some c → isWhiteSpace c = false) →
  t ≠ [] →
  trim (w1 ++ t ++ w2) = t.
Proof.
  intros H1 H2 Hh Hl Hne. unfold trim.
  rewrite trimStart_blank by done.
  rewrite (trimStart_id (t ++ w2)).
  2: { intros c Hc. apply Hh. by destruct t. }
  rewrite reverse_app, trimStart_blank by (by apply Forall_reverse).
  rewrite trimStart_id; [apply reverse_involutive|].
  intros c Hc. apply Hl. by rewrite head_reverse in Hc.
Qed.

(** *** Splitting *)

Lemma splitOn_nonempty (sep : N) (s : jsstring) : splitOn sep s ≠ [].
Proof.
  induction s as [|c r IH]; [done|]. cbn [splitOn].
  case_bool_decide; [done|]. by destruct (splitOn sep r).
Qed.

(** Splitting is compatible with joining two strings by the separator. *)
Lemma splitOn_join (sep : N) (a b : jsstring) :
  splitOn sep (a ++ sep :: b) = splitOn sep a ++ splitOn sep b.
Proof.
  induction a as [|c a IH]; cbn [app splitOn].
  { by rewrite bool_decide_eq_true_2. }
  case_bool_decide; [by rewrite IH|].
  rewrite IH. pose proof (splitOn_nonempty sep a).
  by destruct (splitOn sep a).
Qed.

Lemma splitOn_pieces (sep : N) (s w : jsstring) :
  w ∈ splitOn sep s → (sep ∉ w) ∧ ∀ c, c ∈ w → c ∈ s.
Proof.
  revert w. induction s as [|c r IH]; intros w; cbn [splitOn].
  { intros ->%list_elem_of_singleton. split; [|done]. by intros ?%elem_of_nil. }
  case_bool_decide as Hc.
  - intros [-> | Hw]%elem_of_cons.
    + split; [by intros ?%elem_of_nil | by intros ? ?%elem_of_nil].
    + destruct (IH w Hw) as [? Hsub]. split; [done|]. intros x Hx. right. eauto.
  - pose proof (splitOn_nonempty sep r).
    destruct (splitOn sep r) as [|w0 ws]; [done|].
    intros [-> | Hw]%elem_of_cons.
    + destruct (IH w0) as [Hno Hsub]; [by left|]. split.
      * intros [-> | ?]%elem_of_cons; done.
      * intros x [-> | Hx]%elem_of_cons; [by left | right; eauto].
    + destruct (IH w) as [Hno Hsub]; [by right|]. split; [done|].
      intros x Hx. right. eauto.
Qed.

Lemma stripParens_elem_of (s : jsstring) (c : N) :
  c ∈ stripParens s ↔ c ∈ s ∧ c ≠ 40%N ∧ c ≠ 41%N.
Proof. unfold stripParens. rewrite list_elem_of_filter. tauto. Qed.

Lemma stripParens_app (a b : jsstring) :
  stripParens (a ++ b) = stripParens a ++ stripParens b.
Proof. apply filter_app. Qed.

(** The tags of a prompt, whether it is empty or not. *)
Lemma parseTags_eq (prompt : jsstring) :
  parseTags (Some prompt)
  = filter (λ t, t ≠ []) (trim <$> splitOn 44 (stripParens prompt)).
Proof. by destruct prompt. Qed.

(** X1: every tag [parseTags] returns is non-empty, neither starts nor ends
    with white space, holds no comma and no parenthesis, and is made of code
    units of the prompt. *)
Theorem parseTags_tags_are_clean (prompt : option jsstring) (t : jsstring)
    (Htag : t ∈ parseTags prompt) :
  t ≠ []
  ∧ (∀ c, head t = Some c → isWhiteSpace c = false)
  ∧ (∀ c, last t = Some c → isWhiteSpace c = false)
  ∧ (44%N ∉ t) ∧ (40%N ∉ t) ∧ (41%N ∉ t)
  ∧ ∀ c, c ∈ t → c ∈ default [] prompt.
Proof.
  revert Htag. unfold parseTags.
  destruct (truthy prompt); cbn [negb]; [|by intros ?%elem_of_nil].
  set (p := default [] prompt).
  intros [Hne (w & -> & Hw)%list_elem_of_fmap]%list_elem_of_filter.
  apply splitOn_pieces in Hw as [Hcomma Hsub].
  destruct (trim_ends w) as [Hhead Hlast].
  assert (Hin : ∀ c, c ∈ trim w → c ∈ p ∧ c ≠ 40%N ∧ c ≠ 41%N ∧ c ≠ 44%N).
  { intros c Hc%trim_elem_of. pose proof (Hsub c Hc) as Hp.
    apply stripParens_elem_of in Hp as (? & ? & ?). split_and!; try done.
    intros ->. done. }
  split_and!; try done.
  - intros H. by destruct (Hin _ H) as (_ & _ & _ & ?).
  - intros H. by destruct (Hin _ H) as (_ & ? & _ & _).
  - intros H. by destruct (Hin _ H) as (_ & _ & ? & _).
  - intros c Hc. by destruct (Hin _ Hc) as (? & _).
Qed.

Lemma parseTags_tags_are_clean_witness :
  let prompt := Some (js "(masterpiece), 1girl ,, blue sky ") in
  js "blue sky" ∈ parseTags prompt
  ∧ (44%N ∉ js "blue sky")
  ∧ ∀ c, c ∈ js "blue sky" → c ∈ default [] prompt.
Proof.
  intros prompt.
  assert (Htag : js "blue sky" ∈ parseTags prompt).
  { apply (bool_decide_unpack _). vm_compute. exact I. }
  split; [exact Htag|].
  destruct (parseTags_tags_are_clean prompt (js "blue sky") Htag)
    as (_ & _ & _ & Hcomma & _ & _ & Hsub).
  by split.
Defined.

(** X2: the tags of two prompts joined by a comma are the tags of the first
    followed by the tags of the second; a text that is a tag already (not
    empty, no comma, no parenthesis, no white space at either end) is the
    one tag of itself, whatever white space and parentheses are put around
    it; and a prompt that is absent or empty has no tags. *)
Theorem parseTags_joined (a b : jsstring) :
  parseTags (Some (a ++ 44%N :: b)) = parseTags (Some a) ++ parseTags (Some b)
  ∧ parseTags None = [] ∧ parseTags (Some []) = []
  ∧ ∀ w1 t w2 : jsstring,
      Forall (λ c, isWhiteSpace c = true ∨ c = 40%N ∨ c = 41%N) w1 →
      Forall (λ c, isWhiteSpace c = true ∨ c = 40%N ∨ c = 41%N) w2 →
      t ≠ [] → 44%N ∉ t → 40%N ∉ t → 41%N ∉ t →
      (∀ c, head t = Some c → isWhiteSpace c = false) →
      (∀ c, last t = Some c → isWhiteSpace c = false) →
      parseTags (Some (w1 ++ t ++ w2)) = [t].
Proof.
  split_and!; [|done|done|].
  - rewrite !parseTags_eq. unfold stripParens.
    rewrite filter_app, filter_cons_True by (split; discriminate).
    by rewrite splitOn_join, fmap_app, filter_app.
  - intros w1 t w2 H1 H2 Hne Hcomma Hopen Hclose Hhead Hlast.
    rewrite parseTags_eq.
    assert (Hpad : ∀ w : jsstring,
      Forall (λ c, isWhiteSpace c = true ∨ c = 40%N ∨ c = 41%N) w →
      Forall (λ c, isWhiteSpace c = true) (stripParens w)
      ∧ 44%N ∉ stripParens w).
    { intros w Hw. split.
      - apply Forall_forall. intros c (Hc & ? & ?)%stripParens_elem_of.
        pose proof (proj1 (Forall_forall _ _) Hw c Hc). naive_solver.
      - intros (Hc & _)%stripParens_elem_of.
        pose proof (proj1 (Forall_forall _ _) Hw _ Hc) as [? | [? | ?]]; done. }
    destruct (Hpad w1 H1) as [Hb1 Hc1], (Hpad w2 H2) as [Hb2 Hc2].
    assert (Ht : stripParens t = t).
    { unfold stripParens. apply JwtFacts.filter_all, Forall_forall.
      intros c Hc. split; intros ->; done. }
    rewrite !stripParens_app, Ht.
    rewrite JwtFacts.splitOn_none.
    2: { rewrite !elem_of_app. naive_solver. }
    cbn [fmap list_fmap]. rewrite trim_padded by done.
    by rewrite filter_cons_True, filter_nil.
Qed.

(** X3: every tag has a colour, one of the table, so the template never
    reads a field of [undefined]; the colour depends only on the sum of the
    code units, so tags that are rearrangements of one another get the same
    colour. *)
Theorem getTagColor_total (tag : jsstring) :
  (∃ c, getTagColor tag = Some c ∧ c ∈ tagColors)
  ∧ ∀ tag', tag ≡ₚ tag' → getTagColor tag' = getTagColor tag.
Proof.
  split.
  - unfold getTagColor. set (h := foldl _ _ _).
    assert (N.to_nat (h mod N.of_nat (length tagColors)) < length tagColors)%nat as Hlt.
    { change (length tagColors) with 64%nat.
      pose proof (N.mod_lt h (N.of_nat 64)). lia. }
    apply lookup_lt_is_Some in Hlt as [c Hc]. exists c. split; [done|].
    by eapply list_elem_of_lookup_2.
  - intros tag' Hp. unfold getTagColor. do 3 f_equal.
    generalize 0%N. induction Hp as [|x l l' _ IH|x y l|l l' l'' _ IH1 _ IH2];
      intros acc; simpl; [done | apply IH | f_equal; lia |].
    by rewrite IH2, IH1.
Qed.

End TagsFacts.

(** ** The masonry layout *)

Module LayoutFacts.
Import Layout.

#[local] Open Scope nat_scope.

Lemma minOf_spec (heights : list nat) :
  heights ≠ [] →
  ∃ v, minOf heights = Some v ∧ v ∈ heights ∧ ∀ h, h ∈ heights → v ≤ h.
Proof.
  induction heights as [|a l IH]; [done|]. intros _. unfold minOf. cbn [foldr].
  fold (minOf l). destruct l as [|b l'].
  { exists a. split_and!; [done | by left |].
    by intros h ->%list_elem_of_singleton. }
  destruct IH as (v & -> & Hv & Hle); [done|]. cbn [from_option].
  exists (a `min` v). split; [done|]. split.
  - destruct (Nat.min_spec a v) as [[_ ->] | [_ ->]]; [by left | by right].
  - intros h [-> | Hh]%elem_of_cons; [lia|]. specialize (Hle h Hh). lia.
Qed.

(** The state of the loop of [columns] after the entries of [l]: column [i]
    holds the entries at the positions [i], [i + n], [i + 2 n], ... *)
Lemma place_fold {A} (n : nat) (l : list A) :
  0 < n →
  ∃ cols heights,
    foldl place (Some (replicate n [], replicate n 0)) l = Some (cols, heights)
    ∧ length cols = n ∧ length heights = n
    ∧ ∀ i, i < n →
        ∃ col, cols !! i = Some col ∧ heights !! i = Some (length col)
               ∧ ∀ j, col !! j = l !! (j * n + i).
Proof.
  intros Hn. induction l as [|x l IH] using rev_ind.
  { exists (replicate n []), (replicate n 0).
    rewrite !length_replicate. split_and!; try done.
    intros i Hi. exists []. rewrite !lookup_replicate_2 by done.
    split_and!; [done..|]. intros j. by rewrite !lookup_nil. }
  destruct IH as (cols & heights & Hfold & Hc & Hh & Hinv).
  rewrite foldl_snoc, Hfold. cbn [place mbind option_bind].
  set (m := length l). set (q := m / n). set (r := m mod n).
  assert (Hm : m = n * q + r) by apply Nat.div_mod_eq.
  assert (Hr : r < n) by (apply Nat.mod_upper_bound; lia).
  (* the height of column [i] *)
  assert (Hheight : ∀ i col, i < n → (∀ j, col !! j = l !! (j * n + i)) →
            length col = if decide (r ≤ i) then q else S q).
  { intros i col Hi Hcol.
    assert (Hiff : ∀ j, length col ≤ j ↔ m ≤ j * n + i).
    { intros j. unfold m.
      rewrite <- (lookup_ge_None l), <- (lookup_ge_None col). by rewrite Hcol. }
    pose proof (proj1 (Hiff (length col)) (le_n _)) as H1.
    case_decide as Hri.
    - pose proof (proj2 (Hiff q)) as H2. nia.
    - pose proof (proj2 (Hiff (S q))) as H2.
      destruct (decide (length col ≤ q)) as [Hle | ?]; [|nia].
      apply Hiff in Hle. nia. }
  assert (Hat : ∀ i, i < n →
            heights !! i = Some (if decide (r ≤ i) then q else S q)).
  { intros i Hi. destruct (Hinv i Hi) as (col & _ & -> & Hcol).
    by rewrite (Hheight i col Hi Hcol). }
  assert (Hmin : indexOf (minOf heights) heights = Some r).
  { destruct (minOf_spec heights) as (v & -> & Hv & Hle).
    { intros ->. simpl in Hh. lia. }
    assert (v = q) as ->.
    { apply Nat.le_antisymm.
      - apply Hle. apply list_elem_of_lookup. exists r.
        rewrite (Hat r Hr). by rewrite decide_True.
      - apply list_elem_of_lookup in Hv as [i Hi].
        pose proof (lookup_lt_Some _ _ _ Hi) as Hlt. rewrite Hh in Hlt.
        rewrite (Hat i Hlt) in Hi. injection Hi as <-. case_decide; lia. }
    cbn [indexOf mbind option_bind].
    assert (list_find (λ h, h = q) heights = Some (r, q)) as ->; [|done].
    apply list_find_Some. split_and!; [|done|].
    - rewrite (Hat r Hr). by rewrite decide_True.
    - intros j y Hj Hjr. rewrite (Hat j) in Hj by lia.
      injection Hj as <-. rewrite decide_False by lia. lia. }
  rewrite Hmin.
  eexists _, _. split; [done|]. rewrite !length_alter. split_and!; [done..|].
  intros i Hi. destruct (Hinv i Hi) as (col & Hcoli & Hhi & Hcol).
  pose proof (Hheight i col Hi Hcol) as Hlen.
  destruct (decide (i = r)) as [-> | Hne].
  - exists (col ++ [x]). rewrite !list_lookup_alter_eq, Hcoli, Hhi.
    rewrite length_app. cbn [length fmap option_fmap option_map].
    split_and!; [done | f_equal; lia |].
    rewrite decide_True in Hlen by done.
    intros j. destruct (Nat.lt_trichotomy j q) as [Hj | [-> | Hj]].
    + rewrite !lookup_app_l by (fold m; nia). apply Hcol.
    + rewrite <- Hlen at 1. rewrite (list_lookup_middle col [] x _ eq_refl).
      replace (q * n + r) with (length l) by (fold m; lia).
      by rewrite (list_lookup_middle l [] x _ eq_refl).
    + rewrite !lookup_ge_None_2; [done | | ]; rewrite length_app; simpl;
        fold m; nia.
  - exists col. rewrite !list_lookup_alter_ne by done.
    split_and!; [done..|]. intros j.
    destruct (decide (j * n + i < m)) as [Hlt | Hge].
    + rewrite lookup_app_l by done. apply Hcol.
    + assert (j * n + i ≠ m).
      { intros Heq. apply Hne.
        rewrite <- (Nat.mod_small i n Hi), <- (Nat.Div0.mod_add i j n).
        by rewrite Nat.add_comm, Heq. }
      rewrite (lookup_ge_None_2 (l ++ [x])) by (rewrite length_app; simpl; fold m; lia).
      rewrite Hcol. apply lookup_ge_None_2. fold m. lia.
Qed.

(** The layout for a given number of columns: entry [k] sits in column
    [k mod n], at row [k / n].  Without a column, the first entry makes
    [columns] throw. *)
Lemma columns_spec {A} (n : nat) (entries : list A) :
  (0 < n →
     ∃ cols, columns n entries = Some cols ∧ length cols = n
       ∧ ∀ i j, i < n → cols !! i ≫= (.!! j) = entries !! (j * n + i))
  ∧ columns 0 entries = match entries with [] => Some [] | _ => None end.
Proof.
  split.
  - intros Hn. destruct (place_fold n entries Hn) as (cols & hs & Hf & Hc & _ & Hinv).
    exists cols. unfold columns. rewrite Hf. split_and!; [done..|].
    intros i j Hi. destruct (Hinv i Hi) as (col & -> & _ & Hcol). apply Hcol.
  - unfold columns. destruct entries as [|e l]; [done|]. simpl.
    by induction l.
Qed.

(** X4: for every window width the grid has between one and five columns,
    [columns] does not throw, and it deals the entries out in turn: the
    entry at position [k] of the list is in column [k mod n] at row
    [k / n], and the columns hold nothing else.  So every entry is shown
    once, and a column never differs from another by more than one entry. *)
Theorem columns_deal_in_turn {A} (width : Z) (entries : list A) :
  let n := updateColumnCount width in
  1 ≤ n ≤ 5
  ∧ ∃ cols,
      columns n entries = Some cols ∧ length cols = n
      ∧ (∀ i j, i < n → cols !! i ≫= (.!! j) = entries !! (j * n + i))
      ∧ (∀ k e, entries !! k = Some e →
           cols !! (k mod n) ≫= (.!! (k / n)) = Some e).
Proof.
  intros n.
  assert (Hn : 1 ≤ n ≤ 5) by (subst n; unfold updateColumnCount; repeat case_match; lia).
  split; [done|].
  destruct (proj1 (columns_spec n entries)) as (cols & Hcols & Hlen & Hat); [lia|].
  exists cols. split_and!; [done..|].
  intros k e Hk. rewrite Hat by (apply Nat.mod_upper_bound; lia).
  rewrite <- Hk. f_equal. rewrite (Nat.div_mod_eq k n) at 3. lia.
Qed.

End LayoutFacts.

(** ** The viewer, confirmed deletions, images and two more invariants *)

(** ** The viewer *)

Module ViewerFacts.
Import Gallery Viewer.

Lemma currentEntry_at (s : State) (k : nat) :
  selectedIndex s = Z.of_nat k → currentEntry s = entries s !! k.
Proof.
  intros H. unfold currentEntry. rewrite H.
  rewrite bool_decide_eq_false_2 by lia. by rewrite Nat2Z.id.
Qed.

Lemma currentEntry_closed (s : State) :
  selectedIndex s = -1 → currentEntry s = None.
Proof. intros H. unfold currentEntry. by rewrite H. Qed.

Lemma lookup_spliceInsert_lt {A} (k j : nat) (x : A) (l : list A) :
  (j < k ≤ length l)%nat → spliceInsert k x l !! j = l !! j.
Proof.
  intros H. unfold spliceInsert.
  rewrite lookup_app_l by (rewrite length_take; lia).
  by rewrite lookup_take_lt by lia.
Qed.

Lemma lookup_spliceInsert_ge {A} (k j : nat) (x : A) (l : list A) :
  (k ≤ j)%nat → (k ≤ length l)%nat → spliceInsert k x l !! S j = l !! j.
Proof.
  intros H Hk. unfold spliceInsert.
  rewrite lookup_app_r by (rewrite length_take; lia).
  rewrite length_take. replace (S j - k `min` length l)%nat with (S (j - k)) by lia.
  rewrite lookup_cons, lookup_drop. f_equal. lia.
Qed.

Lemma length_spliceInsert {A} (k : nat) (x : A) (l : list A) :
  length (spliceInsert k x l) = S (length l).
Proof.
  unfold spliceInsert. rewrite length_app. cbn [length].
  rewrite length_take, length_drop. lia.
Qed.

(** X5: hiding an entry and putting an entry back both keep the viewer on
    the entry it shows.  With a list that repeats no id and a selected
    index that is [-1] or in range: after [hideEntryOptimistically] the
    viewer is closed when it showed the hidden entry and shows the same
    entry otherwise; after [restoreHiddenEntry] it shows the same entry; in
    both cases the index is still [-1] or in range. *)
Theorem viewer_follows_entry (s : State) (i : jsstring)
    (snapshot : option Snapshot)
    (Hunique : NoDup (ids (entries s))) (Hrange : indexInRange s) :
  let hidden := (hideEntryOptimistically i s).1 in
  let restored := restoreHiddenEntry snapshot s in
  indexInRange hidden
  ∧ currentEntry hidden
    = match currentEntry s with
      | Some e => if decide (Entry.id e = i) then None else Some e
      | None => None
      end
  ∧ indexInRange restored
  ∧ currentEntry restored = currentEntry s.
Proof.
  intros hidden restored. unfold indexInRange in Hrange.
  assert (Hhide : indexInRange hidden
    ∧ currentEntry hidden
      = match currentEntry s with
        | Some e => if decide (Entry.id e = i) then None else Some e
        | None => None
        end).
  { subst hidden. unfold hideEntryOptimistically.
    destruct (list_find _ (entries s)) as [[idx e0]|] eqn:Hf; cbn [fst].
    2: { split; [done|]. destruct (currentEntry s) as [e|] eqn:He; [|done].
         rewrite decide_False; [done|]. intros Hid.
         unfold currentEntry in He. case_bool_decide; [done|].
         apply list_elem_of_lookup_2 in He.
         eapply (list_find_None (λ x, Entry.id x = i)) in Hf.
         by eapply (proj1 (Forall_forall _ _) Hf) in He. }
    apply list_find_Some in Hf as (Hidx & Hid0 & Hfirst).
    pose proof (lookup_lt_Some _ _ _ Hidx) as Hlt.
    match goal with |- context [syncSelectionWithEntries ?x] => set (q := x) end.
    change (indexInRange q
      ∧ currentEntry q = match currentEntry s with
                         | Some e => if decide (Entry.id e = i) then None else Some e
                         | None => None
                         end).
    assert (Hlen : length (delete idx (entries s)) = (length (entries s) - 1)%nat).
    { rewrite length_delete; [done | eauto]. }
    destruct (decide (selectedIndex s = Z.of_nat idx)) as [Heq | Hne].
    - assert (selectedIndex q = -1 ∧ entries q = delete idx (entries s)) as [Hq He].
      { subst q. cbn. by rewrite bool_decide_eq_true_2. }
      unfold indexInRange. rewrite Hq, He, Hlen. split; [lia|].
      rewrite (currentEntry_closed q Hq), (currentEntry_at s idx Heq), Hidx.
      by rewrite decide_True.
    - destruct (decide (selectedIndex s > Z.of_nat idx)) as [Hgt | Hle].
      + assert (selectedIndex q = selectedIndex s - 1
                ∧ entries q = delete idx (entries s)) as [Hq He].
        { subst q. cbn. rewrite bool_decide_eq_false_2 by done.
          by rewrite bool_decide_eq_true_2. }
        unfold indexInRange. rewrite Hq, He, Hlen. split; [lia|].
        set (k := Z.to_nat (selectedIndex s - 1)).
        rewrite (currentEntry_at q k) by lia.
        rewrite (currentEntry_at s (S k)) by lia.
        rewrite He, list_lookup_delete_ge by lia.
        destruct (entries s !! S k) as [e|] eqn:Hk; [|done].
        rewrite decide_False; [done|]. intros Hid.
        assert (S k = idx); [|lia].
        apply (NoDup_lookup (ids (entries s)) (S k) idx i Hunique); unfold ids;
          rewrite list_lookup_fmap; [by rewrite Hk; simpl; rewrite Hid|].
        by rewrite Hidx; simpl; rewrite Hid0.
      + assert (selectedIndex q = selectedIndex s
                ∧ entries q = delete idx (entries s)) as [Hq He].
        { subst q. cbn. by rewrite !bool_decide_eq_false_2. }
        unfold indexInRange. rewrite Hq, He, Hlen. split; [lia|].
        destruct (decide (selectedIndex s = -1)) as [Hm | Hm].
        { by rewrite (currentEntry_closed q), (currentEntry_closed s) by lia. }
        set (k := Z.to_nat (selectedIndex s)).
        rewrite (currentEntry_at q k), (currentEntry_at s k) by lia.
        rewrite He, list_lookup_delete_lt by lia.
        destruct (entries s !! k) as [e|] eqn:Hk; [|done].
        rewrite decide_False; [done|]. intros Hid.
        apply (Hfirst k e Hk); [lia | done]. }
  split_and!; [apply Hhide | apply Hhide | |];
    subst restored; destruct snapshot as [snap|]; try done;
    unfold restoreHiddenEntry;
    set (s1 := set_pendingDeleteIds _ s); case_bool_decide as Hex; try done;
    set (ins := (snap_index snap `min` length (entries s1))%nat);
    match goal with |- context [syncSelectionWithEntries ?x] => set (q := x) end.
  - change (indexInRange q). unfold indexInRange. subst q. cbn.
    case_bool_decide; cbn; rewrite length_spliceInsert; lia.
  - change (currentEntry q = currentEntry s).
    assert (Hins : (ins ≤ length (entries s))%nat) by (subst ins; cbn; lia).
    destruct (decide (selectedIndex s >= Z.of_nat ins)) as [Hge | Hlt].
    + assert (selectedIndex q = selectedIndex s + 1
              ∧ entries q = spliceInsert ins (snap_entry snap) (entries s))
        as [Hq He].
      { subst q. cbn. by rewrite bool_decide_eq_true_2. }
      set (k := Z.to_nat (selectedIndex s)).
      rewrite (currentEntry_at q (S k)), (currentEntry_at s k) by lia.
      rewrite He. apply lookup_spliceInsert_ge; lia.
    + assert (selectedIndex q = selectedIndex s
              ∧ entries q = spliceInsert ins (snap_entry snap) (entries s))
        as [Hq He].
      { subst q. cbn. by rewrite bool_decide_eq_false_2. }
      destruct (decide (selectedIndex s = -1)) as [Hm | Hm].
      { by rewrite (currentEntry_closed q), (currentEntry_closed s) by lia. }
      set (k := Z.to_nat (selectedIndex s)).
      rewrite (currentEntry_at q k), (currentEntry_at s k) by lia.
      rewrite He. apply lookup_spliceInsert_lt. lia.
Qed.

Lemma viewer_follows_entry_witness :
  let s := set_selectedIndex 2 (Scenario.showing ["5"; "4"; "3"]%string []) in
  NoDup (ids (entries s)) ∧ indexInRange s
  ∧ currentEntry s = Some (Scenario.entryOf "3")
  ∧ currentEntry (hideEntryOptimistically (js "4") s).1
    = Some (Scenario.entryOf "3")
  ∧ selectedIndex (hideEntryOptimistically (js "4") s).1 = 1.
Proof.
  intros s.
  assert (Hunique : NoDup (ids (entries s))).
  { apply (bool_decide_unpack _). vm_compute. exact I. }
  assert (Hrange : indexInRange s).
  { apply (bool_decide_unpack _). vm_compute. exact I. }
  split_and!; [done | done | reflexivity | | reflexivity].
  destruct (viewer_follows_entry s (js "4") None Hunique Hrange) as (_ & Hsame & _).
  rewrite Hsame. reflexivity.
Defined.

End ViewerFacts.

Module NavigationFacts.
Import Gallery Viewer.

Lemma set_selectedIndex_same (s : State) : set_selectedIndex (selectedIndex s) s = s.
Proof. by destruct s. Qed.

(** X6: opening, closing and stepping through the viewer never leave the
    list.  From a selected index that is [-1] or in range, [open], [close],
    [prevImage] and [nextImage] give an index that is [-1] or in range;
    [open] shows the entry clicked when the list holds it (ids being
    distinct) and closes the viewer when no entry has its id; [prevImage]
    at the first entry and [nextImage] at the last one change nothing, and
    on every entry but the last [prevImage] undoes [nextImage]. *)
Theorem viewer_navigation (s : State) (e : Entry.t) (Hrange : indexInRange s) :
  indexInRange (open e s) ∧ indexInRange (close s)
  ∧ indexInRange (prevImage s) ∧ indexInRange (nextImage s)
  ∧ (NoDup (ids (entries s)) → e ∈ entries s → currentEntry (open e s) = Some e)
  ∧ (Entry.id e ∉ ids (entries s) → currentEntry (open e s) = None)
  ∧ currentEntry (close s) = None
  ∧ (selectedIndex s ≤ 0 → prevImage s = s)
  ∧ (selectedIndex s = Z.of_nat (length (entries s)) - 1 → nextImage s = s)
  ∧ (0 ≤ selectedIndex s < Z.of_nat (length (entries s)) - 1 →
       prevImage (nextImage s) = s).
Proof.
  unfold indexInRange in Hrange. split_and!.
  - unfold open.
    destruct (list_find _ (entries s)) as [[k x]|] eqn:Hf; cbn [from_option fst].
    + apply list_find_Some in Hf as (Hk%lookup_lt_Some & _).
      change (-1 ≤ Z.of_nat k < Z.of_nat (length (entries s))). lia.
    + change (-1 ≤ -1 < Z.of_nat (length (entries s))). lia.
  - change (-1 ≤ -1 < Z.of_nat (length (entries s))). lia.
  - unfold prevImage. case_bool_decide; [|done].
    change (-1 ≤ selectedIndex s - 1 < Z.of_nat (length (entries s))). lia.
  - unfold nextImage. case_bool_decide; [|done].
    change (-1 ≤ selectedIndex s + 1 < Z.of_nat (length (entries s))). lia.
  - intros Hnd [k Hk]%list_elem_of_lookup. unfold open.
    rewrite (GalleryFacts.find_by_id _ _ _ Hnd Hk). cbn [from_option fst].
    by rewrite (ViewerFacts.currentEntry_at _ k).
  - intros Hno. unfold open.
    rewrite (proj2 (list_find_None (λ x, Entry.id x = Entry.id e) (entries s))).
    + by apply ViewerFacts.currentEntry_closed.
    + apply Forall_forall. intros x Hx Hid. apply Hno.
      apply GalleryFacts.elem_of_ids. eauto.
  - by apply ViewerFacts.currentEntry_closed.
  - intros H. unfold prevImage. by rewrite bool_decide_eq_false_2 by lia.
  - intros H. unfold nextImage. by rewrite bool_decide_eq_false_2 by lia.
  - intros H. unfold nextImage. rewrite bool_decide_eq_true_2 by lia.
    unfold prevImage. set (s1 := set_selectedIndex (selectedIndex s + 1) s).
    assert (selectedIndex s1 = selectedIndex s + 1) as -> by done.
    rewrite bool_decide_eq_true_2 by lia.
    replace (selectedIndex s + 1 - 1) with (selectedIndex s) by lia.
    subst s1. by destruct s.
Qed.

Lemma viewer_navigation_witness :
  let s := set_selectedIndex 1 (Scenario.showing ["5"; "4"; "3"]%string []) in
  indexInRange s
  ∧ selectedIndex (nextImage s) = 2
  ∧ prevImage (nextImage s) = s
  ∧ nextImage (nextImage s) = nextImage s.
Proof.
  intros s.
  assert (Hrange : indexInRange s).
  { apply (bool_decide_unpack _). vm_compute. exact I. }
  split_and!; [done | reflexivity | | reflexivity].
  destruct (viewer_navigation s (Scenario.entryOf "4") Hrange)
    as (_ & _ & _ & _ & _ & _ & _ & _ & _ & Hback).
  apply Hback. apply (bool_decide_unpack _). vm_compute. exact I.
Defined.

End NavigationFacts.

Module DeleteFacts.
Import Gallery.

Lemma hide_frame (i : jsstring) (s : State) :
  showDeleteModal (hideEntryOptimistically i s).1 = showDeleteModal s
  ∧ imageCache (hideEntryOptimistically i s).1 = imageCache s
  ∧ pendingImageLoads (hideEntryOptimistically i s).1 = pendingImageLoads s.
Proof.
  unfold hideEntryOptimistically.
  destruct (list_find _ (entries s)) as [[idx e]|]; [|done]. cbn.
  by repeat case_bool_decide.
Qed.

Lemma removeEntryFromLocalCache_rest (e : Entry.t) (s : State) :
  showDeleteModal (removeEntryFromLocalCache e s) = showDeleteModal s
  ∧ pendingImageLoads (removeEntryFromLocalCache e s) = pendingImageLoads s
  ∧ selectedIndex (removeEntryFromLocalCache e s) = selectedIndex s.
Proof.
  unfold removeEntryFromLocalCache.
  destruct (Entry.file_id e) as [f|]; [|done]. by destruct (truthy (Some f)).
Qed.

(** X7: a delete the server confirms purges the entry.  With ids distinct
    and the entry [E] of the list in the delete modal, after [performDelete]
    with a reply that is not an error the list is the one before without
    [E]; the id of [E] is neither in the list, nor pending, nor in the list
    cache, and its image is out of the image cache; so no later paint from
    the cache shows [E] again. *)
Theorem deleted_entry_is_purged (s : State) (E : Entry.t) (index : nat)
    (reply : Fetched (option jsstring)) (body : option jsstring)
    (Hunique : NoDup (ids (entries s)))
    (Hat : entries s !! index = Some E)
    (Hasked : pendingDelete s = Some E)
    (Hid : Entry.id E ≠ [])
    (Hok : requestDeleteById reply = inr body) :
  let s' := performDelete reply s in
  entries s' = delete index (entries s)
  ∧ (Entry.id E ∉ ids (entries s'))
  ∧ (Entry.id E ∉ pendingDeleteIds s')
  ∧ (Entry.id E ∉ ids (default [] (listCache s')))
  ∧ (∀ f, Entry.file_id E = Some f → f ≠ [] → imageCache s' !! f = None)
  ∧ toast s' = Some ToastDeleted
  ∧ pendingDelete s' = None
  ∧ showDeleteModal s' = false
  ∧ ∀ fir flr, Entry.id E ∉ ids (entries (load_begin fir flr s').1).
Proof.
  intros s'.
  assert (Hbegin : performDelete_begin s
    = ((hideEntryOptimistically (Entry.id E) (set_showDeleteModal false s)).1,
       Some (E, (hideEntryOptimistically (Entry.id E)
                   (set_showDeleteModal false s)).2))).
  { unfold performDelete_begin. rewrite Hasked.
    assert (truthy (Some (Entry.id E)) = true) as -> by by destruct (Entry.id E).
    cbn [negb]. by destruct (hideEntryOptimistically _ _). }
  destruct (GalleryFacts.hide_found (set_showDeleteModal false s) (Entry.id E)
              index E (GalleryFacts.find_by_id _ _ _ Hunique Hat))
    as (He & Hp & Hl & Hs).
  set (h := hideEntryOptimistically (Entry.id E) (set_showDeleteModal false s)) in *.
  assert (Hs' : s' = set_pendingDelete None
                       (showToastMsg ToastDeleted (finalizeDeleteSuccess E h.1))).
  { subst s'. unfold performDelete. rewrite Hbegin.
    unfold performDelete_settle. by rewrite Hok. }
  assert (Hmodal : showDeleteModal h.1 = false).
  { subst h. by destruct (hide_frame (Entry.id E) (set_showDeleteModal false s))
      as (-> & _). }
  unfold finalizeDeleteSuccess in Hs'.
  set (s1 := set_pendingDeleteIds (pendingDeleteIds h.1 ∖ {[Entry.id E]}) h.1) in *.
  destruct (GalleryFacts.removeEntryFromLocalCache_frame E s1) as (R1 & R2 & _ & R4).
  assert (Himg : imageCache (removeEntryFromLocalCache E s1)
    = match Entry.file_id E with
      | Some (c :: r) => delete (c :: r) (imageCache s)
      | _ => imageCache s
      end).
  { assert (imageCache h.1 = imageCache s) as Hi.
    { subst h. apply (hide_frame (Entry.id E) (set_showDeleteModal false s)). }
    unfold removeEntryFromLocalCache. destruct (Entry.file_id E) as [[|c r]|];
      cbn; by rewrite ?Hi. }
  set (r := removeEntryFromLocalCache E s1) in *.
  assert (Hentries : entries s' = delete index (entries s)).
  { rewrite Hs'. cbn. by rewrite R1. }
  assert (Hgone : Entry.id E ∉ ids (entries s')).
  { rewrite Hentries. by apply GalleryFacts.id_not_in_delete. }
  assert (Hcache : Entry.id E ∉ ids (default [] (listCache s'))).
  { rewrite Hs'. cbn. rewrite R4. cbn [default].
    intros Hin.
    eapply elem_of_sublist in Hin; [|apply GalleryFacts.ids_sublist, sublist_take].
    by apply GalleryFacts.ids_filter in Hin as (x & _ & Hne & Heq). }
  assert (Hpend : Entry.id E ∉ pendingDeleteIds s').
  { rewrite Hs'. cbn. rewrite R2. cbn. set_solver. }
  split_and!; try done.
  - intros f Hf Hne. rewrite Hs'. cbn. rewrite Himg, Hf.
    destruct f as [|c f']; [done|]. apply lookup_delete_eq.
  - by rewrite Hs'.
  - by rewrite Hs'.
  - rewrite Hs'. change (showDeleteModal r = false). subst r.
    by destruct (removeEntryFromLocalCache_rest E s1) as (-> & _).
  - intros fir flr.
    destruct flr; [by destruct (GalleryFacts.load_begin_no_paint fir true s')
                     as (-> & _); [left|]|].
    destruct (listCache s') as [[|c cs]|] eqn:Hlc.
    + by destruct (GalleryFacts.load_begin_no_paint fir false s') as (-> & _);
        [do 2 right|].
    + destruct (GalleryFacts.load_begin_paint fir s' c cs Hlc) as (Hpaint & _).
      rewrite (GalleryFacts.server_part_ids _ _ Hpaint).
      intros [Hin _]%GalleryFacts.ids_visibleOnly.
      eapply elem_of_sublist in Hin; [|apply GalleryFacts.ids_sublist, sublist_take].
      done.
    + by destruct (GalleryFacts.load_begin_no_paint fir false s') as (-> & _);
        [right; left|].
Qed.

Lemma deleted_entry_is_purged_witness :
  let E := Scenario.entryOf "4" in
  let s := openDeleteModal E (Scenario.showing ["5"; "4"; "3"]%string []) in
  let s' := performDelete Scenario.deleted s in
  NoDup (ids (entries s)) ∧ entries s !! 1%nat = Some E
  ∧ pendingDelete s = Some E
  ∧ ids (entries s') = js <$> ["5"; "3"]%string
  ∧ (Entry.id E ∉ pendingDeleteIds s')
  ∧ ∀ fir flr, Entry.id E ∉ ids (entries (load_begin fir flr s').1).
Proof.
  intros E s s'.
  assert (Hunique : NoDup (ids (entries s))).
  { apply (bool_decide_unpack _). vm_compute. exact I. }
  assert (Hat : entries s !! 1%nat = Some E) by reflexivity.
  assert (Hasked : pendingDelete s = Some E) by reflexivity.
  assert (Hid : Entry.id E ≠ []) by discriminate.
  assert (Hok : requestDeleteById Scenario.deleted = inr None) by reflexivity.
  destruct (deleted_entry_is_purged s E 1 Scenario.deleted None Hunique Hat
              Hasked Hid Hok) as (_ & _ & Hpending & _ & _ & _ & _ & _ & Hpaint).
  split_and!; [done | done | done | reflexivity | exact Hpending | exact Hpaint].
Defined.

End DeleteFacts.

Module TidyFacts.
Import Gallery Tidy.

Lemma quiet_refl (s : State) : quiet s s.
Proof. by split. Qed.

Lemma quiet_trans (s1 s2 s3 : State) : quiet s1 s2 → quiet s2 s3 → quiet s1 s3.
Proof. intros [H1 H2] [H3 H4]. split; [by etrans | congruence]. Qed.

Lemma quiet_same (s s' : State) :
  selectedEntryIds s' = selectedEntryIds s →
  pendingImageLoads s' = pendingImageLoads s → quiet s s'.
Proof. intros H1 H2. split; [by rewrite H1 | done]. Qed.

Lemma quiet_tidy (s s' : State) : quiet s s' → tidy s → tidy s'.
Proof.
  intros [H1 H2] [H3 H4]. split; [by eapply sublist_NoDup | congruence].
Qed.

Lemma quiet_sync (s : State) : quiet s (syncSelectionWithEntries s).
Proof. split; [apply sublist_filter | done]. Qed.

Lemma loadEntryImage_loads (e : Entry.t) (s : State) :
  pendingImageLoads (loadEntryImage e s).2 = pendingImageLoads s.
Proof.
  unfold loadEntryImage. destruct (Entry.file_id e) as [f|]; [|done].
  destruct (negb (truthy (Some f))); [done|].
  destruct (truthy (Entry.src e) && negb (Entry.loading e)); [done|].
  case_bool_decide as Hin; [done|].
  destruct (encodeURIComponent f); cbn; set_solver.
Qed.

Lemma queueImageLoads_loads (l : list Entry.t) : ∀ s : State,
  pendingImageLoads (queueImageLoads l s).2 = pendingImageLoads s.
Proof.
  induction l as [|e l IH]; intros s; [done|]. cbn [queueImageLoads].
  set (r := if negb (truthy (Entry.file_id e)) then (e, s)
            else if truthy (Entry.src e) && negb (Entry.loading e) then (e, s)
            else loadEntryImage e s).
  assert (Hr : pendingImageLoads r.2 = pendingImageLoads s).
  { subst r. repeat case_match; try done. apply loadEntryImage_loads. }
  destruct r as [e' s1]. specialize (IH s1).
  destruct (queueImageLoads l s1) as [rest' s2]. cbn in *. congruence.
Qed.

Lemma quiet_queue (l : list Entry.t) (s : State) : quiet s (queueImageLoads l s).2.
Proof.
  apply quiet_same; [|apply queueImageLoads_loads].
  by destruct (GalleryFacts.queueImageLoads_spec l s) as [_ []].
Qed.

Lemma quiet_queue_entries (s : State) : quiet s (queueImageLoads_entries s).
Proof.
  unfold queueImageLoads_entries. pose proof (quiet_queue (entries s) s) as H.
  by destruct (queueImageLoads (entries s) s).
Qed.

Lemma quiet_mergeTopPage (items : list Entry.t) (fir keep : bool) (s : State) :
  quiet s (mergeTopPage items fir keep s).
Proof.
  unfold mergeTopPage.
  eapply quiet_trans; [|apply quiet_sync].
  eapply quiet_trans; [|apply quiet_queue_entries].
  by destruct keep.
Qed.

Lemma quiet_load_begin (fir flr : bool) (s : State) :
  quiet s (load_begin fir flr s).1.
Proof.
  unfold load_begin. cbn [fst]. destruct flr; cbn [negb].
  { by case_bool_decide. }
  change (listCache (set_error [] s)) with (listCache s).
  destruct (listCache s) as [[|c cs]|]; [done| |done].
  match goal with |- context [queueImageLoads_entries ?x] =>
    pose proof (quiet_queue_entries x) as H;
    set (q := queueImageLoads_entries x) in * end.
  exact H.
Qed.

Lemma quiet_load_settle (fir flr had : bool) (fetched : JsError + Page.t)
    (s : State) :
  quiet s (load_settle fir flr had fetched s).
Proof.
  unfold load_settle. destruct fetched as [e | page]; [done|].
  pose proof (quiet_mergeTopPage (Page.items page) fir flr s) as H.
  set (m := mergeTopPage (Page.items page) fir flr s) in *.
  by destruct (negb flr || negb had), (negb (truthy (paginationCursor m))).
Qed.

Lemma quiet_loadMore_settle (fetched : JsError + Page.t) (s : State) :
  quiet s (loadMore_settle fetched s).
Proof.
  unfold loadMore_settle. destruct fetched as [e | page]; [done|].
  destruct (appendedEntries page s) as [|a l]; [done|].
  pose proof (quiet_queue (a :: l) s) as H.
  destruct (queueImageLoads (a :: l) s) as [appended' s3]. cbn [snd] in H.
  eapply quiet_trans; [exact H|].
  split; [apply sublist_filter | done].
Qed.

Lemma quiet_hide (i : jsstring) (s : State) :
  quiet s (hideEntryOptimistically i s).1.
Proof.
  unfold hideEntryOptimistically.
  destruct (list_find _ (entries s)) as [[idx e]|]; [|done]. cbn [fst].
  eapply quiet_trans; [|apply quiet_sync].
  cbn. by repeat case_bool_decide.
Qed.

Lemma quiet_restore (snapshot : option Snapshot) (s : State) :
  quiet s (restoreHiddenEntry snapshot s).
Proof.
  unfold restoreHiddenEntry. destruct snapshot as [snap|]; [|done].
  case_bool_decide; [done|].
  eapply quiet_trans; [|apply quiet_sync].
  cbn. by case_bool_decide.
Qed.

Lemma quiet_finalize (e : Entry.t) (s : State) :
  quiet s (finalizeDeleteSuccess e s).
Proof.
  unfold finalizeDeleteSuccess.
  eapply quiet_trans; [|apply quiet_sync].
  match goal with |- context [removeEntryFromLocalCache e ?x] =>
    destruct (GalleryFacts.removeEntryFromLocalCache_frame e x) as (_ & _ & H3 & _);
    destruct (DeleteFacts.removeEntryFromLocalCache_rest e x) as (_ & H5 & _) end.
  by apply quiet_same.
Qed.

Lemma quiet_hideTargets (targets : list Entry.t) : ∀ s : State,
  quiet s (hideTargets targets s).1.
Proof.
  induction targets as [|e l IH]; intros s; [done|]. cbn [hideTargets].
  pose proof (quiet_hide (Entry.id e) s) as H1.
  destruct (hideEntryOptimistically (Entry.id e) s) as [s1 snapshot].
  specialize (IH s1). destruct (hideTargets l s1) as [s2 ts].
  by eapply quiet_trans.
Qed.

Lemma tidy_step (s s' : State) : step s s' → consistent s → tidy s → tidy s'.
Proof.
  intros Hstep Hc Ht. destruct Hstep.
  - eapply quiet_tidy; [apply quiet_load_begin | done].
  - eapply quiet_tidy; [apply quiet_load_settle | done].
  - unfold loadMore_begin. destruct (loading s || loadingMore s); [done|].
    by destruct (negb (hasMore s) || negb (truthy (paginationCursor s))).
  - eapply quiet_tidy; [apply quiet_loadMore_settle | done].
  - unfold clearImageCache_begin. destruct confirmed; [|done]. cbn [negb].
    eapply quiet_tidy; [apply quiet_load_begin | done].
  - unfold refreshSingleImage. case_bool_decide; [done|].
    destruct (entries s !! Z.to_nat (selectedIndex s)) as [entry|]; [|done].
    destruct (Entry.file_id entry) as [[|c r]|]; [done| |done].
    by destruct (encodeURIComponent (c :: r)).
  - unfold performDelete_begin. destruct (pendingDelete s) as [entry|]; [|done].
    destruct (truthy (Some (Entry.id entry))); [|done]. cbn [negb].
    pose proof (quiet_hide (Entry.id entry) (set_showDeleteModal false s)) as H.
    destruct (hideEntryOptimistically _ _). eapply quiet_tidy; [exact H | done].
  - unfold performDelete_settle. destruct result.
    + eapply (quiet_tidy s); [|done]. apply (quiet_restore snapshot).
    + eapply (quiet_tidy s); [|done]. apply (quiet_finalize entry).
  - unfold performBatchDelete_begin.
    destruct (filter _ (entries s)) as [|t ts]; [done|].
    destruct confirmed; [|done]. cbn [negb].
    pose proof (quiet_hideTargets (t :: ts) s) as [_ H].
    destruct (hideTargets (t :: ts) s) as [s1 targets]. cbn [fst] in *.
    destruct Ht as [_ Hl]. split; [apply NoDup_nil_2 | cbn; congruence].
  - unfold performBatchDelete_turn. destruct result; cbn [bp_state].
    + eapply quiet_tidy; [apply quiet_restore | done].
    + eapply quiet_tidy; [apply quiet_finalize | done].
  - unfold performBatchDelete_report. by destruct (failCount p).
  - unfold toggleBatchMode. destruct (batchMode _); [done|].
    destruct Ht as [_ Hl]. split; [apply NoDup_nil_2 | done].
  - unfold toggleEntrySelection. destruct (negb _); [done|].
    unfold isEntrySelected. destruct Ht as [Hn Hl]. case_bool_decide as Hin.
    + split; [|done]. cbn. eapply sublist_NoDup; [done | apply sublist_filter].
    + split; [|done]. cbn. apply NoDup_app. split_and!; [done | | apply NoDup_singleton].
      intros x Hx ->%list_elem_of_singleton. done.
  - unfold toggleSelectAllEntries. destruct Ht as [Hn Hl].
    destruct (allEntriesSelected s); (split; [|done]); cbn;
      [apply NoDup_nil_2 | apply Hc].
  - destruct Ht as [_ Hl]. split; [apply NoDup_nil_2 | done].
  - done.
  - done.
  - done.
  - done.
  - unfold prevImage. by case_bool_decide.
  - unfold nextImage. by case_bool_decide.
Qed.

(** In every state the component can reach, the selection holds no id
    twice and no image load is under way. *)
Lemma reachable_tidy (s : State) : reachable s → tidy s.
Proof.
  induction 1 as [lc ic H | s s' Hr IH Hstep].
  - split; [apply NoDup_nil_2 | done].
  - eapply tidy_step; [done | by apply GalleryFacts.reachable_consistent | done].
Qed.

(** X8: an invariant of the component.  In every state it can reach,
    whatever the replies and the order of the handlers, the selection holds
    no id twice and no image load is left under way, so a [loadEntryImage]
    is never skipped because of an earlier one. *)
Theorem selection_and_loads_invariant (s : State) (Hreach : reachable s) :
  NoDup (selectedEntryIds s) ∧ pendingImageLoads s = ∅.
Proof. destruct (reachable_tidy s Hreach) as [Hsel Hloads]. by split. Qed.

Lemma selection_and_loads_invariant_witness :
  let page := Scenario.entryOf <$> ["5"; "4"; "3"]%string in
  let s1 := load_settle false false false (inr (Page.mk page false None))
              (initialState None ∅) in
  let s := toggleEntrySelection (js "4") (toggleSelectAllEntries s1) in
  reachable s ∧ selectedEntryIds s = js <$> ["5"; "3"]%string
  ∧ NoDup (selectedEntryIds s).
Proof.
  intros page s1 s.
  assert (Hreach : reachable s).
  { eapply reachable_step; [|apply step_toggleEntrySelection].
    eapply reachable_step; [|apply step_toggleSelectAllEntries].
    eapply reachable_step; [apply (reachable_init None ∅), NoDup_nil_2|].
    apply step_load_settle. intros p [= <-].
    apply (bool_decide_unpack _). vm_compute. exact I. }
  split_and!; [done | reflexivity |].
  apply (selection_and_loads_invariant s Hreach).
Defined.

End TidyFacts.

Module SelectionFacts.
Import Gallery Tidy.

(** X9: the select-all button.  In a state the component can reach and in
    which every selected id is the id of a listed entry, the length test of
    [allEntriesSelected] is exact: it holds if and only if the list is not
    empty and every entry is selected.  [toggleSelectAllEntries] then clears
    the selection when all entries are selected and selects the ids of all
    entries, in list order, otherwise; on a list that is not empty it flips
    [allEntriesSelected]. *)
Theorem select_all_is_exact (s : State)
    (Hreach : reachable s) (Hvisible : selectionVisible s) :
  (allEntriesSelected s = true
   ↔ entries s ≠ [] ∧ ∀ e, e ∈ entries s → Entry.id e ∈ selectedEntryIds s)
  ∧ selectedEntryIds (toggleSelectAllEntries s)
    = (if allEntriesSelected s then [] else ids (entries s))
  ∧ selectionVisible (toggleSelectAllEntries s)
  ∧ (entries s ≠ [] →
       allEntriesSelected (toggleSelectAllEntries s) = negb (allEntriesSelected s)).
Proof.
  destruct (GalleryFacts.reachable_consistent s Hreach) as (Hnd & _ & _).
  destruct (TidyFacts.reachable_tidy s Hreach) as [Hsel _].
  assert (Hsub : selectedEntryIds s ⊆+ ids (entries s)).
  { by apply NoDup_submseteq. }
  split_and!.
  - unfold allEntriesSelected. rewrite andb_true_iff, !bool_decide_eq_true.
    split.
    + intros [Hpos Hlen].
      split; [intros E; rewrite E in Hpos; simpl in Hpos; lia|].
      assert (selectedEntryIds s ≡ₚ ids (entries s)) as Hperm.
      { apply submseteq_length_Permutation; [done|].
        unfold ids. rewrite length_fmap. lia. }
      intros e He. rewrite Hperm. apply GalleryFacts.elem_of_ids. eauto.
    + intros [Hne Hall]. split; [destruct (entries s); [done | simpl; lia]|].
      apply Nat.le_antisymm.
      * apply submseteq_length in Hsub. unfold ids in Hsub.
        by rewrite length_fmap in Hsub.
      * assert (ids (entries s) ⊆+ selectedEntryIds s) as Hsup.
        { apply NoDup_submseteq; [done|].
          intros i (e & He & <-)%GalleryFacts.elem_of_ids. by apply Hall. }
        apply submseteq_length in Hsup. unfold ids in Hsup.
        by rewrite length_fmap in Hsup.
  - unfold toggleSelectAllEntries. by destruct (allEntriesSelected s).
  - unfold toggleSelectAllEntries, selectionVisible.
    destruct (allEntriesSelected s); cbn; [by intros i ?%elem_of_nil | done].
  - intros Hne. unfold toggleSelectAllEntries.
    destruct (allEntriesSelected s) eqn:Hall; unfold allEntriesSelected; cbn.
    + destruct (entries s); [done|]. cbn.
      by rewrite bool_decide_eq_true_2, bool_decide_eq_false_2 by (simpl; lia).
    + unfold ids. rewrite length_fmap.
      destruct (entries s); [done|].
      by rewrite !bool_decide_eq_true_2 by (simpl; lia).
Qed.

Lemma select_all_is_exact_witness :
  let page := Scenario.entryOf <$> ["5"; "4"; "3"]%string in
  let s1 := load_settle false false false (inr (Page.mk page false None))
              (initialState None ∅) in
  let s := toggleEntrySelection (js "4") (toggleBatchMode s1) in
  reachable s ∧ selectionVisible s
  ∧ allEntriesSelected s = false
  ∧ selectedEntryIds (toggleSelectAllEntries s) = js <$> ["5"; "4"; "3"]%string
  ∧ allEntriesSelected (toggleSelectAllEntries s) = true.
Proof.
  intros page s1 s.
  assert (Hreach : reachable s).
  { eapply reachable_step; [|apply step_toggleEntrySelection].
    eapply reachable_step; [|apply step_toggleBatchMode].
    eapply reachable_step; [apply (reachable_init None ∅), NoDup_nil_2|].
    apply step_load_settle. intros p [= <-].
    apply (bool_decide_unpack _). vm_compute. exact I. }
  assert (Hvisible : selectionVisible s).
  { intros i Hi.
    assert (Hsel : selectedEntryIds s = [js "4"]) by reflexivity.
    rewrite Hsel in Hi. apply list_elem_of_singleton in Hi as ->.
    apply (bool_decide_unpack _). vm_compute. exact I. }
  destruct (select_all_is_exact s Hreach Hvisible) as (_ & _ & _ & Hflip).
  split_and!; [done | done | reflexivity | reflexivity |].
  rewrite Hflip; [reflexivity | discriminate].
Defined.

End SelectionFacts.

Module ImageFacts.
Import Gallery Tidy.

(** After [queueImageLoads], no load being under way before it, no entry
    that has a file id is still loading, and each has an image address
    unless [encodeURIComponent] refuses its file id. *)
Lemma queueImageLoads_resolved (l : list Entry.t) : ∀ (s : State) (e : Entry.t)
    (f : jsstring),
  pendingImageLoads s = ∅ →
  e ∈ (queueImageLoads l s).1 → Entry.file_id e = Some f → f ≠ [] →
  Entry.loading e = false
  ∧ (truthy (Entry.src e) = true ∨ encodeURIComponent f = None).
Proof.
  induction l as [|x l IH]; intros s e f Hs He Hf Hne.
  { by apply elem_of_nil in He. }
  cbn [queueImageLoads] in He.
  set (r := if negb (truthy (Entry.file_id x)) then (x, s)
            else if truthy (Entry.src x) && negb (Entry.loading x) then (x, s)
            else loadEntryImage x s) in *.
  assert (Hr : pendingImageLoads r.2 = ∅
    ∧ ∀ f, Entry.file_id r.1 = Some f → f ≠ [] →
        Entry.loading r.1 = false
        ∧ (truthy (Entry.src r.1) = true ∨ encodeURIComponent f = None)).
  { subst r. destruct (truthy (Entry.file_id x)) eqn:Hx; cbn [negb].
    2: { split; [done|]. cbn [fst]. intros g Hg Hgne. rewrite Hg in Hx.
         by destruct g. }
    destruct (truthy (Entry.src x) && negb (Entry.loading x)) eqn:Hsrc.
    { split; [done|]. cbn [fst]. intros g _ _.
      apply andb_true_iff in Hsrc as [? ?%negb_true_iff]. by split; [|left]. }
    split; [by rewrite TidyFacts.loadEntryImage_loads|].
    intros g Hg Hgne.
    pose proof (proj1 (GalleryFacts.loadEntryImage_spec x s)) as Hsp.
    apply (f_equal Entry.file_id) in Hsp. cbn in Hsp. rewrite Hsp in Hg.
    rewrite Hg in Hx. unfold loadEntryImage. rewrite Hg, Hx, Hsrc. cbn [negb].
    rewrite bool_decide_eq_false_2 by (rewrite Hs; set_solver).
    destruct (encodeURIComponent g) as [enc|] eqn:Henc; cbn.
    - split; [done | by left].
    - split; [done | by right]. }
  destruct r as [x' s1]. cbn [fst snd] in Hr. destruct Hr as [Hs1 Hx'].
  specialize (IH s1). destruct (queueImageLoads l s1) as [rest' s2].
  cbn [fst] in *. apply elem_of_cons in He as [-> | He]; [by apply Hx'|].
  by apply (IH e f).
Qed.

(** X10: no entry is left waiting for its image after a page is merged.
    In a state the component can reach, after [mergeTopPage], and so after
    a [load] whose request succeeded, every entry of the list that has a
    file id is no longer loading and has an image address, unless the file
    id is a string [encodeURIComponent] refuses. *)
Theorem merged_entries_are_resolved (s : State) (items : list Entry.t)
    (fir keep : bool) (Hreach : reachable s) :
  (∀ e f, e ∈ entries (mergeTopPage items fir keep s) →
     Entry.file_id e = Some f → f ≠ [] →
     Entry.loading e = false
     ∧ (truthy (Entry.src e) = true ∨ encodeURIComponent f = None))
  ∧ (∀ had page e f,
       e ∈ entries (load_settle fir keep had (inr page) s) →
       Entry.file_id e = Some f → f ≠ [] →
       Entry.loading e = false
       ∧ (truthy (Entry.src e) = true ∨ encodeURIComponent f = None))
  ∧ pendingImageLoads (mergeTopPage items fir keep s) = ∅.
Proof.
  destruct (TidyFacts.reachable_tidy s Hreach) as [_ Hloads].
  assert (Hmerge : ∀ items e f, e ∈ entries (mergeTopPage items fir keep s) →
     Entry.file_id e = Some f → f ≠ [] →
     Entry.loading e = false
     ∧ (truthy (Entry.src e) = true ∨ encodeURIComponent f = None)).
  { clear items. intros items e f. unfold mergeTopPage.
    match goal with |- context [queueImageLoads_entries ?x] => set (q := x) end.
    change (entries (syncSelectionWithEntries (queueImageLoads_entries q)))
      with (entries (queueImageLoads_entries q)).
    unfold queueImageLoads_entries.
    pose proof (queueImageLoads_resolved (entries q) q e f) as H.
    destruct (queueImageLoads (entries q) q) as [l s1]. cbn [fst] in H.
    apply H. subst q. by destruct keep. }
  split_and!.
  - apply Hmerge.
  - intros had page e f. unfold load_settle.
    set (m := mergeTopPage (Page.items page) fir keep s).
    assert (entries (set_loading false
      (if negb keep || negb had
       then set_hasMore (Page.hasMore page)
              (set_paginationCursor (Page.nextCursor page) m)
       else if negb (truthy (paginationCursor m))
            then set_paginationCursor (Page.nextCursor page) m else m))
      = entries m) as ->.
    { by destruct (negb keep || negb had), (negb (truthy (paginationCursor m))). }
    apply Hmerge.
  - destruct (TidyFacts.quiet_mergeTopPage items fir keep s) as [_ ->]. done.
Qed.

Lemma merged_entries_are_resolved_witness :
  let withFile := Entry.mk (js "5") [] [] None (Some (js "f5")) 0 None false in
  let page := [withFile; Scenario.entryOf "4"] in
  let s := load_settle false false false (inr (Page.mk page false None))
             (initialState None ∅) in
  let e := Entry.with_image withFile (Some (js "/api/fileurl?file_id=f5")) false in
  reachable s
  ∧ entries (mergeTopPage page true true s) !! 0%nat = Some e
  ∧ pendingImageLoads (mergeTopPage page true true s) = ∅.
Proof.
  intros withFile page s e.
  assert (Hreach : reachable s).
  { eapply reachable_step; [apply (reachable_init None ∅), NoDup_nil_2|].
    apply step_load_settle. intros p [= <-].
    apply (bool_decide_unpack _). vm_compute. exact I. }
  destruct (merged_entries_are_resolved s page true true Hreach) as (_ & _ & Hloads).
  split_and!; [done | | exact Hloads].
  vm_compute. reflexivity.
Defined.

End ImageFacts.

Module BatchFacts.
Import Gallery.

Lemma filter_ext_elem {A} (P Q : A → Prop) `{!∀ x, Decision (P x)}
    `{!∀ x, Decision (Q x)} (l : list A) :
  (∀ x, x ∈ l → (P x ↔ Q x)) → filter P l = filter Q l.
Proof.
  induction l as [|x l IH]; intros Hext; [done|].
  assert (filter P l = filter Q l) as IH'.
  { apply IH. intros y Hy. apply Hext. by right. }
  destruct (decide (P x)) as [HP | HP].
  - rewrite !filter_cons_True by (done || by apply Hext; [left|]). by rewrite IH'.
  - rewrite !filter_cons_False; [done | | done].
    intros HQ. apply HP, Hext; [by left | done].
Qed.

(** In a list without repeated ids, deleting at the index of an entry is
    dropping the entry with its id. *)
Lemma delete_by_id (l : list Entry.t) : ∀ (idx : nat) (e : Entry.t),
  NoDup (ids l) → l !! idx = Some e →
  delete idx l = filter (λ x, Entry.id x ≠ Entry.id e) l.
Proof.
  induction l as [|x l IH]; intros idx e Hnd Hidx; [done|].
  cbn in Hnd. apply NoDup_cons in Hnd as [Hx Hnd].
  destruct idx as [|k]; cbn in Hidx.
  - injection Hidx as <-. rewrite filter_cons_False by (intros Hq; by apply Hq).
    cbn. symmetry. apply JwtFacts.filter_all, Forall_forall.
    intros y Hy Heq. apply Hx. rewrite <- Heq. apply GalleryFacts.elem_of_ids. eauto.
  - rewrite filter_cons_True.
    + cbn. f_equal. by apply IH.
    + intros Heq. apply Hx. rewrite Heq. apply GalleryFacts.elem_of_ids.
      exists e. split; [by eapply list_elem_of_lookup_2 | done].
Qed.

(** Hiding the targets of a batch leaves the other entries, in their
    order. *)
Lemma hideTargets_entries (targets : list Entry.t) : ∀ s : State,
  NoDup (ids (entries s)) → NoDup (ids targets) →
  (∀ e, e ∈ targets → e ∈ entries s) →
  entries (hideTargets targets s).1
  = filter (λ e, Entry.id e ∉ ids targets) (entries s).
Proof.
  induction targets as [|e l IH]; intros s Hnd Hl Hin.
  { cbn. symmetry. apply JwtFacts.filter_all, Forall_forall.
    intros x _. apply not_elem_of_nil. }
  cbn in Hl. apply NoDup_cons in Hl as [Hel Hl].
  assert (He : e ∈ entries s) by (apply Hin; left).
  apply list_elem_of_lookup in He as [idx Hidx].
  destruct (GalleryFacts.hide_found s (Entry.id e) idx e
              (GalleryFacts.find_by_id _ _ _ Hnd Hidx)) as (H1 & _).
  rewrite (delete_by_id _ _ _ Hnd Hidx) in H1.
  cbn [hideTargets]. destruct (hideEntryOptimistically (Entry.id e) s) as [s1 snapshot].
  cbn [fst] in H1.
  specialize (IH s1). destruct (hideTargets l s1) as [s2 ts]. cbn [fst] in *.
  rewrite IH, H1.
  - rewrite list_filter_filter. apply list_filter_iff. intros x.
    cbn. rewrite not_elem_of_cons. tauto.
  - rewrite H1. eapply GalleryFacts.NoDup_ids_sublist; [apply sublist_filter | done].
  - done.
  - intros x Hx. rewrite H1. apply list_elem_of_filter. split; [|apply Hin; by right].
    intros Heq. apply Hel. rewrite <- Heq. apply GalleryFacts.elem_of_ids. eauto.
Qed.

Lemma finalize_frame (e : Entry.t) (s : State) :
  entries (finalizeDeleteSuccess e s) = entries s
  ∧ batchMode (finalizeDeleteSuccess e s) = batchMode s
  ∧ pendingDeleteIds (finalizeDeleteSuccess e s)
    = pendingDeleteIds s ∖ {[Entry.id e]}
  ∧ (selectedEntryIds s = [] → selectedEntryIds (finalizeDeleteSuccess e s) = [])
  ∧ listCache (finalizeDeleteSuccess e s)
    = Some (take PAGE_SIZE
              (filter (λ item, Entry.id item ≠ Entry.id e)
                 (default [] (listCache s)))).
Proof.
  unfold finalizeDeleteSuccess.
  match goal with |- context [removeEntryFromLocalCache e ?x] =>
    destruct (GalleryFacts.removeEntryFromLocalCache_frame e x) as (H1 & H2 & H3 & H4);
    set (r := removeEntryFromLocalCache e x) in * end.
  change (entries (syncSelectionWithEntries r)) with (entries r).
  change (batchMode (syncSelectionWithEntries r)) with (batchMode r).
  change (pendingDeleteIds (syncSelectionWithEntries r)) with (pendingDeleteIds r).
  change (listCache (syncSelectionWithEntries r)) with (listCache r).
  rewrite H1, H2, H4. split_and!; try done.
  - subst r. unfold removeEntryFromLocalCache.
    destruct (Entry.file_id e) as [f|]; [|done]. by destruct (truthy (Some f)).
  - intros Hs. unfold syncSelectionWithEntries. cbn. rewrite H3. cbn.
    by rewrite Hs.
Qed.

(** The loop of a batch whose requests all succeed. *)
Lemma batch_loop_confirmed (server : jsstring → Fetched (option jsstring))
    (targets : list (Entry.t * option Snapshot)) : ∀ (cur : State) (sc fc : nat),
  Forall (λ t, requestSucceeds server t.1 = true) targets →
  selectedEntryIds cur = [] →
  let p := foldl (λ p target,
             performBatchDelete_turn target
               (requestDeleteById (server (Entry.id target.1))) p)
             (mkProgress cur sc fc) targets in
  entries (bp_state p) = entries cur
  ∧ batchMode (bp_state p) = batchMode cur
  ∧ selectedEntryIds (bp_state p) = []
  ∧ successCount p = (sc + length targets)%nat
  ∧ failCount p = fc
  ∧ (∀ i, i ∈ pendingDeleteIds (bp_state p) →
       i ∈ pendingDeleteIds cur ∧ i ∉ ids targets.*1)
  ∧ (∀ i, i ∈ ids (default [] (listCache (bp_state p))) →
       (i ∈ ids (default [] (listCache cur))) ∧ i ∉ ids targets.*1).
Proof.
  induction targets as [|[e snapshot] l IH]; intros cur sc fc Hall Hsel.
  { cbn. split_and!; try done; try lia.
    - intros i Hi. split; [done | apply not_elem_of_nil].
    - intros i Hi. split; [done | apply not_elem_of_nil]. }
  apply Forall_cons in Hall as [He Hall]. cbn [fst] in He.
  assert (Hturn : performBatchDelete_turn (e, snapshot)
            (requestDeleteById (server (Entry.id (e, snapshot).1)))
            (mkProgress cur sc fc)
          = mkProgress (finalizeDeleteSuccess e cur) (sc + 1) fc).
  { unfold performBatchDelete_turn, requestSucceeds in *. cbn [fst snd].
    by destruct (requestDeleteById (server (Entry.id e))). }
  cbn [foldl]. rewrite Hturn.
  destruct (finalize_frame e cur) as (F1 & F2 & F3 & F4 & F5).
  destruct (IH (finalizeDeleteSuccess e cur) (sc + 1)%nat fc Hall (F4 Hsel))
    as (H1 & H2 & H3 & H4 & H5 & H6 & H7).
  cbv zeta. rewrite H1, H2, H3, H4, H5, F1, F2.
  split_and!; try done.
  - cbn [length]. lia.
  - intros i Hi. apply H6 in Hi as [Hi Hno]. rewrite F3 in Hi.
    apply elem_of_difference in Hi as [Hi Hne]. split; [done|].
    rewrite fmap_cons. cbn. rewrite not_elem_of_cons. split; [set_solver | done].
  - intros i Hi. apply H7 in Hi as [Hi Hno]. rewrite F5 in Hi. cbn [default] in Hi.
    eapply elem_of_sublist in Hi; [|apply GalleryFacts.ids_sublist, sublist_take].
    apply GalleryFacts.ids_filter in Hi as (x & Hx & Hne & <-).
    split; [apply GalleryFacts.elem_of_ids; eauto|].
    rewrite fmap_cons. cbn. rewrite not_elem_of_cons. done.
Qed.

(** X11: a batch deletion whose requests all succeed.  With ids distinct
    and at least one selected entry in the list, when the server confirms
    every delete, the list is the one before without the selected entries,
    the others in their order; the report says that all [N] targets were
    deleted; batch mode is left and the selection is empty; and no target
    is pending or in the list cache any more. *)
Theorem batch_delete_all_confirmed (s : State)
    (server : jsstring → Fetched (option jsstring))
    (Hunique : NoDup (ids (entries s)))
    (Hsome : filter (λ e, Entry.id e ∈ selectedEntryIds s) (entries s) ≠ [])
    (Hall : ∀ e, e ∈ entries s → Entry.id e ∈ selectedEntryIds s →
              requestSucceeds server e = true) :
  let targets := filter (λ e, Entry.id e ∈ selectedEntryIds s) (entries s) in
  let s' := performBatchDelete true server s in
  entries s' = filter (λ e, Entry.id e ∉ selectedEntryIds s) (entries s)
  ∧ toast s' = Some (ToastBatchDeleted (length targets))
  ∧ batchMode s' = false
  ∧ selectedEntryIds s' = []
  ∧ ∀ e, e ∈ targets →
      (Entry.id e ∉ ids (entries s'))
      ∧ (Entry.id e ∉ pendingDeleteIds s')
      ∧ (Entry.id e ∉ ids (default [] (listCache s'))).
Proof.
  intros targets s'.
  assert (Hs' : s' = performBatchDelete_report
            (performBatchDelete_loop server (hideTargets targets s).2
               (set_batchMode false (set_selectedEntryIds []
                  (hideTargets targets s).1)))).
  { subst s'. unfold performBatchDelete.
    by rewrite GalleryFacts.performBatchDelete_begin_targets. }
  assert (Hnd : NoDup (ids targets)).
  { eapply GalleryFacts.NoDup_ids_sublist; [apply sublist_filter | done]. }
  assert (Hin : ∀ e, e ∈ targets → e ∈ entries s).
  { intros e He. by apply list_elem_of_filter in He as [_ ?]. }
  destruct (GalleryFacts.hideTargets_spec targets s Hunique Hnd Hin) as (T1 & _ & _).
  pose proof (hideTargets_entries targets s Hunique Hnd Hin) as T2.
  destruct (hideTargets targets s) as [s1 tg]. cbn [fst snd] in *.
  unfold performBatchDelete_loop in Hs'.
  destruct (batch_loop_confirmed server tg
              (set_batchMode false (set_selectedEntryIds [] s1)) 0 0)
    as (L1 & L2 & L3 & L4 & L5 & L6 & L7); [|done|].
  { apply Forall_forall. intros t Ht.
    assert (t.1 ∈ targets) as Ht1.
    { rewrite <- T1. apply list_elem_of_fmap. eauto. }
    apply list_elem_of_filter in Ht1 as [? ?]. by apply Hall. }
  cbv zeta in L1, L2, L3, L4, L5, L6, L7.
  set (p := foldl _ _ tg) in *.
  assert (Hrep : performBatchDelete_report p
                 = showToastMsg (ToastBatchDeleted (successCount p)) (bp_state p)).
  { unfold performBatchDelete_report. by rewrite L5. }
  rewrite Hrep in Hs'.
  assert (Hent : entries s'
                 = filter (λ e, Entry.id e ∉ selectedEntryIds s) (entries s)).
  { rewrite Hs'. change (entries (showToastMsg _ (bp_state p)))
      with (entries (bp_state p)).
    rewrite L1. change (entries (set_batchMode false _)) with (entries s1).
    rewrite T2. apply filter_ext_elem. intros x Hx. split.
    - intros Hno Hsel. apply Hno. apply GalleryFacts.elem_of_ids. exists x.
      split; [by apply list_elem_of_filter | done].
    - intros Hno (t & [Ht _]%list_elem_of_filter & Heq)%GalleryFacts.elem_of_ids.
      apply Hno. by rewrite <- Heq. }
  split_and!; [done | | | |].
  - rewrite Hs'. cbn. rewrite L4. f_equal. f_equal.
    by rewrite <- T1, length_fmap.
  - rewrite Hs'. change (batchMode (bp_state p) = false). by rewrite L2.
  - rewrite Hs'. exact L3.
  - intros e He. rewrite T1 in L6, L7. split_and!.
    + rewrite Hent. intros (x & [Hx _]%list_elem_of_filter & Heq)%GalleryFacts.elem_of_ids.
      apply Hx. rewrite Heq. by apply list_elem_of_filter in He as [? _].
    + rewrite Hs'. intros Hi. apply L6 in Hi as [_ Hno]. apply Hno.
      apply GalleryFacts.elem_of_ids. eauto.
    + rewrite Hs'. intros Hi. apply L7 in Hi as [_ Hno]. apply Hno.
      apply GalleryFacts.elem_of_ids. eauto.
Qed.

Lemma batch_delete_all_confirmed_witness :
  let s := Scenario.showing ["5"; "4"; "3"; "2"]%string ["3"; "5"]%string in
  let server := λ _ : jsstring, Scenario.deleted in
  let s' := performBatchDelete true server s in
  NoDup (ids (entries s))
  ∧ ids (entries s') = js <$> ["4"; "2"]%string
  ∧ toast s' = Some (ToastBatchDeleted 2)
  ∧ entries s' = filter (λ e, Entry.id e ∉ selectedEntryIds s) (entries s).
Proof.
  intros s server s'.
  assert (Hunique : NoDup (ids (entries s))).
  { apply (bool_decide_unpack _). vm_compute. exact I. }
  assert (Hsome : filter (λ e, Entry.id e ∈ selectedEntryIds s) (entries s) ≠ []).
  { apply (bool_decide_unpack _). vm_compute. exact I. }
  assert (Hall : ∀ e, e ∈ entries s → Entry.id e ∈ selectedEntryIds s →
                   requestSucceeds server e = true).
  { intros e _ _. reflexivity. }
  destruct (batch_delete_all_confirmed s server Hunique Hsome Hall) as (Hlist & _).
  split_and!; [done | reflexivity | reflexivity | exact Hlist].
Defined.

End BatchFacts.

Module RefreshFacts.
Import Gallery Viewer.

Lemma stringOfN_inj (a b : N) : stringOfN a = stringOfN b → a = b.
Proof.
  intros H. pose proof (ServerFacts.parseInt10_stringOfN a) as Ha.
  rewrite H, ServerFacts.parseInt10_stringOfN in Ha. injection Ha. lia.
Qed.

Lemma server_part_insert (l : list Entry.t) (k : nat) (e : Entry.t)
    (src : option jsstring) (loading : bool) :
  l !! k = Some e →
  Entry.server_part <$> <[k := Entry.with_image e src loading]> l
  = Entry.server_part <$> l.
Proof.
  intros Hk. rewrite list_fmap_insert.
  apply list_insert_id. by rewrite list_lookup_fmap, Hk.
Qed.

(** X12: refreshing the image of the entry the viewer shows touches nothing
    else.  For a time [now] that [Date.now()] can give (a time value, at
    most 8.64e15), [refreshSingleImage] leaves the ids, the order and the
    server part of every entry, every entry but the one at the selected
    index, the selected index, the selection, the pending deletions, the
    list cache and the pagination as they are.  When the viewer shows an
    entry with a file id that [encodeURIComponent] accepts, that entry gets
    the address stamped with the time, not loading, and a refresh at
    another time gives another address; the image cache holds afterwards
    only what it held before and, at most, that address under that file
    id.  When the viewer shows no entry nothing changes. *)
Theorem refresh_touches_one_image (now : N) (s : State)
    (Hnow : (now ≤ 8640000000000000)%N) :
  let s' := refreshSingleImage now s in
  ids (entries s') = ids (entries s)
  ∧ Entry.server_part <$> entries s' = Entry.server_part <$> entries s
  ∧ (∀ k, Z.of_nat k ≠ selectedIndex s → entries s' !! k = entries s !! k)
  ∧ selectedIndex s' = selectedIndex s
  ∧ selectedEntryIds s' = selectedEntryIds s
  ∧ pendingDeleteIds s' = pendingDeleteIds s
  ∧ listCache s' = listCache s
  ∧ paginationCursor s' = paginationCursor s ∧ hasMore s' = hasMore s
  ∧ (∀ e f enc,
       currentEntry s = Some e → Entry.file_id e = Some f → f ≠ [] →
       encodeURIComponent f = Some enc →
       let url := js "/api/fileurl?file_id=" ++ enc ++ js "&t=" ++ stringOfN now in
       currentEntry s' = Some (Entry.with_image e (Some url) false)
       ∧ ∀ now', (now' ≤ 8640000000000000)%N → now' ≠ now →
           currentEntry (refreshSingleImage now' s) ≠ currentEntry s')
  ∧ (∀ fileId url,
       imageCache s' !! fileId = Some url →
       imageCache s !! fileId = Some url
       ∨ ∃ e enc,
           currentEntry s = Some e ∧ Entry.file_id e = Some fileId
           ∧ encodeURIComponent fileId = Some enc
           ∧ url = js "/api/fileurl?file_id=" ++ enc ++ js "&t=" ++ stringOfN now)
  ∧ (currentEntry s = None → s' = s).
Proof.
  intros s'.
  assert (Hshape : s' = s
    ∨ ∃ e src,
        0 ≤ selectedIndex s
        ∧ entries s !! Z.to_nat (selectedIndex s) = Some e
        ∧ entries s'
          = <[Z.to_nat (selectedIndex s) := Entry.with_image e src false]> (entries s)
        ∧ selectedIndex s' = selectedIndex s
        ∧ selectedEntryIds s' = selectedEntryIds s
        ∧ pendingDeleteIds s' = pendingDeleteIds s
        ∧ listCache s' = listCache s
        ∧ paginationCursor s' = paginationCursor s ∧ hasMore s' = hasMore s).
  { subst s'. unfold refreshSingleImage. case_bool_decide as Hneg; [by left|].
    destruct (entries s !! Z.to_nat (selectedIndex s)) as [e|] eqn:He; [|by left].
    destruct (Entry.file_id e) as [[|c r]|]; [by left | | by left].
    destruct (encodeURIComponent (c :: r)) as [enc|]; right; eexists e, _;
      (split; [lia|]); (split; [done|]); split_and!; done. }
  assert (Hfound : ∀ now0 e f enc,
    currentEntry s = Some e → Entry.file_id e = Some f → f ≠ [] →
    encodeURIComponent f = Some enc →
    let url := js "/api/fileurl?file_id=" ++ enc ++ js "&t=" ++ stringOfN now0 in
    currentEntry (refreshSingleImage now0 s)
    = Some (Entry.with_image e (Some url) false)).
  { intros now0 e f enc He Hf Hne Henc url. unfold currentEntry in He.
    case_bool_decide as Hneg; [done|].
    unfold refreshSingleImage. rewrite bool_decide_eq_false_2 by done.
    rewrite He, Hf. destruct f as [|c r]; [done|]. rewrite Henc.
    unfold currentEntry. cbn. rewrite bool_decide_eq_false_2 by done.
    rewrite list_lookup_insert_eq; [done|]. by eapply lookup_lt_Some. }
  split_and!.
  1-9: destruct Hshape as [-> | (e & src & Hpos & He & Hl & H1 & H2 & H3 & H4 & H5 & H6)];
    [done|].
  - rewrite Hl. unfold ids. rewrite list_fmap_insert.
    apply list_insert_id. by rewrite list_lookup_fmap, He.
  - rewrite Hl. by apply server_part_insert.
  - intros k Hk. rewrite Hl. apply list_lookup_insert_ne. lia.
  - done.
  - done.
  - done.
  - done.
  - done.
  - done.
  - intros e f enc He Hf Hne Henc url.
    pose proof (Hfound now e f enc He Hf Hne Henc) as Hcur.
    split; [done|].
    intros now' _ Hnow'.
    pose proof (Hfound now' e f enc He Hf Hne Henc) as Hcur'.
    fold s' in Hcur. rewrite Hcur, Hcur'. intros [= Heq].
    apply app_inv_head in Heq.
    apply (app_inv_head (js "&t=")) in Heq. by apply stringOfN_inj in Heq.
  - intros g u. subst s'. unfold refreshSingleImage, currentEntry.
    case_bool_decide as Hneg; [by left|].
    destruct (entries s !! Z.to_nat (selectedIndex s)) as [e|] eqn:He; [|by left].
    destruct (Entry.file_id e) as [[|c r]|] eqn:Hf; [by left | | by left].
    destruct (encodeURIComponent (c :: r)) as [enc|] eqn:Henc; [|by left].
    cbn. destruct (decide (g = c :: r)) as [-> | Hne].
    + rewrite lookup_insert_eq. intros [= <-]. right. by exists e, enc.
    + rewrite lookup_insert_ne by done. by left.
  - intros Hnone. subst s'. unfold currentEntry in Hnone. unfold refreshSingleImage.
    case_bool_decide; [done|]. by rewrite Hnone.
Qed.

Lemma refresh_touches_one_image_witness :
  let shown := Entry.mk (js "4") [] [] None (Some (js "f4")) 0 None false in
  let s :=
    set_selectedIndex 1
      (set_entries [Scenario.entryOf "5"; shown; Scenario.entryOf "3"]
         (initialState None ∅)) in
  (1700000000000 ≤ 8640000000000000)%N
  ∧ currentEntry (refreshSingleImage 1700000000000 s)
    = Some (Entry.with_image shown
              (Some (js "/api/fileurl?file_id=f4&t=1700000000000")) false)
  ∧ ids (entries (refreshSingleImage 1700000000000 s)) = ids (entries s).
Proof.
  intros shown s.
  assert (Hnow : (1700000000000 ≤ 8640000000000000)%N).
  { apply (bool_decide_unpack _). vm_compute. exact I. }
  destruct (refresh_touches_one_image 1700000000000 s Hnow)
    as (Hids & _ & _ & _ & _ & _ & _ & _ & _ & Hshown & _).
  destruct (Hshown shown (js "f4") (js "f4")) as [Hcurrent _];
    [reflexivity | reflexivity | discriminate | reflexivity |].
  split_and!; [exact Hnow | | exact Hids].
  etrans; [exact Hcurrent | reflexivity].
Defined.

End RefreshFacts.

Module ClearCacheFacts.
Import Gallery Images.

Lemma loadEntryImage_fresh (e : Entry.t) (s : State) :
  freshCache s → freshEntry e →
  freshCache (loadEntryImage e s).2 ∧ freshEntry (loadEntryImage e s).1
  ∧ entries (loadEntryImage e s).2 = entries s.
Proof.
  intros Hc He. unfold loadEntryImage.
  destruct (Entry.file_id e) as [f|] eqn:Hf; [|done].
  destruct (negb (truthy (Some f))); [done|].
  destruct (truthy (Entry.src e) && negb (Entry.loading e)); [done|].
  case_bool_decide; [done|].
  destruct (encodeURIComponent f) as [enc|] eqn:Henc; cbn.
  - split_and!; [| |done].
    + intros g url. unfold freshCache in Hc. cbn.
      destruct (decide (g = f)) as [-> | Hne].
      * rewrite lookup_insert_eq. intros [= <-]. unfold canonicalUrl.
        by rewrite Henc.
      * rewrite lookup_insert_ne by done. apply Hc.
    + right. cbn. rewrite Hf. cbn. unfold canonicalUrl. by rewrite Henc.
  - split_and!; [done | | done].
    destruct He as [He | He]; [by left | right]. cbn. by rewrite He.
Qed.

Lemma queueImageLoads_fresh (l : list Entry.t) : ∀ s : State,
  freshCache s → Forall freshEntry l →
  freshCache (queueImageLoads l s).2 ∧ Forall freshEntry (queueImageLoads l s).1.
Proof.
  induction l as [|e l IH]; intros s Hc Hl; [done|].
  apply Forall_cons in Hl as [He Hl]. cbn [queueImageLoads].
  set (r := if negb (truthy (Entry.file_id e)) then (e, s)
            else if truthy (Entry.src e) && negb (Entry.loading e) then (e, s)
            else loadEntryImage e s).
  assert (Hr : freshCache r.2 ∧ freshEntry r.1).
  { subst r. repeat case_match; try done.
    by destruct (loadEntryImage_fresh e s Hc He) as (? & ? & _). }
  destruct r as [e' s1]. cbn [fst snd] in Hr. destruct Hr as [Hc1 He1].
  destruct (IH s1 Hc1 Hl) as [Hc2 Hl2].
  destruct (queueImageLoads l s1) as [rest' s2]. cbn [fst snd] in *.
  split; [done | by constructor].
Qed.

Lemma queueImageLoads_entries_fresh (s : State) :
  freshImages s → freshImages (queueImageLoads_entries s).
Proof.
  intros [Hc Hl]. unfold queueImageLoads_entries.
  destruct (queueImageLoads_fresh (entries s) s Hc Hl) as [Hc' Hl'].
  destruct (queueImageLoads (entries s) s) as [l s1]. by split.
Qed.

Lemma loadEntryImage_toast (e : Entry.t) (s : State) :
  toast (loadEntryImage e s).2 = toast s.
Proof.
  unfold loadEntryImage. destruct (Entry.file_id e) as [f|]; [|done].
  destruct (negb (truthy (Some f))); [done|].
  destruct (truthy (Entry.src e) && negb (Entry.loading e)); [done|].
  case_bool_decide; [done|]. by destruct (encodeURIComponent f).
Qed.

Lemma queueImageLoads_toast (l : list Entry.t) : ∀ s : State,
  toast (queueImageLoads l s).2 = toast s.
Proof.
  induction l as [|e l IH]; intros s; [done|]. cbn [queueImageLoads].
  set (r := if negb (truthy (Entry.file_id e)) then (e, s)
            else if truthy (Entry.src e) && negb (Entry.loading e) then (e, s)
            else loadEntryImage e s).
  assert (Hr : toast r.2 = toast s).
  { subst r. repeat case_match; try done. apply loadEntryImage_toast. }
  destruct r as [e' s1]. specialize (IH s1).
  destruct (queueImageLoads l s1) as [rest' s2]. cbn in *. congruence.
Qed.

(** Entries built with a forced image refresh have no address yet. *)
Lemma buildEntryWithCache_forced (entry : Entry.t) (existing : option Entry.t)
    (cache : gmap jsstring jsstring) :
  Entry.src (buildEntryWithCache entry existing cache true) = None
  ∧ Entry.loading (buildEntryWithCache entry existing cache true)
    = truthy (Entry.file_id entry).
Proof.
  unfold buildEntryWithCache. rewrite andb_false_r. done.
Qed.

Lemma fresh_mergeTopPage (items : list Entry.t) (s : State) :
  freshCache s → freshImages (mergeTopPage items true false s).
Proof.
  intros Hc. unfold mergeTopPage.
  match goal with
  | |- freshImages (syncSelectionWithEntries (queueImageLoads_entries ?q)) =>
      assert (Hq : freshImages q)
  end.
  { split; [exact Hc|]. cbn. apply Forall_fmap, Forall_forall. intros e _. left.
    apply buildEntryWithCache_forced. }
  apply queueImageLoads_entries_fresh in Hq. destruct Hq as [Hc' Hl']. by split.
Qed.

Lemma fresh_load_begin (s : State) :
  freshImages s → freshImages (load_begin true false s).1.
Proof.
  intros [Hc Hl]. unfold load_begin. cbn [negb fst].
  destruct (listCache (set_error [] s)) as [[|c cs]|]; [by split | | by split].
  match goal with
  | |- freshImages (set_loading false (queueImageLoads_entries ?q)) =>
      assert (Hq : freshImages q)
  end.
  { split; [exact Hc|]. cbn. apply Forall_fmap, Forall_forall. intros e _. left.
    apply buildEntryWithCache_forced. }
  apply queueImageLoads_entries_fresh in Hq. destruct Hq as [Hc' Hl']. by split.
Qed.

Lemma fresh_load_settle (had : bool) (fetched : JsError + Page.t) (s : State) :
  freshImages s → freshImages (load_settle true false had fetched s).
Proof.
  intros Hs. unfold load_settle. destruct fetched as [e | page]; [by destruct Hs|].
  cbn [negb orb].
  destruct (fresh_mergeTopPage (Page.items page) s (proj1 Hs)) as [Hc Hl].
  by split.
Qed.

(** X13: clearing the image cache drops every old address.  Declined,
    [clearImageCache] changes nothing.  Confirmed, it shows its toast, and
    both when it reaches the [await] of the [load(true, false)] it starts
    and after the reply, if the reply finds the component as the call left
    it, the image cache holds under a file id only the address
    [/api/fileurl?file_id=<id>] of that id, and every entry of the list has
    either no address or that of its file id: no time-stamped address of an
    earlier refresh and no cached address survives.  When there is no list
    cache to paint from, the entries are the ones before, without address,
    those with a file id marked as loading, and the cache is empty. *)
Theorem clearImageCache_drops_old_addresses (s : State) (had : bool)
    (fetched : JsError + Page.t) :
  let cleared := (clearImageCache_begin true s).1 in
  clearImageCache_begin false s = (s, false)
  ∧ toast cleared = Some ToastCacheCleared
  ∧ freshImages cleared
  ∧ freshImages (load_settle true false had fetched cleared)
  ∧ (default [] (listCache s) = [] →
       imageCache cleared = ∅
       ∧ loading cleared = true
       ∧ entries cleared
         = (λ e, Entry.with_image e None (truthy (Entry.file_id e))) <$> entries s).
Proof.
  intros cleared.
  set (blank := set_toast (Some ToastCacheCleared)
    (set_entries
       ((λ entry, Entry.with_image entry None (truthy (Entry.file_id entry)))
          <$> entries (set_imageCache ∅ s)) (set_imageCache ∅ s))).
  assert (Hcleared : cleared = (load_begin true false blank).1) by done.
  assert (Hblank : freshImages blank).
  { split; [intros f url Hf; cbn in Hf; by rewrite lookup_empty in Hf|].
    cbn. apply Forall_fmap, Forall_forall. intros e _. by left. }
  assert (Hfresh : freshImages cleared).
  { rewrite Hcleared. by apply fresh_load_begin. }
  split_and!; [done | | done | by apply fresh_load_settle |].
  - rewrite Hcleared. unfold load_begin. cbn [negb fst].
    destruct (listCache (set_error [] blank)) as [[|c cs]|]; [done | | done].
    match goal with
    | |- toast (set_loading false (queueImageLoads_entries ?q)) = _ =>
        set (painted := q)
    end.
    unfold queueImageLoads_entries.
    pose proof (queueImageLoads_toast (entries painted) painted) as Ht.
    by destruct (queueImageLoads (entries painted) painted).
  - intros Hno. rewrite Hcleared. unfold load_begin. cbn [negb fst].
    change (listCache (set_error [] blank)) with (listCache s).
    destruct (listCache s) as [[|c cs]|]; [done | done | done].
Qed.

End ClearCacheFacts.

(** ** Pagination and a browsing session *)

Module PaginationFacts.
Import Server.

#[local] Existing Instances ServerFacts.idDesc_total ServerFacts.keyDesc_trans
  ServerFacts.keyDesc_antisymm ServerFacts.keyDesc_dec.

#[local] Instance keyDesc_total : Total keyDesc.
Proof. intros a b. unfold keyDesc. lia. Qed.

Lemma trim_id (s : jsstring) :
  Forall (λ c, isWhiteSpace c = false) s → trim s = s.
Proof.
  intros H. unfold trim. rewrite (TagsFacts.trimStart_id s).
  - rewrite TagsFacts.trimStart_id; [apply reverse_involutive|].
    intros c Hc%head_Some_elem_of. rewrite elem_of_reverse in Hc.
    by apply (proj1 (Forall_forall _ _) H).
  - intros c Hc%head_Some_elem_of. by apply (proj1 (Forall_forall _ _) H).
Qed.

Lemma hexLower_not_whiteSpace (d : N) : (d < 16)%N → isWhiteSpace (hexLower d) = false.
Proof.
  intros H.
  assert (d = 0 ∨ d = 1 ∨ d = 2 ∨ d = 3 ∨ d = 4 ∨ d = 5 ∨ d = 6 ∨ d = 7
          ∨ d = 8 ∨ d = 9 ∨ d = 10 ∨ d = 11 ∨ d = 12 ∨ d = 13 ∨ d = 14
          ∨ d = 15)%N as Hcases by lia.
  repeat (destruct Hcases as [-> | Hcases]; [reflexivity|]). by subst.
Qed.

(** The string of an [ObjectId] is not changed by [trim], so the cursor a
    page gives is read back as the key it was made from. *)
Lemma cursor_read_back (k : N) :
  (k < 2 ^ 96)%N →
  ObjectId_parse (trim (ObjectId_toString k)) = Some k
  ∧ truthy (Some (ObjectId_toString k)) = true.
Proof.
  intros Hk. split; [|done]. rewrite trim_id.
  - by apply ServerFacts.ObjectId_parse_toString.
  - unfold ObjectId_toString. generalize 24%nat. intros n.
    induction n as [|n IH]; constructor; [|done].
    apply hexLower_not_whiteSpace, N.mod_lt. lia.
Qed.

(** In a list of distinct keys sorted downwards, the keys below the key at
    position [j] are the keys after that position. *)
Lemma filter_below_drop (keys : list N) : ∀ (j : nat) (c : N),
  StronglySorted keyDesc keys → NoDup keys → keys !! j = Some c →
  filter (λ k, (k < c)%N) keys = drop (S j) keys.
Proof.
  induction keys as [|a r IH]; intros j c Hs Hnd Hj; [done|].
  apply StronglySorted_cons in Hs as [Ha Hs].
  apply NoDup_cons in Hnd as [Hfresh Hnd].
  assert (Hlt : ∀ x, x ∈ r → (x < a)%N).
  { intros x Hx. pose proof (proj1 (Forall_forall _ _) Ha x Hx) as Hle.
    unfold keyDesc in Hle. assert (x ≠ a) by (by intros ->). lia. }
  destruct j as [|j]; cbn in Hj.
  - injection Hj as <-. rewrite filter_cons_False by lia. cbn.
    apply JwtFacts.filter_all, Forall_forall. auto.
  - rewrite filter_cons_False.
    + cbn. by apply IH.
    + apply list_elem_of_lookup_2, Hlt in Hj. lia.
Qed.

(** The page fetched at position [j] of the ids sorted downwards, the
    cursor being the id before that position. *)
Lemma page_at (store : list Doc) (limit j : nat)
    (Hunique : NoDup (_id <$> store))
    (Hoid : Forall (λ d, (_id d < 2 ^ 96)%N) store)
    (Hlimit : Z.of_nat limit < 2 ^ 1024 - 2 ^ 970)
    (Hj : (j ≤ length store)%nat) :
  let keys := merge_sort keyDesc (_id <$> store) in
  let L := Nat.max 1 (Nat.min limit 200) in
  let cursor :=
    match j with
    | O => None
    | S i => ObjectId_toString <$> keys !! i
    end in
  let more := bool_decide (j + L < length store)%nat in
  pageSummary (fetchPage store cursor limit)
  = Some (ObjectId_toString <$> take L (drop j keys), more,
          if more then ObjectId_toString <$> keys !! (j + L - 1)%nat else None).
Proof.
  intros keys L cursor more.
  assert (Hperm : _id <$> store ≡ₚ keys).
  { subst keys. by rewrite merge_sort_Permutation. }
  assert (Hlen : length keys = length store).
  { by rewrite <- Hperm, length_fmap. }
  assert (Hss : StronglySorted keyDesc keys).
  { subst keys. apply StronglySorted_merge_sort; apply _. }
  assert (Hnd : NoDup keys) by by rewrite <- Hperm.
  assert (Hdrop : Sorted keyDesc (drop j keys)).
  { apply StronglySorted_Sorted. rewrite <- (take_drop j keys) in Hss.
    by apply StronglySorted_app_1_r in Hss. }
  assert (Hz : effectiveLimit (Some (stringOfN (N.of_nat limit))) = Z.of_nat L).
  { rewrite ServerFacts.effectiveLimit_numeral by lia. subst L. lia. }
  (* the reply of the server, by the keys found *)
  assert (Hpage : ∃ below,
    fetchPage store cursor limit
    = Gallery.fetchGalleryPage_reply limit
        (galleryBody (pagedRead store (Z.of_nat L) below))
    ∧ _id <$> findByIdDesc below (S L) store = take (S L) (drop j keys)).
  { unfold fetchPage, Gallery.fetchGalleryPage_query.
    cbn [Gallery.q_limit Gallery.q_cursor].
    destruct j as [|i].
    - exists None. subst cursor. cbn [truthy].
      rewrite ServerFacts.handleGallery_get_first, Hz. split; [done|].
      by apply (ServerFacts.findByIdDesc_keys None).
    - destruct (lookup_lt_is_Some_2 keys i) as [c Hc]; [lia|].
      assert (Hbound : (c < 2 ^ 96)%N).
      { apply list_elem_of_lookup_2 in Hc. rewrite <- Hperm in Hc.
        apply list_elem_of_fmap in Hc as (d & -> & Hd).
        by apply (proj1 (Forall_forall _ _) Hoid). }
      destruct (cursor_read_back c Hbound) as [Hparse Htruthy].
      exists (Some c). subst cursor. rewrite Hc. cbn [fmap option_fmap option_map].
      rewrite Htruthy.
      rewrite (ServerFacts.handleGallery_get_after _ _ _ c Hparse), Hz.
      split; [done|].
      rewrite <- (filter_below_drop keys i c Hss Hnd Hc).
      apply (ServerFacts.findByIdDesc_keys (Some c)); [done|].
      by rewrite (filter_below_drop keys i c Hss Hnd Hc). }
  destruct Hpage as (below & -> & Hfound).
  rewrite ServerFacts.pageSummary_paged.
  replace (Z.to_nat (Z.of_nat L + 1)) with (S L) by lia. rewrite Hfound.
  set (rest := drop j keys) in *.
  assert (Hrest : length rest = (length store - j)%nat).
  { subst rest. rewrite length_drop. lia. }
  assert (HL : (1 ≤ L)%nat) by (subst L; lia).
  assert (Hmore : bool_decide (Z.of_nat (length (take (S L) rest)) > Z.of_nat L)
                  = more).
  { subst more. apply bool_decide_ext. rewrite length_take. lia. }
  rewrite Hmore. rewrite Nat2Z.id.
  destruct more eqn:Hm; subst more.
  - apply bool_decide_eq_true in Hm.
    rewrite take_take. replace (L `min` S L)%nat with L by lia.
    assert (Hlast : last (take L rest) = keys !! (j + L - 1)%nat).
    { rewrite last_lookup, length_take.
      replace (Init.Nat.pred (L `min` length rest)) with (L - 1)%nat by lia.
      rewrite lookup_take_lt by lia. subst rest. rewrite lookup_drop.
      f_equal. lia. }
    rewrite Hlast.
    destruct (keys !! (j + L - 1)%nat) as [k|]; [done|done].
  - apply bool_decide_eq_false in Hm.
    rewrite !take_ge by lia. done.
Qed.

(** X14: keyset pagination tiles the collection.  For a collection whose
    documents have distinct ids, a page size up to [2^53] (an integer that
    [String] prints as its full decimal numeral) and any
    position [j] in the list of the ids sorted downwards: the page fetched
    with the id before position [j] as cursor (no cursor for [j = 0]) shows
    the [L] ids from position [j] on, [L] being the size asked clamped to
    1..200; it says that more remain exactly when ids remain after them, and
    its next cursor is then the last id shown, the id before position
    [j + L].  So following the cursors from the first page shows every
    document once, newest first, and stops at the end. *)
Theorem keyset_pages_tile (store : list Doc) (limit j : nat)
    (Hunique : NoDup (_id <$> store))
    (Hoid : Forall (λ d, (_id d < 2 ^ 96)%N) store)
    (Hlimit : Z.of_nat limit ≤ 2 ^ 53)
    (Hj : (j ≤ length store)%nat) :
  let keys := merge_sort keyDesc (_id <$> store) in
  let L := Nat.max 1 (Nat.min limit 200) in
  let cursor :=
    match j with
    | O => None
    | S i => ObjectId_toString <$> keys !! i
    end in
  let more := bool_decide (j + L < length store)%nat in
  pageSummary (fetchPage store cursor limit)
  = Some (ObjectId_toString <$> take L (drop j keys), more,
          if more then ObjectId_toString <$> keys !! (j + L - 1)%nat else None).
Proof.
  intros keys L cursor more.
  assert (Hsafe : 2 ^ 53 < 2 ^ 1024 - 2 ^ 970).
  { apply (bool_decide_unpack _). vm_compute. exact I. }
  apply page_at; [done | done | | done].
  eapply Z.le_lt_trans; [exact Hlimit | exact Hsafe].
Qed.

Lemma keyset_pages_tile_witness :
  let store := Scenario.docOf <$> [30; 70; 10; 60; 20; 50; 40]%N in
  NoDup (_id <$> store)
  ∧ pageSummary (fetchPage store (Some (ObjectId_toString 60)) 3)
    = Some (ObjectId_toString <$> [50; 40; 30]%N, true,
            Some (ObjectId_toString 30)).
Proof.
  intros store.
  assert (Hunique : NoDup (_id <$> store)).
  { apply (bool_decide_unpack _). vm_compute. exact I. }
  assert (Hoid : Forall (λ d, (_id d < 2 ^ 96)%N) store).
  { apply (bool_decide_unpack _). vm_compute. exact I. }
  assert (Hlimit : Z.of_nat 3 ≤ 2 ^ 53).
  { apply (bool_decide_unpack _). vm_compute. exact I. }
  assert (Hj : (2 ≤ length store)%nat).
  { apply (bool_decide_unpack _). vm_compute. exact I. }
  split; [exact Hunique|].
  exact (keyset_pages_tile store 3 2 Hunique Hoid Hlimit Hj).
Defined.

End PaginationFacts.

Module SessionFacts.
Import Gallery Server Session.

#[local] Existing Instances ServerFacts.keyDesc_dec.
#[local] Arguments mergeTopPage : simpl never.
#[local] Arguments PAGE_SIZE : simpl never.

Lemma queue_flags (l : list Entry.t) (s : State) :
  loading (queueImageLoads l s).2 = loading s
  ∧ loadingMore (queueImageLoads l s).2 = loadingMore s.
Proof. by destruct (GalleryFacts.queueImageLoads_spec l s) as [_ []]. Qed.

Lemma mergeTopPage_flags (items : list Entry.t) (fir keep : bool) (s : State) :
  loading (mergeTopPage items fir keep s) = loading s
  ∧ loadingMore (mergeTopPage items fir keep s) = loadingMore s.
Proof.
  unfold mergeTopPage.
  match goal with |- context [queueImageLoads_entries ?x] => set (q := x) end.
  change (loading (queueImageLoads_entries q) = loading s
          ∧ loadingMore (queueImageLoads_entries q) = loadingMore s).
  unfold queueImageLoads_entries.
  pose proof (queue_flags (entries q) q) as [H1 H2].
  destruct (queueImageLoads (entries q) q) as [l s1]. cbn [snd] in *.
  change (loading s1 = loading s ∧ loadingMore s1 = loadingMore s).
  rewrite H1, H2. subst q. by destruct keep.
Qed.

Lemma load_begin_flags (fir flr : bool) (s : State) :
  loadingMore (load_begin fir flr s).1 = loadingMore s
  ∧ pendingDeleteIds (load_begin fir flr s).1 = pendingDeleteIds s.
Proof.
  split; [|apply GalleryFacts.excluded_load_begin].
  unfold load_begin. cbn [fst]. destruct flr; cbn [negb].
  { by case_bool_decide. }
  change (listCache (set_error [] s)) with (listCache s).
  destruct (listCache s) as [[|c cs]|]; [done| |done].
  match goal with |- context [queueImageLoads_entries ?x] => set (q := x) end.
  change (loadingMore (queueImageLoads_entries q) = loadingMore s).
  unfold queueImageLoads_entries.
  pose proof (queue_flags (entries q) q) as [_ H2].
  by destruct (queueImageLoads (entries q) q) as [l s1].
Qed.

(** The first [load] of a component: the list is the page, whatever the
    caches held. *)
Lemma first_load (reply : Fetched GalleryBody) (page : Page.t) (s : State) :
  fetchGalleryPage_reply PAGE_SIZE reply = inr page →
  pendingDeleteIds s = ∅ →
  let s' := load false false reply s in
  ids (entries s') = ids (Page.items page)
  ∧ hasMore s' = Page.hasMore page
  ∧ paginationCursor s' = Page.nextCursor page
  ∧ loading s' = false
  ∧ loadingMore s' = loadingMore s
  ∧ pendingDeleteIds s' = ∅.
Proof.
  intros Hpage Hpending s'. subst s'. unfold load.
  destruct (load_begin_flags false false s) as [Hlm Hp].
  destruct (load_begin false false s) as [s1 had]. cbn [fst] in *.
  rewrite Hpage. unfold load_settle. cbn [negb orb].
  pose proof (GalleryFacts.mergeTopPage_ids (Page.items page) false false s1) as Hids.
  destruct (GalleryFacts.mergeTopPage_frame (Page.items page) false false s1)
    as (Hpend & _).
  destruct (mergeTopPage_flags (Page.items page) false false s1) as [_ Hflag].
  set (m := mergeTopPage (Page.items page) false false s1) in *.
  cbv zeta in Hids. rewrite app_nil_r in Hids.
  rewrite GalleryFacts.visibleOnly_all in Hids
    by (intros e _; rewrite Hp, Hpending; set_solver).
  match goal with |- context [ids (entries ?x)] => set (fin := x) end.
  assert (entries fin = entries m ∧ hasMore fin = Page.hasMore page
          ∧ paginationCursor fin = Page.nextCursor page ∧ loading fin = false
          ∧ loadingMore fin = loadingMore m
          ∧ pendingDeleteIds fin = pendingDeleteIds m)
    as (-> & -> & -> & -> & -> & ->) by done.
  rewrite Hids, Hpend, Hflag, Hp, Hlm. done.
Qed.

(** The entries [loadMore] appends when the page repeats no id and brings
    only new ones. *)
Lemma appendNew_all (cache : gmap jsstring jsstring) (items : list Entry.t) :
  ∀ (app : list Entry.t) (seen : gset jsstring),
  NoDup (ids items) → (∀ i, i ∈ ids items → i ∉ seen) →
  (foldl (appendNew cache) (app, seen) items).1
  = app ++ ((λ e, buildEntryWithCache e None cache false) <$> items).
Proof.
  induction items as [|e r IH]; intros app seen Hnd Hnew.
  { cbn. by rewrite app_nil_r. }
  cbn in Hnd. apply NoDup_cons in Hnd as [He Hnd].
  cbn [foldl]. rewrite GalleryFacts.appendNew_eq.
  rewrite bool_decide_eq_false_2 by (apply Hnew; by left).
  rewrite IH; [by rewrite <- app_assoc | done |].
  intros i Hi. rewrite not_elem_of_union, not_elem_of_singleton. split.
  - by intros ->.
  - apply Hnew. by right.
Qed.

Lemma loadMore_settle_flags (fetched : JsError + Page.t) (s : State) :
  loading (loadMore_settle fetched s) = loading s.
Proof.
  unfold loadMore_settle. destruct fetched as [e | page]; [done|].
  destruct (appendedEntries page s) as [|a l]; [done|].
  pose proof (queue_flags (a :: l) s) as [H _].
  by destruct (queueImageLoads (a :: l) s) as [appended' s3].
Qed.

(** One more page of new entries. *)
Lemma next_page (page : Page.t) (s : State) :
  pendingDeleteIds s = ∅ → NoDup (ids (Page.items page)) →
  (∀ i, i ∈ ids (Page.items page) → i ∉ ids (entries s)) →
  let s' := loadMore_settle (inr page) (set_loadingMore true s) in
  ids (entries s') = ids (entries s) ++ ids (Page.items page)
  ∧ hasMore s' = Page.hasMore page
  ∧ paginationCursor s' = Page.nextCursor page
  ∧ loading s' = loading s
  ∧ loadingMore s' = false
  ∧ pendingDeleteIds s' = ∅.
Proof.
  intros Hpending Hnd Hnew s'. subst s'.
  set (s1 := set_loadingMore true s).
  destruct (GalleryFacts.loadMore_settle_page page s1)
    as (appended & Hsp & He & Hp & _ & Hc & Hm & Hl).
  rewrite (loadMore_settle_flags (inr page) s1).
  rewrite He, Hp, Hc, Hm, Hl, GalleryFacts.ids_app.
  rewrite (GalleryFacts.server_part_ids _ _ Hsp).
  split_and!; try done.
  f_equal. unfold appendedEntries. change (pendingDeleteIds s1) with (pendingDeleteIds s).
  rewrite GalleryFacts.visibleOnly_all
    by (intros e _; rewrite Hpending; set_solver).
  rewrite appendNew_all; [|done|].
  - cbn [app]. by apply GalleryFacts.ids_fmap_build.
  - intros i Hi. rewrite elem_of_list_to_set. by apply Hnew.
Qed.

(** [loadMore] with the reply that comes back. *)
Lemma loadMore_eq (server : GalleryQuery → Fetched GalleryBody) (s : State) :
  loadMore server s
  = if loading s || loadingMore s || negb (hasMore s)
       || negb (truthy (paginationCursor s))
    then s
    else loadMore_settle
           (fetchGalleryPage_reply PAGE_SIZE
              (server (mkQuery (Some (js "60")) (paginationCursor s))))
           (set_loadingMore true s).
Proof.
  unfold loadMore, loadMore_begin, fetchGalleryPage_query.
  destruct (loading s), (loadingMore s), (hasMore s),
    (truthy (paginationCursor s)); reflexivity.
Qed.

Lemma pageSummary_inv (r : JsError + Page.t) (l : list jsstring) (more : bool)
    (next : option jsstring) :
  pageSummary r = Some (l, more, next) →
  ∃ page, r = inr page ∧ ids (Page.items page) = l ∧ Page.hasMore page = more
          ∧ Page.nextCursor page = next.
Proof. destruct r as [e | page]; [done|]. intros [= <- <- <-]. eauto. Qed.

(** X15: a browsing session shows the whole collection, newest first.
    The component is mounted with whatever its caches hold and then reaches
    the end of its list [k] times, the server answering each request from a
    store of documents with distinct ids.  After that the list shows the
    first [60 (k + 1)] ids of the store sorted downwards, in that order and
    each once; [hasMore] says whether ids remain, and the cursor is then
    the last id shown; no load is under way.  Once [60 (k + 1)] reaches the
    size of the store the list shows every document. *)
Theorem browse_shows_newest_first (store : list Doc) (k : nat)
    (lc : option (list Entry.t)) (ic : gmap jsstring jsstring)
    (Hunique : NoDup (_id <$> store))
    (Hoid : Forall (λ d, (_id d < 2 ^ 96)%N) store) :
  let keys := merge_sort keyDesc (_id <$> store) in
  let shown := (60 * (k + 1))%nat in
  let s := browse store k (initialState lc ic) in
  ids (entries s) = ObjectId_toString <$> take shown keys
  ∧ hasMore s = bool_decide (shown < length store)%nat
  ∧ paginationCursor s
    = (if hasMore s then ObjectId_toString <$> keys !! (shown - 1)%nat else None)
  ∧ loading s = false ∧ loadingMore s = false
  ∧ ((length store ≤ shown)%nat →
       ids (entries s) ≡ₚ ObjectId_toString <$> (_id <$> store)).
Proof.
  intros keys shown s.
  assert (Hperm : _id <$> store ≡ₚ keys).
  { subst keys. by rewrite merge_sort_Permutation. }
  assert (Hlen : length keys = length store).
  { by rewrite <- Hperm, length_fmap. }
  assert (Hbound : ∀ x, x ∈ keys → (x < 2 ^ 96)%N).
  { intros x Hx. rewrite <- Hperm in Hx.
    apply list_elem_of_fmap in Hx as (d & -> & Hd).
    by apply (proj1 (Forall_forall _ _) Hoid). }
  assert (Hoids : NoDup (ObjectId_toString <$> keys)).
  { apply NoDup_fmap_2_strong; [|by rewrite <- Hperm].
    intros x y Hx Hy Heq.
    pose proof (ServerFacts.ObjectId_parse_toString x (Hbound x Hx)) as H1.
    pose proof (ServerFacts.ObjectId_parse_toString y (Hbound y Hy)) as H2.
    rewrite Heq in H1. congruence. }
  assert (Hsixty : Z.of_nat PAGE_SIZE < 2 ^ 1024 - 2 ^ 970) by done.
  (* the state after [k] more pages *)
  assert (Hinv :
    ids (entries s) = ObjectId_toString <$> take shown keys
    ∧ hasMore s = bool_decide (shown < length store)%nat
    ∧ paginationCursor s
      = (if bool_decide (shown < length store)%nat
         then ObjectId_toString <$> keys !! (shown - 1)%nat else None)
    ∧ loading s = false ∧ loadingMore s = false ∧ pendingDeleteIds s = ∅).
  { subst s shown. induction k as [|k IH].
    - change (browse store 0 (initialState lc ic))
        with (load false false (serve store (fetchGalleryPage_query None PAGE_SIZE))
                (initialState lc ic)).
      pose proof (PaginationFacts.page_at store PAGE_SIZE 0
                    Hunique Hoid Hsixty (Nat.le_0_l _)) as Htile.
      cbv zeta in Htile. fold keys in Htile.
      apply pageSummary_inv in Htile as (page & Hpage & Hitems & Hmore & Hnext).
      destruct (first_load (serve store (fetchGalleryPage_query None PAGE_SIZE))
                  page (initialState lc ic) Hpage eq_refl)
        as (H1 & H2 & H3 & H4 & H5 & H6).
      rewrite H1, H2, H3, H4, H5, H6, Hitems, Hmore, Hnext.
      split_and!; done.
    - change (browse store (S k) (initialState lc ic))
        with (loadMore (serve store) (browse store k (initialState lc ic))).
      set (prev := browse store k (initialState lc ic)) in *.
      destruct IH as (I1 & I2 & I3 & I4 & I5 & I6).
      set (j := (60 * (k + 1))%nat) in *.
      replace (60 * (S k + 1))%nat with (j + 60)%nat by lia.
      rewrite (loadMore_eq (serve store) prev), I4, I5, I2. cbn [orb].
      case_bool_decide as Hj; cbn [negb orb].
      2: { rewrite I1, I2, I3, I4, I5, I6.
           rewrite !bool_decide_eq_false_2 by lia.
           rewrite !take_ge by lia. done. }
      rewrite I3.
      destruct (lookup_lt_is_Some_2 keys (j - 1)) as [c Hc]; [lia|].
      rewrite Hc. cbn [fmap option_fmap option_map].
      destruct (PaginationFacts.cursor_read_back c) as [_ Htruthy].
      { apply Hbound. by eapply list_elem_of_lookup_2. }
      rewrite Htruthy. cbn [negb].
      pose proof (PaginationFacts.page_at store PAGE_SIZE j
                    Hunique Hoid Hsixty ltac:(lia)) as Htile.
      cbv zeta in Htile. fold keys in Htile.
      replace (match j with O => None | S i => ObjectId_toString <$> keys !! i end)
        with (Some (ObjectId_toString c)) in Htile.
      2: { destruct j as [|i] eqn:Ej; [lia|].
           replace (S i - 1)%nat with i in Hc by lia. by rewrite Hc. }
      change (Nat.max 1 (Nat.min PAGE_SIZE 200)) with 60%nat in Htile.
      apply pageSummary_inv in Htile as (page & Hpage & Hitems & Hmore' & Hnext).
      assert (Hreply : fetchGalleryPage_reply PAGE_SIZE
                (serve store (mkQuery (Some (js "60")) (Some (ObjectId_toString c))))
              = inr page).
      { rewrite <- Hpage. unfold fetchPage, serve, fetchGalleryPage_query.
        by rewrite Htruthy. }
      rewrite Hreply.
      assert (Hsplit : take (j + 60) keys = take j keys ++ take 60 (drop j keys)).
      { by rewrite take_take_drop. }
      assert (Hnd : NoDup (ObjectId_toString <$> take (j + 60) keys)).
      { eapply sublist_NoDup; [exact Hoids|]. apply fmap_sublist, sublist_take. }
      rewrite Hsplit, fmap_app in Hnd. apply NoDup_app in Hnd as (_ & Hdisj & Hnd).
      destruct (next_page page prev I6) as (N1 & N2 & N3 & N4 & N5 & N6).
      { by rewrite Hitems. }
      { rewrite Hitems, I1. intros i Hi Hi'. by apply (Hdisj i). }
      rewrite N1, N2, N3, N4, N5, N6, I1, I4, Hitems, Hmore', Hnext, Hsplit, fmap_app.
      split_and!; done. }
  destruct Hinv as (H1 & H2 & H3 & H4 & H5 & _).
  split_and!; try done.
  - by rewrite H3, H2.
  - intros Hall. rewrite H1, take_ge by lia. by rewrite Hperm.
Qed.

Lemma browse_shows_newest_first_witness :
  let store := Scenario.docOf <$> [30; 70; 10; 60; 20; 50; 40]%N in
  let s := browse store 1 (initialState None ∅) in
  NoDup (_id <$> store)
  ∧ ids (entries s) = ObjectId_toString <$> [70; 60; 50; 40; 30; 20; 10]%N
  ∧ hasMore s = false
  ∧ ids (entries s) ≡ₚ ObjectId_toString <$> (_id <$> store).
Proof.
  intros store s.
  assert (Hunique : NoDup (_id <$> store)).
  { apply (bool_decide_unpack _). vm_compute. exact I. }
  assert (Hoid : Forall (λ d, (_id d < 2 ^ 96)%N) store).
  { apply (bool_decide_unpack _). vm_compute. exact I. }
  destruct (browse_shows_newest_first store 1 None ∅ Hunique Hoid)
    as (Hids & Hmore & _ & _ & _ & Hall).
  split_and!; [done | | | ].
  - etrans; [exact Hids | reflexivity].
  - etrans; [exact Hmore | reflexivity].
  - apply Hall. apply (bool_decide_unpack _). vm_compute. exact I.
Defined.

End SessionFacts.

Module GuardFacts.
Import Server.

(** X16: [handleGallery] changes the collection only through a DELETE that
    carries a token [jwtVerify] accepts.  Whatever the platform functions,
    the bindings, the time, the collection and the request: the status is
    one of 200, 400, 401, 404, 405 and 500; a method other than GET and
    DELETE is answered 405 and a request without an accepted token 401,
    both before the database is looked at; and when the collection after
    the request differs from the one before, the request was a DELETE with
    an accepted token, the answer is [{ ok: true, deletedId }], and the
    collection lost exactly one document, the first one whose id is the one
    sent. *)
Theorem gallery_is_guarded (hmacSha256 : list N → list N → list N)
    (JSON_parse : jsstring → option Jwt.Parsed)
    (stringToNumber : jsstring → option Z)
    (env : Env) (now : Z) (collection : list Doc) (request : Request) :
  let reply := handleGallery hmacSha256 JSON_parse stringToNumber env now
                 collection request in
  let accepted :=
    ∃ token payload,
      bearerToken (authorization request) = Some token ∧ token ≠ []
      ∧ Jwt.jwtVerify hmacSha256 JSON_parse stringToNumber token
          (default (js "change-me") (or_else (JWT_SECRET env) None)) now
        = inr payload in
  status reply.1 ∈ [200; 400; 401; 404; 405; 500]
  ∧ (method request = OtherMethod →
       reply = (JsonError 405 (js "Method Not Allowed"), collection))
  ∧ (method request ≠ OtherMethod → ¬ accepted →
       reply = (JsonError 401 (js "Unauthorized"), collection))
  ∧ (reply.2 ≠ collection →
       method request = DELETE ∧ accepted ∧ truthy (MONGO_URI env) = true
       ∧ ∃ id oid i d,
           bodyId request = Some id ∧ ObjectId_parse id = Some oid
           ∧ collection !! i = Some d ∧ _id d = oid
           ∧ (∀ j d', collection !! j = Some d' → (j < i)%nat → _id d' ≠ oid)
           ∧ reply = (JsonDeleted id, delete i collection)).
Proof.
  intros reply accepted.
  assert (Hdelete : ∀ id,
    let r := handleGallery_delete collection id in
    status r.1 ∈ [200; 400; 401; 404; 405; 500]
    ∧ (r.2 ≠ collection →
       ∃ id' oid i d,
         id = Some id' ∧ ObjectId_parse id' = Some oid
         ∧ collection !! i = Some d ∧ _id d = oid
         ∧ (∀ j d', collection !! j = Some d' → (j < i)%nat → _id d' ≠ oid)
         ∧ r = (JsonDeleted id', delete i collection))).
  { intros id r. subst r. unfold handleGallery_delete.
    destruct id as [[|c r]|]; [split; [set_solver | done]| |split; [set_solver | done]].
    destruct (ObjectId_parse (c :: r)) as [oid|] eqn:Hparse;
      [|split; [set_solver | done]].
    destruct (list_find _ collection) as [[i d]|] eqn:Hfind;
      [|split; [set_solver | done]].
    split; [set_solver|]. intros _.
    apply list_find_Some in Hfind as (Hi & Hid & Hfirst).
    exists (c :: r), oid, i, d. split_and!; done. }
  assert (Hget : status (handleGallery_get collection (limitParam request)
                           (cursorParam request))
                 ∈ [200; 400; 401; 404; 405; 500]).
  { unfold handleGallery_get, pagedRead.
    destruct (wantsPagination _ _); [|set_solver].
    destruct (truthy _); [|set_solver].
    destruct (ObjectId_parse _); set_solver. }
  subst reply. unfold handleGallery.
  set (verified := match bearerToken (authorization request) with
                   | Some (c :: r) =>
                       match Jwt.jwtVerify hmacSha256 JSON_parse stringToNumber
                               (c :: r)
                               (default (js "change-me")
                                  (or_else (JWT_SECRET env) None)) now with
                       | inr _ => true
                       | inl _ => false
                       end
                   | _ => false
                   end).
  assert (Hverified : verified = true ↔ accepted).
  { subst verified accepted. split.
    - destruct (bearerToken _) as [[|c r]|]; [done| |done].
      destruct (Jwt.jwtVerify _ _ _ _ _ _) as [e | payload] eqn:Hv; [done|].
      intros _. by exists (c :: r), payload.
    - intros (token & payload & -> & Hne & Hv).
      destruct token as [|c r]; [done|]. by rewrite Hv. }
  destruct (method request) eqn:Hmethod.
  - (* GET *)
    destruct verified eqn:Hv; cbn [negb].
    + destruct (truthy (MONGO_URI env)); cbn [negb fst snd].
      * split_and!; [done | done | |done].
        intros _ Hno. destruct Hno. by apply Hverified.
      * split_and!; [set_solver | done | |done].
        intros _ Hno. destruct Hno. by apply Hverified.
    + split_and!; [set_solver | done | done | done].
  - (* DELETE *)
    destruct verified eqn:Hv; cbn [negb].
    + destruct (truthy (MONGO_URI env)) eqn:Hm; cbn [negb].
      * destruct (Hdelete (bodyId request)) as [Hs Hc].
        split_and!; [done | done | |].
        -- intros _ Hno. destruct Hno. by apply Hverified.
        -- intros Hchanged. split_and!; [done | by apply Hverified | done |].
           by apply Hc.
      * split_and!; [set_solver | done | |done].
        intros _ Hno. destruct Hno. by apply Hverified.
    + split_and!; [set_solver | done | done | done].
  - split_and!; [set_solver | done | done | done].
Qed.

End GuardFacts.

Module LegacyFacts.
Import Server.

#[local] Instance timestampDesc_total : Total timestampDesc.
Proof. intros a b. unfold timestampDesc. lia. Qed.

#[local] Instance timestampDesc_trans : Transitive timestampDesc.
Proof. intros a b c. unfold timestampDesc. lia. Qed.

(** What a limit cuts from a sorted list comes after all that it keeps. *)
Lemma sorted_take_drop {A} (R : relation A) (n : nat) (l : list A) :
  StronglySorted R l →
  Forall (λ old, Forall (λ d, R d old) (take n l)) (drop n l).
Proof.
  intros Hs. rewrite <- (take_drop n l) in Hs.
  apply Forall_forall. intros old Hold. apply Forall_forall. intros d Hd.
  by apply (StronglySorted_app_1_elem_of R (take n l) (drop n l)).
Qed.

(** X17: a GET without a [limit] parameter and with no cursor, or a blank
    one, is answered with the legacy list: the documents with the largest
    [timestamp], newest first, 200 of them or all when there are fewer.
    Every document left out is no newer than every one listed. *)
Theorem legacy_list_newest_first (collection : list Doc)
    (cursorRaw : option jsstring)
    (Hblank : trimmedCursor cursorRaw = []) :
  ∃ docs rest,
    handleGallery_get collection None cursorRaw
    = JsonList (toGalleryItem <$> docs)
    ∧ collection ≡ₚ docs ++ rest
    ∧ length docs = Nat.min 200 (length collection)
    ∧ StronglySorted (λ a b, d_timestamp b ≤ d_timestamp a) docs
    ∧ Forall (λ old, Forall (λ d, d_timestamp old ≤ d_timestamp d) docs) rest.
Proof.
  set (sorted := merge_sort timestampDesc collection).
  assert (Hperm : sorted ≡ₚ collection) by apply merge_sort_Permutation.
  assert (Hsorted : StronglySorted timestampDesc sorted)
    by (apply StronglySorted_merge_sort; apply _).
  exists (take 200 sorted), (drop 200 sorted). split_and!.
  - unfold handleGallery_get, wantsPagination. rewrite Hblank.
    rewrite bool_decide_eq_false_2 by (by intros [? ?]). done.
  - by rewrite take_drop.
  - rewrite length_take, (Permutation_length Hperm). done.
  - rewrite <- (take_drop 200 sorted) in Hsorted.
    by apply StronglySorted_app_1_l in Hsorted.
  - by apply (sorted_take_drop timestampDesc).
Qed.

Lemma legacy_list_newest_first_witness :
  let store := [mkDoc 1 (js "a") None None None 20;
                mkDoc 2 (js "b") None None None 30;
                mkDoc 3 (js "c") None None None 10] in
  trimmedCursor (Some (js " ")) = []
  ∧ ∃ docs rest,
      handleGallery_get store None (Some (js " "))
      = JsonList (toGalleryItem <$> docs)
      ∧ store ≡ₚ docs ++ rest
      ∧ length docs = 3%nat.
Proof.
  intros store.
  assert (Hblank : trimmedCursor (Some (js " ")) = []) by reflexivity.
  split; [exact Hblank|].
  destruct (legacy_list_newest_first store (Some (js " ")) Hblank)
    as (docs & rest & Hget & Hperm & Hlen & _).
  exists docs, rest. split_and!; [exact Hget | exact Hperm | exact Hlen].
Defined.

End LegacyFacts.

(** ** Tokens, login and the file route *)

Module CodecFacts.
Import Jwt.

(** The characters [base64UrlEncode] writes: letters, digits, [-] and
    [_]. *)
Lemma toUrlChar_b64char (d : N) :
  (d < 64)%N →
  let c := toUrlChar (b64char d) in
  (65 ≤ c ≤ 90 ∨ 97 ≤ c ≤ 122 ∨ 48 ≤ c ≤ 57 ∨ c = 45 ∨ c = 95)%N.
Proof.
  intros Hd c. subst c.
  pose proof (JwtFacts.b64char_isB64 d Hd) as Hb. unfold isB64 in Hb.
  unfold toUrlChar.
  destruct (b64char d =? 43)%N eqn:E1; [lia|].
  destruct (b64char d =? 47)%N eqn:E2; [lia|].
  apply N.eqb_neq in E1, E2. lia.
Qed.

Lemma base64Digits_count (bs : list N) :
  length (base64Digits bs) = ((4 * length bs + 2) / 3)%nat.
Proof.
  induction bs as [|a|a b|a b c r IH] using JwtFacts.triples_ind; [done..|].
  cbn [base64Digits length]. rewrite IH.
  replace (4 * S (S (S (length r))) + 2)%nat
    with (4 * length r + 2 + 4 * 3)%nat by lia.
  rewrite Nat.div_add by lia. lia.
Qed.

(** What [base64UrlEncode] gives for bytes. *)
Lemma base64UrlEncode_bytes (bs : list N) :
  bytes bs →
  base64UrlEncode bs = Some (toUrlChar <$> (b64char <$> base64Digits bs)).
Proof.
  intros Hb. unfold base64UrlEncode, btoa.
  assert (forallb (λ c, c <=? 255)%N bs = true) as ->.
  { apply forallb_forall. intros c Hc%list_elem_of_In.
    apply N.leb_le. pose proof (proj1 (Forall_forall _ _) Hb c Hc).
    cbv beta in *. lia. }
  cbn [fmap option_fmap option_map]. by rewrite JwtFacts.toUrlAlphabet_base64.
Qed.

Lemma base64UrlEncode_chars (bs enc : list N) (c : N) :
  bytes bs → base64UrlEncode bs = Some enc → c ∈ enc →
  (65 ≤ c ≤ 90 ∨ 97 ≤ c ≤ 122 ∨ 48 ≤ c ≤ 57 ∨ c = 45 ∨ c = 95)%N.
Proof.
  intros Hb Henc Hc. rewrite (base64UrlEncode_bytes bs Hb) in Henc.
  injection Henc as <-.
  apply list_elem_of_fmap in Hc as (x & -> & (d & -> & Hd)%list_elem_of_fmap).
  apply toUrlChar_b64char.
  by apply (proj1 (Forall_forall _ _) (JwtFacts.base64Digits_small bs Hb)).
Qed.

(** X18: [base64UrlDecode] undoes [base64UrlEncode].  For every sequence
    of bytes the encoding exists, is made of letters, digits, [-] and [_]
    only (no padding, nothing a URL or the dots of a token would clash
    with), has the length of unpadded base64, and decodes to the bytes it
    was made from; for a string with a code unit above 0xFF there is no
    encoding: [btoa] throws. *)
Theorem base64Url_codec (data : list N) :
  (bytes data →
     ∃ enc,
       base64UrlEncode data = Some enc
       ∧ base64UrlDecode enc = Some data
       ∧ Forall (λ c, 65 ≤ c ≤ 90 ∨ 97 ≤ c ≤ 122 ∨ 48 ≤ c ≤ 57
                      ∨ c = 45 ∨ c = 95)%N enc
       ∧ length enc = ((4 * length data + 2) / 3)%nat)
  ∧ (¬ bytes data → base64UrlEncode data = None).
Proof.
  split.
  - intros Hb. destruct (JwtFacts.base64Url_round_trip data Hb)
      as (enc & Henc & Hdec & _).
    exists enc. split_and!; [done | done | |].
    + apply Forall_forall. intros c Hc.
      by apply (base64UrlEncode_chars data enc c).
    + rewrite (base64UrlEncode_bytes data Hb) in Henc. injection Henc as <-.
      by rewrite !length_fmap, base64Digits_count.
  - intros Hno. unfold bytes in Hno. apply not_Forall_Exists in Hno; [|apply _].
    apply Exists_exists in Hno as (c & Hc & Hbig).
    unfold base64UrlEncode. rewrite (JwtFacts.btoa_wide data c); [done | done |].
    unfold compose in Hbig. lia.
Qed.

End CodecFacts.

Module TokenFacts.
Import Jwt.

(** The parts of a token made from a payload whose JSON text is ASCII. *)
Lemma jwtSign_parts (hmacSha256 : list N → list N → list N)
    (payload : JObject) (secret : jsstring) (expiresInSeconds now : Z) :
  (∀ key message, bytes (hmacSha256 key message)) →
  Forall (λ c, c < 128)%N
    (JSON_stringify (setField (js "exp") (JNum (now + expiresInSeconds))
                       (setField (js "iat") (JNum now) payload))) →
  ∃ h p sg,
    base64UrlEncode (JSON_stringify header) = Some h
    ∧ base64UrlEncode
        (JSON_stringify (setField (js "exp") (JNum (now + expiresInSeconds))
                           (setField (js "iat") (JNum now) payload))) = Some p
    ∧ base64UrlEncode (hmacSha256 (textEncode secret) (textEncode (h ++ 46%N :: p)))
      = Some sg
    ∧ jwtSign hmacSha256 payload secret expiresInSeconds now
      = inr (h ++ 46%N :: p ++ 46%N :: sg).
Proof.
  intros Hhmac Hascii. unfold jwtSign.
  destruct (JwtFacts.base64Url_round_trip (JSON_stringify header)) as (h & Hh & _).
  { apply JwtFacts.ascii_bytes. apply (bool_decide_unpack _). vm_compute. exact I. }
  destruct (JwtFacts.base64Url_round_trip _ (JwtFacts.ascii_bytes _ Hascii))
    as (p & Hp & _).
  destruct (JwtFacts.base64Url_round_trip
              (hmacSha256 (textEncode secret) (textEncode (h ++ 46%N :: p))))
    as (sg & Hsg & _); [apply Hhmac|].
  exists h, p, sg. rewrite Hh, Hp, Hsg. cbn.
  split_and!; try done. by rewrite <- app_assoc.
Qed.

Lemma urlSafe_not (c : N) :
  (65 ≤ c ≤ 90 ∨ 97 ≤ c ≤ 122 ∨ 48 ≤ c ≤ 57 ∨ c = 45 ∨ c = 95)%N →
  c ≠ 46%N ∧ c ≠ 32%N.
Proof. lia. Qed.

Lemma encoded_clean (bs enc : list N) :
  bytes bs → base64UrlEncode bs = Some enc → (46%N ∉ enc) ∧ (32%N ∉ enc).
Proof.
  intros Hb Henc.
  split; intros Hin;
    by destruct (urlSafe_not _ (CodecFacts.base64UrlEncode_chars bs enc _ Hb Henc Hin)).
Qed.

(** What [jwtVerify] does with the token [jwtSign] made. *)
Lemma verify_signed (hmacSha256 : list N → list N → list N)
    (JSON_parse : jsstring → option Parsed)
    (stringToNumber : jsstring → option Z)
    (payload : JObject) (secret token : jsstring) (expiresInSeconds now : Z) :
  let fullPayload :=
    setField (js "exp") (JNum (now + expiresInSeconds))
      (setField (js "iat") (JNum now) payload) in
  (∀ key message, bytes (hmacSha256 key message)) →
  Forall (λ c, c < 128)%N (JSON_stringify fullPayload) →
  JSON_parse (JSON_stringify fullPayload) = Some (ParsedObject fullPayload) →
  jwtSign hmacSha256 payload secret expiresInSeconds now = inr token →
  length (splitOn 46 token) = 3%nat
  ∧ (32%N ∉ token) ∧ token ≠ []
  ∧ (∀ later,
       jwtVerify hmacSha256 JSON_parse stringToNumber token secret later
       = if bool_decide (later ≤ now + expiresInSeconds
                         ∨ now + expiresInSeconds = 0)
         then inr (ParsedObject fullPayload)
         else inl TokenExpired)
  ∧ (∀ other later,
       (∀ message, hmacSha256 (textEncode other) message
                   ≠ hmacSha256 (textEncode secret) message) →
       jwtVerify hmacSha256 JSON_parse stringToNumber token other later
       = inl InvalidSignature).
Proof.
  intros fullPayload Hhmac Hascii Hparse Htoken.
  destruct (jwtSign_parts hmacSha256 payload secret expiresInSeconds now
              Hhmac Hascii) as (h & p & sg & Hh & Hp & Hsg & Hsign).
  fold fullPayload in Hp.
  rewrite Hsign in Htoken. injection Htoken as <-.
  assert (Hhb : bytes (JSON_stringify header)).
  { apply JwtFacts.ascii_bytes. apply (bool_decide_unpack _). vm_compute. exact I. }
  destruct (encoded_clean _ _ Hhb Hh) as [Hh1 Hh2].
  destruct (encoded_clean _ _ (JwtFacts.ascii_bytes _ Hascii) Hp) as [Hp1 Hp2].
  destruct (encoded_clean _ _ (Hhmac _ _) Hsg) as [Hs1 Hs2].
  assert (Hpdec : base64UrlDecode p = Some (JSON_stringify fullPayload)).
  { destruct (JwtFacts.base64Url_round_trip _ (JwtFacts.ascii_bytes _ Hascii))
      as (p' & Hp' & Hdec & _). congruence. }
  assert (Hsdec : base64UrlDecode sg
            = Some (hmacSha256 (textEncode secret) (textEncode (h ++ 46%N :: p)))).
  { destruct (JwtFacts.base64Url_round_trip _ (Hhmac (textEncode secret)
                (textEncode (h ++ 46%N :: p)))) as (s' & Hs' & Hdec & _).
    congruence. }
  assert (Hsplit : splitOn 46 (h ++ 46%N :: p ++ 46%N :: sg) = [h; p; sg]).
  { by rewrite !JwtFacts.splitOn_app, JwtFacts.splitOn_none. }
  assert (Htext : payloadText p = Some (JSON_stringify fullPayload)).
  { unfold payloadText. rewrite Hpdec. cbn [fmap option_fmap option_map].
    by rewrite JwtFacts.textDecode_ascii. }
  assert (Hexp : getField (js "exp") fullPayload
                 = Some (JNum (now + expiresInSeconds))).
  { apply JwtFacts.getField_setField. }
  split_and!.
  - by rewrite Hsplit.
  - rewrite !elem_of_app, !elem_of_cons, !elem_of_app, !elem_of_cons.
    intros [? | [? | [? | [? | ?]]]]; done.
  - by destruct h.
  - intros later. unfold jwtVerify. rewrite Hsplit, Hsdec.
    rewrite bool_decide_eq_true_2 by done. cbn [negb].
    rewrite Htext, Hparse, Hexp. unfold expiredAt.
    case_bool_decide as Hcase.
    + destruct Hcase as [Hle | ->]; [|done].
      replace (now + expiresInSeconds <? later) with false
        by (symmetry; apply Z.ltb_ge; lia).
      by rewrite andb_false_r.
    + replace (now + expiresInSeconds <? later) with true
        by (symmetry; apply Z.ltb_lt; lia).
      replace (now + expiresInSeconds =? 0) with false
        by (symmetry; apply Z.eqb_neq; lia).
      done.
  - intros other later Hother. unfold jwtVerify. rewrite Hsplit, Hsdec.
    rewrite bool_decide_eq_false_2; [done|]. apply Hother.
Qed.

(** X19: a token lives exactly until its expiry time.  For a secret that is
    not empty (an empty key is refused by [importKey]), a clock within the
    range of [Date.now()], a lifetime of at most [2^52] seconds either way,
    so that [now + expiresInSeconds] is exact, and a payload whose numbers
    are safe integers and whose JSON text, with [iat] and [exp] added, is
    ASCII and is read back by
    [JSON.parse]: [jwtSign] makes a token of three parts joined by two dots
    and holding no space; [jwtVerify] with the same secret returns the
    payload with [iat = now] and [exp = now + expiresInSeconds] at every
    time up to [exp] (and at every time when [exp] is 0, which the test
    [payload.exp &&] reads as no expiry) and throws 'Token expired' after
    it; with another secret, not empty, under which the HMAC differs it
    throws 'Invalid signature'. *)
Theorem token_lifetime (hmacSha256 : list N → list N → list N)
    (JSON_parse : jsstring → option Parsed)
    (stringToNumber : jsstring → option Z)
    (payload : JObject) (secret : jsstring) (expiresInSeconds now : Z)
    (Hsecret : secret ≠ [])
    (Hnow : 0 ≤ now ≤ 8640000000000)
    (Hexpires : - 2 ^ 52 ≤ expiresInSeconds ≤ 2 ^ 52)
    (Hnumbers : ∀ k z, (k, JNum z) ∈ payload → - 2 ^ 53 ≤ z ≤ 2 ^ 53)
    (Hhmac : ∀ key message, bytes (hmacSha256 key message))
    (Hascii : Forall (λ c, c < 128)%N
                (JSON_stringify
                   (setField (js "exp") (JNum (now + expiresInSeconds))
                      (setField (js "iat") (JNum now) payload))))
    (Hparse : JSON_parse
                (JSON_stringify
                   (setField (js "exp") (JNum (now + expiresInSeconds))
                      (setField (js "iat") (JNum now) payload)))
              = Some (ParsedObject
                        (setField (js "exp") (JNum (now + expiresInSeconds))
                           (setField (js "iat") (JNum now) payload)))) :
  let fullPayload :=
    setField (js "exp") (JNum (now + expiresInSeconds))
      (setField (js "iat") (JNum now) payload) in
  ∃ token,
    jwtSign hmacSha256 payload secret expiresInSeconds now = inr token
    ∧ length (splitOn 46 token) = 3%nat
    ∧ (32%N ∉ token)
    ∧ (∀ later,
         jwtVerify hmacSha256 JSON_parse stringToNumber token secret later
         = if bool_decide (later ≤ now + expiresInSeconds
                           ∨ now + expiresInSeconds = 0)
           then inr (ParsedObject fullPayload)
           else inl TokenExpired)
    ∧ (∀ other later,
         other ≠ [] →
         (∀ message, hmacSha256 (textEncode other) message
                     ≠ hmacSha256 (textEncode secret) message) →
         jwtVerify hmacSha256 JSON_parse stringToNumber token other later
         = inl InvalidSignature)
    ∧ getField (js "iat") fullPayload = Some (JNum now)
    ∧ getField (js "exp") fullPayload = Some (JNum (now + expiresInSeconds)).
Proof.
  intros fullPayload.
  destruct (jwtSign_parts hmacSha256 payload secret expiresInSeconds now
              Hhmac Hascii) as (h & p & sg & _ & _ & _ & Hsign).
  destruct (verify_signed hmacSha256 JSON_parse stringToNumber payload secret
              _ expiresInSeconds now Hhmac Hascii Hparse Hsign)
    as (Hparts & Hspace & _ & Hverify & Hother).
  exists (h ++ 46%N :: p ++ 46%N :: sg). split_and!; try done.
  - intros other later _. apply Hother.
  - unfold fullPayload. rewrite JwtFacts.getField_setField_ne by discriminate.
    apply JwtFacts.getField_setField.
  - apply JwtFacts.getField_setField.
Qed.

Lemma token_lifetime_witness :
  let hmac := λ _ _ : list N, [1; 2; 3]%N in
  let payload := [(js "user", JStr (js "admin"))] in
  let fullPayload :=
    setField (js "exp") (JNum (1000 + 3600))
      (setField (js "iat") (JNum 1000) payload) in
  let parse := λ text,
    if bool_decide (text = JSON_stringify fullPayload)
    then Some (ParsedObject fullPayload) else None in
  let number := λ _ : jsstring, @None Z in
  Forall (λ c, c < 128)%N (JSON_stringify fullPayload)
  ∧ ∃ token,
      jwtSign hmac payload (js "change-me") 3600 1000 = inr token
      ∧ jwtVerify hmac parse number token (js "change-me") 4600
        = inr (ParsedObject fullPayload)
      ∧ jwtVerify hmac parse number token (js "change-me") 4601
        = inl TokenExpired.
Proof.
  intros hmac payload fullPayload parse number.
  assert (Hhmac : ∀ key message, bytes (hmac key message)).
  { intros key message. apply (bool_decide_unpack _). vm_compute. exact I. }
  assert (Hascii : Forall (λ c, c < 128)%N (JSON_stringify fullPayload)).
  { apply (bool_decide_unpack _). vm_compute. exact I. }
  assert (Hparse : parse (JSON_stringify fullPayload)
                   = Some (ParsedObject fullPayload)) by reflexivity.
  assert (Hsecret : js "change-me" ≠ []) by discriminate.
  assert (Hnow : 0 ≤ 1000 ≤ 8640000000000).
  { apply (bool_decide_unpack _). vm_compute. exact I. }
  assert (Hexpires : - 2 ^ 52 ≤ 3600 ≤ 2 ^ 52).
  { apply (bool_decide_unpack _). vm_compute. exact I. }
  assert (Hnumbers : ∀ k z, (k, JNum z) ∈ payload → - 2 ^ 53 ≤ z ≤ 2 ^ 53).
  { intros k z Hin. apply list_elem_of_singleton in Hin. discriminate. }
  split; [exact Hascii|].
  destruct (token_lifetime hmac parse number payload (js "change-me") 3600 1000
              Hsecret Hnow Hexpires Hnumbers Hhmac Hascii Hparse)
    as (token & Hsign & _ & _ & Hverify & _).
  exists token. split_and!; [exact Hsign | exact (Hverify 4600) | exact (Hverify 4601)].
Defined.

End TokenFacts.

Module LoginFacts.
Import Server Worker.

Lemma field_is_string (f : Field) (s : jsstring) :
  fieldIs f s = true → f = FString s.
Proof. destruct f as [x|b]; [|done]. cbn. by intros ->%bool_decide_eq_true. Qed.

(** What a request that gets a token went through. *)
Lemma handleLogin_token (hmacSha256 : list N → list N → list N)
    (siteverify : jsstring → Field → jsstring → option bool)
    (env : Env) (now : Z) (request : LoginRequest) (token : jsstring) :
  let USER := default (js "admin") (or_else (GALLERY_USER env) None) in
  let PASS := default (js "password") (or_else (GALLERY_PASS env) None) in
  let SECRET := default (js "change-me") (or_else (JWT_SECRET env) None) in
  handleLogin hmacSha256 siteverify env now request = LoginToken token →
  isPost request = true
  ∧ ∃ fields,
      body request = Some (Some fields)
      ∧ username fields = FString USER
      ∧ password fields = FString PASS
      ∧ (fieldTruthy (turnstileToken fields) = true →
           verifyTurnstileToken siteverify (turnstileToken fields)
             (clientIp request) (TURNSTILE_SECRET_KEY env) = Some true)
      ∧ Jwt.jwtSign hmacSha256 [(js "user", Jwt.JStr USER)] SECRET
          (365 * 24 * 3600) now = inr token.
Proof.
  intros USER PASS SECRET.
  assert (Hfields : ∀ fields,
    match
      (if fieldTruthy (turnstileToken fields)
       then verifyTurnstileToken siteverify (turnstileToken fields)
              (clientIp request) (TURNSTILE_SECRET_KEY env)
       else Some true)
    with
    | Some true =>
        if negb (fieldTruthy (username fields))
           || negb (fieldTruthy (password fields))
           || negb (fieldIs (username fields) USER)
           || negb (fieldIs (password fields) PASS)
        then LoginError 401 badCredentialsMessage
        else
          match Jwt.jwtSign hmacSha256 [(js "user", Jwt.JStr USER)] SECRET
                  (365 * 24 * 3600) now with
          | inr token => LoginToken token
          | inl _ => LoginThrows
          end
    | Some false => LoginError 403 turnstileFailedMessage
    | None => LoginThrows
    end = LoginToken token →
    username fields = FString USER ∧ password fields = FString PASS
    ∧ (fieldTruthy (turnstileToken fields) = true →
         verifyTurnstileToken siteverify (turnstileToken fields)
           (clientIp request) (TURNSTILE_SECRET_KEY env) = Some true)
    ∧ Jwt.jwtSign hmacSha256 [(js "user", Jwt.JStr USER)] SECRET
        (365 * 24 * 3600) now = inr token).
  { intros fields Hf.
    destruct (fieldTruthy (turnstileToken fields)) eqn:Ht.
    - destruct (verifyTurnstileToken _ _ _ _) as [[|]|]; cbv beta iota in Hf;
        [|done..].
      destruct (fieldTruthy (username fields)),
        (fieldTruthy (password fields)); cbn [negb orb] in Hf; try done.
      destruct (fieldIs (username fields) USER) eqn:Hu; cbn [negb orb] in Hf;
        [|done].
      destruct (fieldIs (password fields) PASS) eqn:Hp; cbn [negb orb] in Hf;
        [|done].
      destruct (Jwt.jwtSign _ _ _ _ _) as [e | t]; [done|]. injection Hf as ->.
      split_and!; [by apply field_is_string | by apply field_is_string | done | done].
    - destruct (fieldTruthy (username fields)),
        (fieldTruthy (password fields)); cbn [negb orb] in Hf; try done.
      destruct (fieldIs (username fields) USER) eqn:Hu; cbn [negb orb] in Hf;
        [|done].
      destruct (fieldIs (password fields) PASS) eqn:Hp; cbn [negb orb] in Hf;
        [|done].
      destruct (Jwt.jwtSign _ _ _ _ _) as [e | t]; [done|]. injection Hf as ->.
      split_and!; [by apply field_is_string | by apply field_is_string | done | done]. }
  unfold handleLogin. fold USER PASS SECRET.
  destruct (isPost request); cbn [negb]; [|done]. intros H. split; [done|].
  destruct (body request) as [[fields|]|]; [|done|].
  - exists fields. split; [done|]. by apply Hfields.
  - by destruct (Hfields emptyBody H) as (? & _).
Qed.

(** X20: no token without the credentials.  When [handleLogin] answers
    with a token, the request was a POST whose body gave, as strings, the
    user name and the password of the bindings ([admin] and [password] when
    a binding is missing or empty); if the body carried a Turnstile token,
    the check of that token passed; and the token is the one [jwtSign] makes
    for [{ user }] with a lifetime of 365 days.  Every other request gets
    405, 403 or 401 or makes the handler throw, and a body that carries no
    Turnstile token is not checked with the service at all. *)
Theorem login_needs_credentials (hmacSha256 : list N → list N → list N)
    (siteverify : jsstring → Field → jsstring → option bool)
    (env : Env) (now : Z) (request : LoginRequest) :
  let USER := default (js "admin") (or_else (GALLERY_USER env) None) in
  let PASS := default (js "password") (or_else (GALLERY_PASS env) None) in
  let SECRET := default (js "change-me") (or_else (JWT_SECRET env) None) in
  (∀ token,
     handleLogin hmacSha256 siteverify env now request = LoginToken token →
     isPost request = true
     ∧ ∃ fields,
         body request = Some (Some fields)
         ∧ username fields = FString USER
         ∧ password fields = FString PASS
         ∧ (fieldTruthy (turnstileToken fields) = true →
              verifyTurnstileToken siteverify (turnstileToken fields)
                (clientIp request) (TURNSTILE_SECRET_KEY env) = Some true)
         ∧ Jwt.jwtSign hmacSha256 [(js "user", Jwt.JStr USER)] SECRET
             31536000 now = inr token)
  ∧ (∀ status message,
       handleLogin hmacSha256 siteverify env now request
       = LoginError status message →
       status = 405 ∧ isPost request = false
       ∨ status = 403 ∧ message = turnstileFailedMessage
       ∨ status = 401 ∧ message = badCredentialsMessage)
  ∧ (∀ fields siteverify',
       body request = Some (Some fields) →
       fieldTruthy (turnstileToken fields) = false →
       handleLogin hmacSha256 siteverify' env now request
       = handleLogin hmacSha256 siteverify env now request).
Proof.
  intros USER PASS SECRET. split_and!.
  - intros token H. by apply handleLogin_token in H.
  - intros status message. unfold handleLogin.
    destruct (isPost request); cbn [negb]; [|intros [= <- <-]; by left].
    destruct (body request) as [[fields|]|]; [|done|].
    all: match goal with |- context [turnstileToken ?f] => set (fs := f) end.
    all: destruct (if fieldTruthy (turnstileToken fs) then _ else _)
           as [[|]|]; [|intros [= <- <-]; right; by left | done].
    all: destruct (_ || _); [intros [= <- <-]; by do 2 right|].
    all: by destruct (Jwt.jwtSign _ _ _ _ _).
  - intros fields siteverify' Hbody Hno. unfold handleLogin.
    rewrite Hbody. cbn. by rewrite Hno.
Qed.

End LoginFacts.

Module AccessFacts.
Import Server Worker.

Lemma bearer_of_token (token : jsstring) :
  32%N ∉ token →
  bearerToken (Some (js "Bearer " ++ token)) = Some token.
Proof.
  intros Hno. unfold bearerToken.
  change (default [] (or_else (Some (js "Bearer " ++ token)) None))
    with (js "Bearer" ++ 32%N :: token).
  rewrite JwtFacts.splitOn_app.
  - by rewrite JwtFacts.splitOn_none.
  - apply (bool_decide_unpack _). vm_compute. exact I.
Qed.

(** What [handleGallery] does with a request that carries a token
    [jwtSign] made for the user of the bindings at time [now]. *)
Lemma gallery_with_token (hmacSha256 : list N → list N → list N)
    (JSON_parse : jsstring → option Jwt.Parsed)
    (stringToNumber : jsstring → option Z)
    (env : Env) (now : Z) (token : jsstring) :
  let claims :=
    Jwt.setField (js "exp") (Jwt.JNum (now + 31536000))
      (Jwt.setField (js "iat") (Jwt.JNum now)
         [(js "user",
           Jwt.JStr (default (js "admin") (or_else (GALLERY_USER env) None)))]) in
  (∀ key message, Jwt.bytes (hmacSha256 key message)) →
  0 ≤ now →
  Forall (λ c, c < 128)%N (Jwt.JSON_stringify claims) →
  JSON_parse (Jwt.JSON_stringify claims) = Some (Jwt.ParsedObject claims) →
  Jwt.jwtSign hmacSha256
    [(js "user", Jwt.JStr (default (js "admin") (or_else (GALLERY_USER env) None)))]
    (default (js "change-me") (or_else (JWT_SECRET env) None)) 31536000 now
  = inr token →
  ∀ (later : Z) (collection : list Doc) (request : Request),
    authorization request = Some (js "Bearer " ++ token) →
    method request ≠ OtherMethod →
    handleGallery hmacSha256 JSON_parse stringToNumber (galleryEnv env) later
      collection request
    = if bool_decide (later ≤ now + 31536000) then
        if truthy (MONGO_URI env) then
          match method request with
          | Server.DELETE => handleGallery_delete collection (bodyId request)
          | _ => (handleGallery_get collection (limitParam request)
                    (cursorParam request), collection)
          end
        else (JsonError 500 (js "MONGO_URI not configured"), collection)
      else (JsonError 401 (js "Unauthorized"), collection).
Proof.
  intros claims Hhmac Hnow Hascii Hparse Hsign later collection request Hauth
    Hmethod.
  destruct (TokenFacts.verify_signed hmacSha256 JSON_parse stringToNumber _ _ _
              _ _ Hhmac Hascii Hparse Hsign)
    as (_ & Hspace & Hne & Hverify & _).
  unfold handleGallery. rewrite Hauth, (bearer_of_token token Hspace).
  destruct token as [|c r]; [done|].
  change (Server.JWT_SECRET (galleryEnv env)) with (JWT_SECRET env).
  change (Server.MONGO_URI (galleryEnv env)) with (MONGO_URI env).
  rewrite (Hverify later).
  assert (bool_decide (later ≤ now + 31536000 ∨ now + 31536000 = 0)
          = bool_decide (later ≤ now + 31536000)) as ->.
  { apply bool_decide_ext. lia. }
  destruct (method request); [| |done];
    by destruct (bool_decide (later ≤ now + 31536000)), (truthy (MONGO_URI env)).
Qed.

(** X21: the token of [/api/login] opens [/api/gallery] for a year.  Let
    [handleLogin] answer with a token at time [now ≥ 0], for a user name
    whose claims are ASCII and are read back by [JSON.parse].  Then a GET
    or DELETE to [/api/gallery] that carries [Bearer <token>], under the
    same bindings, passes the authorization at every time up to
    [now + 31536000]: it is answered by the database branch, or with the
    500 of a missing [MONGO_URI]; after that time it is answered 401 and
    the collection is left alone. *)
Theorem login_token_opens_gallery (hmacSha256 : list N → list N → list N)
    (JSON_parse : jsstring → option Jwt.Parsed)
    (stringToNumber : jsstring → option Z)
    (siteverify : jsstring → Field → jsstring → option bool)
    (env : Env) (now : Z) (login : LoginRequest) (token : jsstring)
    (Hhmac : ∀ key message, Jwt.bytes (hmacSha256 key message))
    (Hnow : 0 ≤ now)
    (Hissued : handleLogin hmacSha256 siteverify env now login = LoginToken token)
    (Hascii : Forall (λ c, c < 128)%N
                (Jwt.JSON_stringify
                   (Jwt.setField (js "exp") (Jwt.JNum (now + 31536000))
                      (Jwt.setField (js "iat") (Jwt.JNum now)
                         [(js "user",
                           Jwt.JStr (default (js "admin")
                                       (or_else (GALLERY_USER env) None)))]))))
    (Hparse : JSON_parse
                (Jwt.JSON_stringify
                   (Jwt.setField (js "exp") (Jwt.JNum (now + 31536000))
                      (Jwt.setField (js "iat") (Jwt.JNum now)
                         [(js "user",
                           Jwt.JStr (default (js "admin")
                                       (or_else (GALLERY_USER env) None)))])))
              = Some (Jwt.ParsedObject
                        (Jwt.setField (js "exp") (Jwt.JNum (now + 31536000))
                           (Jwt.setField (js "iat") (Jwt.JNum now)
                              [(js "user",
                                Jwt.JStr (default (js "admin")
                                            (or_else (GALLERY_USER env) None)))])))) :
  ∀ (later : Z) (collection : list Doc) (request : Request),
    authorization request = Some (js "Bearer " ++ token) →
    method request ≠ OtherMethod →
    handleGallery hmacSha256 JSON_parse stringToNumber (galleryEnv env) later
      collection request
    = if bool_decide (later ≤ now + 31536000) then
        if truthy (MONGO_URI env) then
          match method request with
          | Server.DELETE => handleGallery_delete collection (bodyId request)
          | _ => (handleGallery_get collection (limitParam request)
                    (cursorParam request), collection)
          end
        else (JsonError 500 (js "MONGO_URI not configured"), collection)
      else (JsonError 401 (js "Unauthorized"), collection).
Proof.
  apply LoginFacts.handleLogin_token in Hissued as (_ & _ & _ & _ & _ & _ & Hsign).
  by apply (gallery_with_token hmacSha256 JSON_parse stringToNumber env now token).
Qed.

Lemma login_token_opens_gallery_witness :
  let hmac := λ _ _ : list N, [1; 2; 3]%N in
  let env := mkEnv None None None None (Some (js "mongodb://db")) None in
  let claims :=
    Jwt.setField (js "exp") (Jwt.JNum (1000 + 31536000))
      (Jwt.setField (js "iat") (Jwt.JNum 1000)
         [(js "user", Jwt.JStr (js "admin"))]) in
  let parse := λ text,
    if bool_decide (text = Jwt.JSON_stringify claims)
    then Some (Jwt.ParsedObject claims) else None in
  let number := λ _ : jsstring, @None Z in
  let verify := λ (_ : jsstring) (_ : Field) (_ : jsstring), Some true in
  let login :=
    mkLoginRequest true
      (Some (Some (mkLoginBody (FString (js "admin")) (FString (js "password"))
                     (FString (js "turnstile")))))
      None None in
  let token :=
    match handleLogin hmac verify env 1000 login with
    | LoginToken t => t
    | _ => []
    end in
  let request :=
    mkRequest Server.DELETE (Some (js "Bearer " ++ token)) None None None in
  let store := Scenario.docOf <$> [3; 2; 1]%N in
  handleLogin hmac verify env 1000 login = LoginToken token
  ∧ handleGallery hmac parse number (galleryEnv env) 31537000 store request
    = (JsonError 400 (js "Missing id"), store)
  ∧ handleGallery hmac parse number (galleryEnv env) 31537001 store request
    = (JsonError 401 (js "Unauthorized"), store).
Proof.
  intros hmac env claims parse number verify login token request store.
  assert (Hhmac : ∀ key message, Jwt.bytes (hmac key message)).
  { intros key message. apply (bool_decide_unpack _). vm_compute. exact I. }
  assert (Hnow : 0 ≤ 1000) by (apply (bool_decide_unpack _); vm_compute; exact I).
  assert (Hissued : handleLogin hmac verify env 1000 login = LoginToken token)
    by (vm_compute; reflexivity).
  assert (Hascii : Forall (λ c, c < 128)%N (Jwt.JSON_stringify claims)).
  { apply (bool_decide_unpack _). vm_compute. exact I. }
  assert (Hparse : parse (Jwt.JSON_stringify claims)
                   = Some (Jwt.ParsedObject claims)) by reflexivity.
  pose proof (login_token_opens_gallery hmac parse number verify env 1000 login
                token Hhmac Hnow Hissued Hascii Hparse) as Hopen.
  split_and!; [exact Hissued | |].
  - rewrite (Hopen 31537000 store request eq_refl); [reflexivity | discriminate].
  - rewrite (Hopen 31537001 store request eq_refl); [reflexivity | discriminate].
Defined.

End AccessFacts.

Module LoginFormFacts.
Import LoginForm.

(** X22: the login form.  [submit] posts nothing without a Turnstile
    token and says so; the body it posts always carries the three fields as
    strings, the Turnstile token not empty.  When the reply arrives,
    [gallery_token] is written and [login] emitted only for a reply with an
    [ok] status; every other outcome leaves them as they were and shows a
    message, the [error] of the reply if it has one; and when the widget is
    there, the Turnstile token is cleared, so the next [submit] posts
    nothing until a new token arrives. *)
Theorem login_form_submit (s : State) (reply : Gallery.Fetched Reply) :
  (turnstileToken s = [] →
     submit_begin s = (set_error verifyFirstMessage (set_error [] s), None))
  ∧ (∀ s1 posted, submit_begin s = (s1, Some posted) →
       s1 = set_error [] s
       ∧ posted = Worker.mkLoginBody (Worker.FString (username s))
                    (Worker.FString (password s))
                    (Worker.FString (turnstileToken s))
       ∧ Worker.fieldTruthy (Worker.turnstileToken posted) = true)
  ∧ (gallery_token (submit_settle reply s) ≠ gallery_token s
     ∨ loginEmitted (submit_settle reply s) ≠ loginEmitted s →
       ∃ status j, reply = Gallery.Responded status j ∧ 200 ≤ status ≤ 299
                   ∧ gallery_token (submit_settle reply s)
                     = Some (default (js "undefined") (r_token j)))
  ∧ (∀ status j, reply = Gallery.Responded status j →
       ¬ 200 ≤ status ≤ 299 →
       error (submit_settle reply s)
       = default loginFailedMessage (or_else (r_error j) None))
  ∧ ((∀ status j, reply = Gallery.Responded status j → ¬ 200 ≤ status ≤ 299) →
     widgetRendered s = true →
     turnstileToken (submit_settle reply s) = []
     ∧ (submit_begin (submit_settle reply s)).2 = None).
Proof.
  assert (Hok : ∀ status, Gallery.statusOk status = true ↔ 200 ≤ status ≤ 299).
  { intros status. unfold Gallery.statusOk.
    rewrite andb_true_iff, !Z.leb_le. done. }
  split_and!.
  - intros Hno. unfold submit_begin. cbn. by rewrite Hno.
  - intros s1 posted. unfold submit_begin.
    destruct (truthy (Some (turnstileToken (set_error [] s)))) eqn:Ht;
      cbn [negb]; [|done].
    intros [= <- <-]. split_and!; [done | done |]. exact Ht.
  - destruct reply as [status j | e].
    + cbn. destruct (Gallery.statusOk status) eqn:Hs; cbn.
      * intros _. exists status, j.
        split; [done|]. split; [by apply Hok | done].
      * unfold resetTurnstile. cbn. destruct (widgetRendered s); cbn; intros [? | ?]; done.
    + cbn. unfold resetTurnstile. cbn.
      destruct (widgetRendered s); cbn; intros [? | ?]; done.
  - intros status j -> Hbad. cbn.
    destruct (Gallery.statusOk status) eqn:Hs; [by apply Hok in Hs|]. cbn.
    unfold resetTurnstile. cbn. by destruct (widgetRendered s).
  - intros Hbad Hw.
    assert (Hcleared : turnstileToken (submit_settle reply s) = []).
    { destruct reply as [status j | e]; cbn.
      - destruct (Gallery.statusOk status) eqn:Hs;
          [apply Hok in Hs; by destruct (Hbad status j eq_refl)|].
        cbn. unfold resetTurnstile. cbn. by rewrite Hw.
      - unfold resetTurnstile. cbn. by rewrite Hw. }
    split; [done|]. unfold submit_begin. cbn. by rewrite Hcleared.
Qed.

End LoginFormFacts.

Module FileUrlFacts.
Import Worker.

Section WithNetwork.

Context {B : Type}.
Variable findBotToken : jsstring → option jsstring.
Variable getFile : jsstring → option jsstring.
Variable fetchImage : jsstring → option (option jsstring * B).

(** One attempt: the addresses it fetches start with its base, and the
    image it returns is the reply to the last of them. *)
Lemma tryTelegram_spec (base : jsstring) (useProxy : bool)
    (botToken file_id : jsstring) :
  base = (if useProxy then TELEGRAM_PROXY else TELEGRAM_OFFICIAL) →
  let r := tryTelegram getFile fetchImage base useProxy botToken file_id in
  Forall (λ url, base `prefix_of` url) r.2
  ∧ ∀ contentType imageBody, r.1 = Some (contentType, imageBody) →
      ∃ url raw, last r.2 = Some url ∧ fetchImage url = Some (raw, imageBody)
                 ∧ contentType = default (js "image/jpeg") (or_else raw None).
Proof.
  intros Hbase r. subst r. unfold tryTelegram.
  destruct (encodeURIComponent file_id) as [enc|]; [|by split].
  set (u := base ++ js "/bot" ++ botToken ++ js "/getFile?file_id=" ++ enc).
  assert (Hu : base `prefix_of` u) by (by eexists).
  destruct (getFile u) as [[|c r]|]; [by split; [repeat constructor|]| |
                                       by split; [repeat constructor|]].
  unfold buildUrlFromFilePath. cbn [truthy negb default].
  set (d := (if useProxy then _ else _) : option jsstring).
  assert (∃ url, d = Some url ∧ base `prefix_of` url) as (url & -> & Hurl).
  { subst d. destruct useProxy; subst base; eexists; (split; [done|]); by eexists. }
  destruct (fetchImage url) as [[raw imageBody]|] eqn:Hf.
  - split; [by repeat constructor|]. intros ct body' [= <- <-].
    by exists url, raw.
  - split; [by repeat constructor | done].
Qed.

(** X23: [/api/fileurl] tries Telegram first and the proxy second.  The
    status of the answer is 200, 400, 500 or 502; it is 400, with nothing
    fetched, exactly when the [file_id] parameter is absent or empty, and
    500, with nothing fetched, when neither the database nor the binding
    gives a bot token.  The addresses fetched are those of the official
    route followed by those of the proxy route, and an address of the proxy
    is fetched only when the official route gave no image.  An image
    answer carries the body of the last address fetched, whose reply was
    [ok], with its content type, [image/jpeg] when it has none. *)
Theorem fileurl_tries_official_first (env : Env) (file_id : option jsstring) :
  let reply := handleFileUrl findBotToken getFile fetchImage env file_id in
  fileStatus reply.1 ∈ [200; 400; 500; 502]
  ∧ (fileStatus reply.1 = 400 ↔ truthy file_id = false)
  ∧ (fileStatus reply.1 = 400 ∨ fileStatus reply.1 = 500 → reply.2 = [])
  ∧ (∀ fileId, file_id = Some fileId → fileId ≠ [] →
       fileStatus reply.1 = 500
       ↔ truthy (resolveBotToken findBotToken env fileId) = false)
  ∧ (∃ official proxy,
       reply.2 = official ++ proxy
       ∧ Forall (λ url, TELEGRAM_OFFICIAL `prefix_of` url) official
       ∧ Forall (λ url, TELEGRAM_PROXY `prefix_of` url) proxy
       ∧ (proxy ≠ [] →
            ∀ fileId token, file_id = Some fileId →
              resolveBotToken findBotToken env fileId = Some token →
              (tryTelegram getFile fetchImage TELEGRAM_OFFICIAL false token
                 fileId).1 = None))
  ∧ (∀ contentType imageBody, reply.1 = FileImage contentType imageBody →
       ∃ url raw,
         last reply.2 = Some url ∧ fetchImage url = Some (raw, imageBody)
         ∧ contentType = default (js "image/jpeg") (or_else raw None)).
Proof.
  intros reply. subst reply. unfold handleFileUrl.
  destruct file_id as [[|c r]|].
  1, 3: split_and!; [set_solver | done | done | by intros ? [= <-] |
                     exists [], []; by split_and! | done].
  set (fileId := c :: r).
  destruct (resolveBotToken findBotToken env fileId) as [[|t ts]|] eqn:Htoken.
  1, 3: split_and!; [set_solver | done | done |
                     by intros ? [= <-] _; rewrite Htoken |
                     exists [], []; by split_and! | done].
  set (token := t :: ts) in *.
  destruct (tryTelegram_spec TELEGRAM_OFFICIAL false token fileId eq_refl)
    as [Ho1 Ho2].
  destruct (tryTelegram_spec TELEGRAM_PROXY true token fileId eq_refl)
    as [Hp1 Hp2].
  destruct (tryTelegram getFile fetchImage TELEGRAM_OFFICIAL false token fileId)
    as [[[ct1 b1]|] off] eqn:Hoff; cbn [fst snd] in *.
  - split_and!; [set_solver | done | by intros [? | ?] |
                 by intros ? [= <-] _; rewrite Htoken | | ].
    + exists off, []. rewrite app_nil_r. by split_and!.
    + intros ct body' [= <- <-]. by apply Ho2.
  - destruct (tryTelegram getFile fetchImage TELEGRAM_PROXY true token fileId)
      as [[[ct2 b2]|] prox] eqn:Hprox; cbn [fst snd] in *.
    + split_and!; [set_solver | done | by intros [? | ?] |
                   by intros ? [= <-] _; rewrite Htoken | | ].
      * exists off, prox. split_and!; try done.
        intros _ fileId' token' [= <-] Ht. rewrite Htoken in Ht.
        injection Ht as <-. fold token fileId. by rewrite Hoff.
      * intros ct body' [= <- <-].
        destruct (Hp2 ct2 b2 eq_refl) as (url & raw & Hlast & Hf & Hct).
        exists url, raw. split_and!; try done.
        rewrite last_app, Hlast. done.
    + split_and!; [set_solver | done | by intros [? | ?] |
                   by intros ? [= <-] _; rewrite Htoken | | done].
      exists off, prox. split_and!; try done.
      intros _ fileId' token' [= <-] Ht. rewrite Htoken in Ht.
      injection Ht as <-. fold token fileId. by rewrite Hoff.
Qed.

End WithNetwork.

End FileUrlFacts.

Module SignInFacts.
Import Server Worker LoginForm.



End SignInFacts.
